(** * Native scoring kernels: decay, vector similarity, string similarity,
    graph search

    A shallow embedding of [decay.cpp], [vector_ops.cpp], [string_ops.cpp]
    and [graph_ops.cpp], and the properties the specification states about
    them, followed by further properties read off the code.

    Number model.  A C++ [double] is modelled by a real number ([R]):
    [+ - * /] are the field operations, [std::sqrt] is [sqrt], [std::exp]
    is [exp] and [std::log1p x] is [ln (1 + x)].  Rounding, infinities and
    NaN are not modelled: the embedding carries out exactly the
    arithmetic the code writes down.  A statement that an overflow, a
    division by zero or a NaN of the double computation would falsify
    has hypotheses that exclude them ([finite_rate]), and an equation
    between two computations is stated where both perform the same
    operations in the same order.  An [int] is modelled by
    [Z].  [decay.cpp] only converts ints to double ([IZR]) and clamps
    them, so no wrap-around can occur there; where the code casts to
    [int] or adds ints ([string_ops.cpp], the component counter of
    [graph_ops.cpp]) the result is reduced to 32 bits by [to_int].  A
    [size_t] index is a [nat], a [size_t] node of a graph is an [N], and
    a [std::string] is the list of its bytes.

    Build model.  The preprocessor symbol [HAS_AVX2] selects between two
    bodies in several functions.  It is a boolean parameter of the
    functions it affects, and both bodies are embedded; in exact
    arithmetic a fused multiply-add is a multiplication and an addition.

    Loops.  A [for] loop over an index range is a fold ([for_range]); a
    [while] loop over a queue takes fuel and returns [None] when the fuel
    runs out, and the statements about it give the fuel that suffices.

    The file has the embedding first (one module per source file, with
    the names of the source), then the vocabulary of the statements, then
    the proofs.  The modules [binary64], [binary64_decay] and
    [binary64_strings] repeat functions over IEEE binary64 floats, to
    execute them on the inputs where double precision decides. *)

From stdpp Require Import gmap.
From Stdlib Require Import Floats Reals Lra Lia ZArith List Sorted Ascii.
Import ListNotations.

Local Open Scope R_scope.

(** ** Pieces of the C++ standard library *)

Module std.

(** [std::min(a, b)]: [(b < a) ? b : a]. *)
Definition min (a b : R) : R := if Rlt_dec b a then b else a.

(** [std::max(a, b)]: [(a < b) ? b : a]. *)
Definition max (a b : R) : R := if Rlt_dec a b then b else a.

(** [std::clamp(v, lo, hi)] on [int]: [(v < lo) ? lo : (hi < v) ? hi : v]. *)
Definition clamp (v lo hi : Z) : Z :=
  if (v <? lo)%Z then lo else if (hi <? v)%Z then hi else v.

(** [std::log1p]; the code calls it on arguments from 0.1 on only. *)
Definition log1p (x : R) : R := ln (1 + x).

End std.

(** A C array or [std::vector<double>] read at an index.  The loops
    below read inside the bounds they are given; a read past the end of
    an array, undefined in C++, gives 0 here. *)
Definition at_ (a : list R) (i : nat) : R := nth i a 0.

Definition at_int (a : list Z) (i : nat) : Z := nth i a 0%Z.

(** [static_cast<int>] of a [size_t], and [int] addition: the value modulo
    2^32 in the signed range. *)
Definition to_int (z : Z) : Z :=
  ((z + 2147483648) mod 4294967296 - 2147483648)%Z.

Definition int_add (x y : Z) : Z := to_int (x + y).

(** [for (size_t i = lo; i < hi; ++i) s = body(i, s);] *)
Definition for_range {S : Type} (lo hi : nat) (body : nat -> S -> S) (s : S) : S :=
  fold_left (fun acc i => body i acc) (seq lo (hi - lo)) s.

(** [for (i = 0; i + step <= n; i += step) s = body(i, s);] with the
    index the loop stops at.  The loop runs [n / step] times. *)
Definition for_stride {S : Type} (step n : nat) (body : nat -> S -> S) (s : S) : nat * S :=
  (step * (n / step),
   fold_left (fun acc c => body (step * c) acc) (seq 0 (n / step)) s)%nat.

(** ** The AVX2 intrinsics the code uses, lane by lane *)

Module avx2.

(** [__m256d]: four doubles. *)
Record m256d : Type := mk256 { lane0 : R; lane1 : R; lane2 : R; lane3 : R }.

(** Lane [k] of a register, as [tmp[k]] after [_mm256_storeu_pd(tmp, v)]. *)
Definition lane (v : m256d) (k : nat) : R :=
  match k with
  | O => lane0 v
  | 1%nat => lane1 v
  | 2%nat => lane2 v
  | _ => lane3 v
  end.

(** A [double t[4]] filled by [for (k = 0; k < 4; ++k) t[k] = f(k);] and
    read back with [_mm256_loadu_pd(t)]. *)
Definition build (f : nat -> R) : m256d :=
  mk256 (f 0%nat) (f 1%nat) (f 2%nat) (f 3%nat).

Definition map2 (f : R -> R -> R) (a b : m256d) : m256d :=
  build (fun k => f (lane a k) (lane b k)).

Definition _mm256_setzero_pd : m256d := mk256 0 0 0 0.
Definition _mm256_set1_pd (x : R) : m256d := build (fun _ => x).

(** [_mm256_loadu_pd(&a[i])]. *)
Definition _mm256_loadu_pd (a : list R) (i : nat) : m256d :=
  build (fun k => at_ a (i + k)).

(** [_mm256_cvtepi32_pd(_mm_loadu_si128(&a[i]))]. *)
Definition _mm256_cvtepi32_pd (a : list Z) (i : nat) : m256d :=
  build (fun k => IZR (at_int a (i + k))).

Definition _mm256_mul_pd : m256d -> m256d -> m256d := map2 Rmult.
Definition _mm256_div_pd : m256d -> m256d -> m256d := map2 Rdiv.
Definition _mm256_sub_pd : m256d -> m256d -> m256d := map2 Rminus.

(** [_mm256_min_pd(a, b)]: per lane [a < b ? a : b]. *)
Definition _mm256_min_pd : m256d -> m256d -> m256d :=
  map2 (fun a b => if Rlt_dec a b then a else b).

(** [_mm256_max_pd(a, b)]: per lane [a > b ? a : b].  (On a NaN the
    instruction returns [b], whichever operand it is, and [std::max]
    below returns its first argument: the reals have no such case, and
    the statements that compare the two exclude it.) *)
Definition _mm256_max_pd : m256d -> m256d -> m256d :=
  map2 (fun a b => if Rgt_dec a b then a else b).

(** [_mm256_fmadd_pd(a, b, c)]: per lane [a * b + c]. *)
Definition _mm256_fmadd_pd (a b c : m256d) : m256d :=
  build (fun k => lane a k * lane b k + lane c k).

(** [tmp[0] + tmp[1] + tmp[2] + tmp[3]] after a store. *)
Definition hsum (v : m256d) : R := lane v 0 + lane v 1 + lane v 2 + lane v 3.

(** [_mm256_storeu_pd(&out[i], v)]. *)
Definition _mm256_storeu_pd (out : list R) (i : nat) (v : m256d) : list R :=
  <[(i + 3)%nat := lane v 3]>
    (<[(i + 2)%nat := lane v 2]>
       (<[(i + 1)%nat := lane v 1]> (<[i := lane v 0]> out))).

End avx2.

(** ** decay.cpp *)

Module decay.

(** [double type_multipliers[4]]. *)
Record array4 : Type := mk_array4 { elt0 : R; elt1 : R; elt2 : R; elt3 : R }.

(** [a[idx]] for an index already clamped to 0..3. *)
Definition index4 (a : array4) (idx : Z) : R :=
  match idx with
  | 0%Z => elt0 a
  | 1%Z => elt1 a
  | 2%Z => elt2 a
  | _ => elt3 a
  end.

(** [struct DecayInput].  The header under src/ predates the
    [channel_mentions] field; the field order is the one of the aggregate
    initialisers in decay.cpp and in the Python binding. *)
Record DecayInput : Type := mkDecayInput {
  importance : R;
  hours_passed : R;
  access_count : Z;
  connection_count : Z;
  last_access_hours : R;
  memory_type : Z;
  channel_mentions : Z
}.

(** [struct DecayConfig], with the [channel_diversity_k] member that
    decay.cpp and the binding read. *)
Record DecayConfig : Type := mkDecayConfig {
  base_decay_rate : R;
  min_retention : R;
  access_stability_k : R;
  relation_resistance_k : R;
  channel_diversity_k : R;
  type_multipliers : array4
}.

(** The defaults the header gives; it gives none for
    [channel_diversity_k], which is left to the caller here. *)
Definition default_config (channel_k : R) : DecayConfig :=
  mkDecayConfig 0.002 0.1 0.3 0.1 channel_k (mk_array4 1.0 0.3 0.5 0.7).

(** [fast_exp_neg]: both branches call [std::exp(-x)]. *)
Definition fast_exp_neg (x : R) : R :=
  if Rlt_dec x 0.01 then exp (- x) else exp (- x).

(** [fast_log1p]: a cubic Taylor polynomial below 0.1, [std::log1p] from
    there on. *)
Definition fast_log1p (x : R) : R :=
  if Rlt_dec x 0.1 then
    let x2 := x * x in
    let x3 := x2 * x in
    x - 0.5 * x2 + (1.0 / 3.0) * x3
  else std.log1p x.

(** The intermediate values of [calculate], one definition per local
    variable of the source. *)
Definition stability (input : DecayInput) (config : DecayConfig) : R :=
  1.0 + access_stability_k config * fast_log1p (IZR (access_count input)).

Definition resistance (input : DecayInput) (config : DecayConfig) : R :=
  std.min 1.0 (IZR (connection_count input) * relation_resistance_k config).

Definition type_multiplier (input : DecayInput) (config : DecayConfig) : R :=
  let type_idx := std.clamp (memory_type input) 0 3 in
  index4 (type_multipliers config) type_idx.

(** (The divisor is 0 for [channel_diversity_k * channel_mentions = -1]:
    the double quotient is then infinite, Rocq's is 0.  The statements
    below that depend on the quotient assume factors that are not
    negative.) *)
Definition channel_boost (input : DecayInput) (config : DecayConfig) : R :=
  1.0 / (1.0 + channel_diversity_k config * IZR (channel_mentions input)).

Definition effective_rate (input : DecayInput) (config : DecayConfig) : R :=
  base_decay_rate config * type_multiplier input config
    * channel_boost input config / stability input config
    * (1.0 - resistance input config).

(** [decayed] after the exponential, before the recency test. *)
Definition exponential_decay (input : DecayInput) (config : DecayConfig) : R :=
  importance input
    * fast_exp_neg (effective_rate input config * hours_passed input).

(** The condition of the recency-paradox [if], on the two values it
    reads: [lah >= 0 && hours > 168.0 && lah < 24.0]. *)
Definition recency_test (lah hours : R) : bool :=
  if Rge_dec lah 0 then
    if Rgt_dec hours 168.0 then
      if Rlt_dec lah 24.0 then true else false
    else false
  else false.

Definition recency_paradox (input : DecayInput) : bool :=
  recency_test (last_access_hours input) (hours_passed input).

(** [decayed] when the floor is applied. *)
Definition decayed_before_floor (input : DecayInput) (config : DecayConfig) : R :=
  let decayed := exponential_decay input config in
  if recency_paradox input then decayed * 1.3 else decayed.

Definition calculate (input : DecayInput) (config : DecayConfig) : R :=
  if Rlt_dec (hours_passed input) 0 then importance input
  else
    std.max (decayed_before_floor input config)
            (importance input * min_retention config).

(** The default of a read of [inputs[j]]; every read of [calculate_batch]
    is inside the vector. *)
Definition no_input : DecayInput := mkDecayInput 0 0 0 0 0 0 0.

(** [calculate_batch]: the result vector is allocated at the input's
    size and filled in chunks of 64. *)
Definition calculate_batch (inputs : list DecayInput) (config : DecayConfig) : list R :=
  let results := repeat 0 (length inputs) in
  let chunk_size := 64%nat in
  fold_left
    (fun results c =>
       let i := (chunk_size * c)%nat in
       let end_ := Nat.min (i + chunk_size) (length inputs) in
       for_range i end_
         (fun j results => <[j := calculate (nth j inputs no_input) config]> results)
         results)
    (seq 0 ((length inputs + chunk_size - 1) / chunk_size))
    results.

(** The record [calculate_batch_arrays] assembles for index [i] when it
    passes all seven members. *)
Definition record_at (importance hours_passed : list R)
    (access_count connection_count : list Z) (last_access_hours : list R)
    (memory_type channel_mentions : list Z) (i : nat) : DecayInput :=
  mkDecayInput (at_ importance i) (at_ hours_passed i)
    (at_int access_count i) (at_int connection_count i)
    (at_ last_access_hours i) (at_int memory_type i)
    (at_int channel_mentions i).

(** The scalar fallback initialises the record with six values,
    [DecayInput input{importance[i], ..., memory_type[i]}]: the seventh
    member, [channel_mentions], gets no value there and is
    value-initialised, to 0 (also the default of the Python
    constructor). *)
Definition record_at_fallback (importance hours_passed : list R)
    (access_count connection_count : list Z) (last_access_hours : list R)
    (memory_type : list Z) (i : nat) : DecayInput :=
  mkDecayInput (at_ importance i) (at_ hours_passed i)
    (at_int access_count i) (at_int connection_count i)
    (at_ last_access_hours i) (at_int memory_type i)
    0%Z.

(** The [#else] body of [calculate_batch_arrays].  [output] is the
    caller's buffer of at least [n] doubles; the result is the buffer
    after the call. *)
Definition calculate_batch_arrays_fallback (n : nat)
    (importance hours_passed : list R)
    (access_count connection_count : list Z) (last_access_hours : list R)
    (memory_type channel_mentions : list Z) (config : DecayConfig)
    (output : list R) : list R :=
  for_range 0 n
    (fun i output =>
       let input := record_at_fallback importance hours_passed access_count
                      connection_count last_access_hours memory_type i in
       <[i := calculate input config]> output)
    output.

(** One iteration of the four-lane loop of the [#ifdef HAS_AVX2] body:
    the register [decayed] that the iteration stores.  The source also
    loads [ac], [mt_i] and the constants [access_k], [recency_boost],
    [hours_168], [hours_24] and [neg_one], and never reads them. *)
Definition avx2_chunk_value (importance hours_passed : list R)
    (access_count connection_count : list Z) (last_access_hours : list R)
    (memory_type channel_mentions : list Z) (config : DecayConfig)
    (i : nat) : avx2.m256d :=
  let one := avx2._mm256_set1_pd 1.0 in
  let relation_k := avx2._mm256_set1_pd (relation_resistance_k config) in
  let base_rate := avx2._mm256_set1_pd (base_decay_rate config) in
  let min_ret := avx2._mm256_set1_pd (min_retention config) in
  let imp := avx2._mm256_loadu_pd importance i in
  let hours := avx2._mm256_loadu_pd hours_passed i in
  let cc := avx2._mm256_cvtepi32_pd connection_count i in
  let lah := avx2._mm256_loadu_pd last_access_hours i in
  let stability :=
    avx2.build (fun k =>
      1.0 + access_stability_k config
            * fast_log1p (IZR (at_int access_count (i + k)))) in
  let resistance := avx2._mm256_mul_pd cc relation_k in
  let resistance := avx2._mm256_min_pd resistance one in
  let tm :=
    avx2.build (fun k =>
      let idx := std.clamp (at_int memory_type (i + k)) 0 3 in
      index4 (type_multipliers config) idx) in
  let cb :=
    avx2.build (fun k =>
      1.0 / (1.0 + channel_diversity_k config
                   * IZR (at_int channel_mentions (i + k)))) in
  let eff_rate := avx2._mm256_mul_pd base_rate tm in
  let eff_rate := avx2._mm256_mul_pd eff_rate cb in
  let eff_rate := avx2._mm256_div_pd eff_rate stability in
  let eff_rate := avx2._mm256_mul_pd eff_rate (avx2._mm256_sub_pd one resistance) in
  let decay :=
    avx2.build (fun k =>
      fast_exp_neg (avx2.lane eff_rate k * avx2.lane hours k)) in
  let decayed := avx2._mm256_mul_pd imp decay in
  let decayed :=
    avx2.build (fun k =>
      if recency_test (avx2.lane lah k) (avx2.lane hours k)
      then avx2.lane decayed k * 1.3
      else avx2.lane decayed k) in
  let min_val := avx2._mm256_mul_pd imp min_ret in
  avx2._mm256_max_pd decayed min_val.

(** The iteration: compute the register, store it at [output[i..i+3]]. *)
Definition avx2_chunk (importance hours_passed : list R)
    (access_count connection_count : list Z) (last_access_hours : list R)
    (memory_type channel_mentions : list Z) (config : DecayConfig)
    (i : nat) (output : list R) : list R :=
  avx2._mm256_storeu_pd output i
    (avx2_chunk_value importance hours_passed access_count connection_count
       last_access_hours memory_type channel_mentions config i).

(** The [#ifdef HAS_AVX2] body: whole groups of four go through
    [avx2_chunk], the remaining elements through [calculate]. *)
Definition calculate_batch_arrays_avx2 (n : nat)
    (importance hours_passed : list R)
    (access_count connection_count : list Z) (last_access_hours : list R)
    (memory_type channel_mentions : list Z) (config : DecayConfig)
    (output : list R) : list R :=
  let '(i, output) :=
    for_stride 4 n
      (avx2_chunk importance hours_passed access_count connection_count
         last_access_hours memory_type channel_mentions config)
      output in
  for_range i n
    (fun i output =>
       let input := record_at importance hours_passed access_count
                      connection_count last_access_hours memory_type
                      channel_mentions i in
       <[i := calculate input config]> output)
    output.

Definition calculate_batch_arrays (HAS_AVX2 : bool) (n : nat)
    (importance hours_passed : list R)
    (access_count connection_count : list Z) (last_access_hours : list R)
    (memory_type channel_mentions : list Z) (config : DecayConfig)
    (output : list R) : list R :=
  if HAS_AVX2 then
    calculate_batch_arrays_avx2 n importance hours_passed access_count
      connection_count last_access_hours memory_type channel_mentions
      config output
  else
    calculate_batch_arrays_fallback n importance hours_passed access_count
      connection_count last_access_hours memory_type channel_mentions
      config output.

End decay.

(** ** axnmihn_native.cpp: the NumPy entry point of the decay engine *)

Module axnmihn_native.

(** [calculate_batch_numpy]: [n] is the size of the [importance] array
    and the result is a fresh array of [n] doubles (modelled as filled
    with zeros) that [calculate_batch_arrays] writes. *)
Definition calculate_batch_numpy (HAS_AVX2 : bool)
    (importance hours_passed : list R)
    (access_count connection_count : list Z) (last_access_hours : list R)
    (memory_type channel_mentions : list Z) (config : decay.DecayConfig)
    : list R :=
  let n := length importance in
  let result := repeat 0 n in
  decay.calculate_batch_arrays HAS_AVX2 n importance hours_passed
    access_count connection_count last_access_hours memory_type
    channel_mentions config result.

End axnmihn_native.

(** ** vector_ops.cpp *)

Module vector_ops.

(** [cosine_similarity].  The three accumulators [dot], [norm_a] and
    [norm_b] are carried as a triple; with [HAS_AVX2] they are first three
    four-lane registers, summed horizontally before the remainder loop. *)
Definition cosine_similarity (HAS_AVX2 : bool) (a b : list R) : R :=
  if negb (length a =? length b)%nat || (length a =? 0)%nat then 0.0
  else
    let n := length a in
    let step := fun i '(dot, norm_a, norm_b) =>
      (dot + at_ a i * at_ b i,
       norm_a + at_ a i * at_ a i,
       norm_b + at_ b i * at_ b i) in
    let '(dot, norm_a, norm_b) :=
      if HAS_AVX2 then
        let '(i, (sum_dot, sum_a, sum_b)) :=
          for_stride 4 n
            (fun i '(sum_dot, sum_a, sum_b) =>
               let va := avx2._mm256_loadu_pd a i in
               let vb := avx2._mm256_loadu_pd b i in
               (avx2._mm256_fmadd_pd va vb sum_dot,
                avx2._mm256_fmadd_pd va va sum_a,
                avx2._mm256_fmadd_pd vb vb sum_b))
            (avx2._mm256_setzero_pd, avx2._mm256_setzero_pd,
             avx2._mm256_setzero_pd) in
        for_range i n step
          (avx2.hsum sum_dot, avx2.hsum sum_a, avx2.hsum sum_b)
      else
        for_range 0 n step (0.0, 0.0, 0.0) in
    let denom := sqrt norm_a * sqrt norm_b in
    if Rlt_dec denom 1e-10 then 0.0 else dot / denom.

(** [cosine_similarity_batch].  [corpus] is the row-major matrix behind
    the [const double*]; row [v] starts at offset [v * dim]. *)
Definition cosine_similarity_batch (HAS_AVX2 : bool) (query corpus : list R)
    (n_vectors dim : nat) : list R :=
  let results := repeat 0 n_vectors in
  if negb (length query =? dim)%nat then results
  else
    let query_norm_sq :=
      for_range 0 dim
        (fun i query_norm_sq => query_norm_sq + at_ query i * at_ query i)
        0.0 in
    let query_norm := sqrt query_norm_sq in
    if Rlt_dec query_norm 1e-10 then results
    else
      for_range 0 n_vectors
        (fun v results =>
           let vec := (v * dim)%nat in
           let step := fun i '(dot, vec_norm_sq) =>
             (dot + at_ query i * at_ corpus (vec + i),
              vec_norm_sq + at_ corpus (vec + i) * at_ corpus (vec + i)) in
           let '(dot, vec_norm_sq) :=
             if HAS_AVX2 then
               let '(i, (sum_dot, sum_norm)) :=
                 for_stride 4 dim
                   (fun i '(sum_dot, sum_norm) =>
                      let vq := avx2._mm256_loadu_pd query i in
                      let vv := avx2._mm256_loadu_pd corpus (vec + i) in
                      (avx2._mm256_fmadd_pd vq vv sum_dot,
                       avx2._mm256_fmadd_pd vv vv sum_norm))
                   (avx2._mm256_setzero_pd, avx2._mm256_setzero_pd) in
               for_range i dim step (avx2.hsum sum_dot, avx2.hsum sum_norm)
             else
               for_range 0 dim step (0.0, 0.0) in
           let vec_norm := sqrt vec_norm_sq in
           if Rlt_dec vec_norm 1e-10 then <[v := 0.0]> results
           else <[v := dot / (query_norm * vec_norm)]> results)
        results.

(** The first loop of [find_duplicates_by_embedding]: the norm of every
    row. *)
Definition precompute_norms (embeddings : list R) (n dim : nat) : list R :=
  for_range 0 n
    (fun i norms =>
       let vec := (i * dim)%nat in
       let norm_sq :=
         for_range 0 dim
           (fun d norm_sq =>
              norm_sq + at_ embeddings (vec + d) * at_ embeddings (vec + d))
           0.0 in
       <[i := sqrt norm_sq]> norms)
    (repeat 0 n).

(** The dot product of rows [i] and [j], as the inner loop computes it. *)
Definition pair_dot (HAS_AVX2 : bool) (embeddings : list R) (dim i j : nat) : R :=
  let vec_i := (i * dim)%nat in
  let vec_j := (j * dim)%nat in
  let step := fun d dot =>
    dot + at_ embeddings (vec_i + d) * at_ embeddings (vec_j + d) in
  if HAS_AVX2 then
    let '(d, sum) :=
      for_stride 4 dim
        (fun d sum =>
           let vi := avx2._mm256_loadu_pd embeddings (vec_i + d) in
           let vj := avx2._mm256_loadu_pd embeddings (vec_j + d) in
           avx2._mm256_fmadd_pd vi vj sum)
        avx2._mm256_setzero_pd in
    for_range d dim step (avx2.hsum sum)
  else
    for_range 0 dim step 0.0.

(** [find_duplicates_by_embedding]; [emplace_back] appends at the end. *)
Definition find_duplicates_by_embedding (HAS_AVX2 : bool)
    (embeddings : list R) (n dim : nat) (threshold : R)
    : list (nat * nat * R) :=
  let norms := precompute_norms embeddings n dim in
  for_range 0 n
    (fun i duplicates =>
       if Rlt_dec (at_ norms i) 1e-10 then duplicates
       else
         for_range (i + 1) n
           (fun j duplicates =>
              if Rlt_dec (at_ norms j) 1e-10 then duplicates
              else
                let dot := pair_dot HAS_AVX2 embeddings dim i j in
                let similarity := dot / (at_ norms i * at_ norms j) in
                if Rge_dec similarity threshold
                then duplicates ++ [(i, j, similarity)]
                else duplicates)
           duplicates)
    [].

End vector_ops.
(** ** string_ops.cpp *)

Module string_ops.

(** [std::min({x, y, z})] on [int]. *)
Definition min3 (x y z : Z) : Z := Z.min (Z.min x y) z.

(** [s[i]] for a [std::string]. *)
Definition char_at (s : list ascii) (i : nat) : ascii := nth i s zero.

(** [levenshtein_distance]: the two rows [prev] and [curr] are carried as
    a pair, which [std::swap] exchanges at the end of each outer
    iteration. *)
Definition levenshtein_distance (a b : list ascii) : Z :=
  let m := length a in
  let n := length b in
  if (m =? 0)%nat then to_int (Z.of_nat n)
  else if (n =? 0)%nat then to_int (Z.of_nat m)
  else
    let prev := repeat 0%Z (n + 1) in
    let curr := repeat 0%Z (n + 1) in
    let prev :=
      for_range 0 (n + 1)
        (fun j prev => <[j := to_int (Z.of_nat j)]> prev) prev in
    let '(prev, curr) :=
      for_range 1 (m + 1)
        (fun i '(prev, curr) =>
           let curr := <[0%nat := to_int (Z.of_nat i)]> curr in
           let curr :=
             for_range 1 (n + 1)
               (fun j curr =>
                  let cost :=
                    if Ascii.eqb (char_at a (i - 1)) (char_at b (j - 1))
                    then 0%Z else 1%Z in
                  <[j := min3 (int_add (at_int prev j) 1)
                              (int_add (at_int curr (j - 1)) 1)
                              (int_add (at_int prev (j - 1)) cost)]> curr)
               curr in
           (curr, prev))
        (prev, curr) in
    at_int prev n.

(** [string_similarity]: [1 - distance / max_len]. *)
Definition string_similarity (a b : list ascii) : R :=
  if (length a =? 0)%nat && (length b =? 0)%nat then 1.0
  else
    let max_len := Nat.max (length a) (length b) in
    if (max_len =? 0)%nat then 1.0
    else
      let dist := levenshtein_distance a b in
      1.0 - IZR dist / INR max_len.

(** [find_string_duplicates]: [continue] leaves the list of duplicates as
    it is. *)
Definition find_string_duplicates (strings : list (list ascii)) (threshold : R)
    : list (nat * nat * R) :=
  let n := length strings in
  for_range 0 n
    (fun i duplicates =>
       let a := nth i strings [] in
       let len_a := length a in
       for_range (i + 1) n
         (fun j duplicates =>
            let b := nth j strings [] in
            let len_b := length b in
            let max_len := Nat.max len_a len_b in
            let min_len := Nat.min len_a len_b in
            if (0 <? max_len)%nat
               && (if Rlt_dec (INR min_len / INR max_len) threshold
                   then true else false)
            then duplicates
            else
              let sim := string_similarity a b in
              if Rge_dec sim threshold
              then duplicates ++ [(i, j, sim)]
              else duplicates)
         duplicates)
    [].

(** [string_similarity_batch]: the result vector starts as zeros and is
    written index by index. *)
Definition string_similarity_batch (query : list ascii)
    (targets : list (list ascii)) : list R :=
  let results := repeat 0 (length targets) in
  for_range 0 (length targets)
    (fun i results => <[i := string_similarity query (nth i targets [])]> results)
    results.

End string_ops.


(** ** graph_ops.cpp *)

Module graph_ops.

(** [if (visited.find(node) == visited.end()) { visited.insert(node);
    frontier.push({node, depth}); }] on the pair of the visited set and
    the queue.  The queue is a list with its front at the head. *)
Definition visit (depth : Z) (state : gset N * list (N * Z)) (node : N)
    : gset N * list (N * Z) :=
  let '(visited, frontier) := state in
  if decide (node ∈ visited) then (visited, frontier)
  else ({[node]} ∪ visited, frontier ++ [(node, depth)]).

(** The [while (!frontier.empty())] loop.  Each unit of [fuel] pays for
    one iteration; [None] means the fuel ran out before the queue was
    empty.  A depth never exceeds [max_depth] when it is incremented, so
    [depth + 1] stays an [int]. *)
Fixpoint bfs_loop (fuel : nat) (adjacency : gmap N (list N)) (max_depth : Z)
    (visited : gset N) (frontier : list (N * Z)) : option (gset N) :=
  match frontier with
  | [] => Some visited
  | (current, depth) :: frontier =>
      match fuel with
      | O => None
      | S fuel =>
          if (max_depth <=? depth)%Z then
            bfs_loop fuel adjacency max_depth visited frontier
          else
            match adjacency !! current with
            | None => bfs_loop fuel adjacency max_depth visited frontier
            | Some neighbors =>
                let '(visited, frontier) :=
                  fold_left (visit (depth + 1)) neighbors (visited, frontier) in
                bfs_loop fuel adjacency max_depth visited frontier
            end
      end
  end.

(** [bfs_neighbors], with the fuel of its loop. *)
Definition bfs_neighbors (fuel : nat) (adjacency : gmap N (list N))
    (start_nodes : list N) (max_depth : Z) : option (gset N) :=
  let '(visited, frontier) := fold_left (visit 0) start_nodes (∅, []) in
  bfs_loop fuel adjacency max_depth visited frontier.

(** Every node the search can meet: the start nodes and the entries of
    the neighbour lists.  Its size bounds the number of iterations. *)
Definition known_nodes (adjacency : gmap N (list N)) (start_nodes : list N)
    : gset N :=
  list_to_set start_nodes
    ∪ list_to_set (concat (map snd (map_to_list adjacency))).

Definition enough_fuel (adjacency : gmap N (list N)) (start_nodes : list N)
    : nat :=
  size (known_nodes adjacency start_nodes).

(** [if (neighbor < n_nodes && component_ids[neighbor] == -1) {
    component_ids[neighbor] = current_component; q.push(neighbor); }] on
    the pair of the label vector and the queue. *)
Definition label (n_nodes : nat) (current_component : Z)
    (state : list Z * list N) (neighbor : N) : list Z * list N :=
  let '(component_ids, q) := state in
  if (N.to_nat neighbor <? n_nodes)%nat
     && (at_int component_ids (N.to_nat neighbor) =? -1)%Z
  then (<[N.to_nat neighbor := current_component]> component_ids,
        q ++ [neighbor])
  else (component_ids, q).

(** The [while (!q.empty())] loop of one component, with fuel for its
    iterations. *)
Fixpoint component_loop (fuel : nat) (adjacency : gmap N (list N))
    (n_nodes : nat) (current_component : Z) (component_ids : list Z)
    (q : list N) : option (list Z) :=
  match q with
  | [] => Some component_ids
  | current :: q =>
      match fuel with
      | O => None
      | S fuel =>
          match adjacency !! current with
          | None =>
              component_loop fuel adjacency n_nodes current_component
                component_ids q
          | Some neighbors =>
              let '(component_ids, q) :=
                fold_left (label n_nodes current_component) neighbors
                  (component_ids, q) in
              component_loop fuel adjacency n_nodes current_component
                component_ids q
          end
      end
  end.

(** The body of the [for (size_t node = 0; node < n_nodes; ++node)] loop on
    the pair of the label vector and [current_component]; [None] when an
    inner loop ran out of fuel. *)
Definition component_step (fuel : nat) (adjacency : gmap N (list N))
    (n_nodes : nat) (node : nat) (state : option (list Z * Z))
    : option (list Z * Z) :=
  match state with
  | None => None
  | Some (component_ids, current_component) =>
      if negb (at_int component_ids node =? -1)%Z
      then Some (component_ids, current_component)
      else
        let q := [N.of_nat node] in
        let component_ids := <[node := current_component]> component_ids in
        match component_loop fuel adjacency n_nodes current_component
                component_ids q with
        | None => None
        | Some component_ids =>
            Some (component_ids, int_add current_component 1)
        end
  end.

(** [find_connected_components], with the fuel of each inner loop.
    [std::vector<int> component_ids(n_nodes, -1)] is the list of [n_nodes]
    entries [-1]; [++current_component] is an [int] addition. *)
Definition find_connected_components (fuel : nat)
    (adjacency : gmap N (list N)) (n_nodes : nat) : option (list Z) :=
  let component_ids := repeat (-1)%Z n_nodes in
  let current_component := 0%Z in
  option_map fst
    (for_range 0 n_nodes (component_step fuel adjacency n_nodes)
       (Some (component_ids, current_component))).

End graph_ops.

(** ** vector_ops.cpp in IEEE binary64

    The scalar build of the two cosine functions once more, over Rocq's
    primitive binary64 floats, whose [+ * /], [sqrt] and [<] are the IEEE
    operations that the C++ code runs on [double].  This copy executes:
    it replays in double precision the inputs on which the functions are
    compared below.  (Primitive floats have no [exp] or [log1p] and no
    fused multiply-add, so the AVX2 bodies have no such copy, and
    decay.cpp has the partial one that follows.) *)

Module binary64.

Local Open Scope float_scope.
#[local] Set Warnings "-inexact-float".

Definition at_ (a : list float) (i : nat) : float := nth i a 0.

Definition cosine_similarity (a b : list float) : float :=
  if (negb (length a =? length b)%nat || (length a =? 0)%nat)%bool then 0
  else
    let '(dot, norm_a, norm_b) :=
      for_range 0 (length a)
        (fun i '(dot, norm_a, norm_b) =>
           (dot + at_ a i * at_ b i,
            norm_a + at_ a i * at_ a i,
            norm_b + at_ b i * at_ b i))
        (0, 0, 0) in
    let denom := PrimFloat.sqrt norm_a * PrimFloat.sqrt norm_b in
    if denom <? 1e-10 then 0 else dot / denom.

Definition cosine_similarity_batch (query corpus : list float)
    (n_vectors dim : nat) : list float :=
  let results := repeat 0 n_vectors in
  if negb (length query =? dim)%nat then results
  else
    let query_norm_sq :=
      for_range 0 dim
        (fun i query_norm_sq => query_norm_sq + at_ query i * at_ query i)
        0 in
    let query_norm := PrimFloat.sqrt query_norm_sq in
    if query_norm <? 1e-10 then results
    else
      for_range 0 n_vectors
        (fun v results =>
           let vec := (v * dim)%nat in
           let '(dot, vec_norm_sq) :=
             for_range 0 dim
               (fun i '(dot, vec_norm_sq) =>
                  (dot + at_ query i * at_ corpus (vec + i)%nat,
                   vec_norm_sq
                   + at_ corpus (vec + i)%nat * at_ corpus (vec + i)%nat))
               (0, 0) in
           let vec_norm := PrimFloat.sqrt vec_norm_sq in
           if vec_norm <? 1e-10 then <[v := 0]> results
           else <[v := dot / (query_norm * vec_norm)]> results)
        results.

End binary64.
(** ** decay.cpp in IEEE binary64, where the library fixes the value

    [calculate] once more over primitive floats, to execute it on inputs
    whose computation leaves the finite numbers.  [std::exp] and
    [std::log1p] have no counterpart among the primitive operations; the
    copy takes their value where IEC 60559 (Annex F of the C standard)
    fixes it exactly, at zeros, infinities and NaN, and has no value
    ([None]) anywhere else. *)

Module binary64_decay.

Local Open Scope float_scope.
#[local] Set Warnings "-inexact-float".

(** [static_cast<double>] of an [int]; also the conversion of an [int]
    operand of a [double] product. *)
Definition of_int (z : Z) : float :=
  if (z <? 0)%Z then - of_uint63 (Uint63.of_Z (- z))
  else of_uint63 (Uint63.of_Z z).

(** [std::exp]: exp(NaN) = NaN, exp(-inf) = +0, exp(+inf) = +inf,
    exp(+-0) = 1. *)
Definition std_exp (x : float) : option float :=
  if is_nan x then Some nan
  else if x =? neg_infinity then Some 0
  else if x =? infinity then Some infinity
  else if x =? 0 then Some 1
  else None.

(** [std::log1p]: log1p(NaN) = NaN, log1p(+inf) = +inf,
    log1p(+-0) = +-0. *)
Definition std_log1p (x : float) : option float :=
  if is_nan x then Some nan
  else if x =? infinity then Some infinity
  else if x =? 0 then Some x
  else None.

(** [std::min(a, b)] and [std::max(a, b)]. *)
Definition std_min (a b : float) : float := if b <? a then b else a.
Definition std_max (a b : float) : float := if a <? b then b else a.

Record array4 : Type :=
  mk_array4 { elt0 : float; elt1 : float; elt2 : float; elt3 : float }.

Definition index4 (a : array4) (idx : Z) : float :=
  match idx with
  | 0%Z => elt0 a
  | 1%Z => elt1 a
  | 2%Z => elt2 a
  | _ => elt3 a
  end.

Record DecayInput : Type := mkDecayInput {
  importance : float;
  hours_passed : float;
  access_count : Z;
  connection_count : Z;
  last_access_hours : float;
  memory_type : Z;
  channel_mentions : Z
}.

Record DecayConfig : Type := mkDecayConfig {
  base_decay_rate : float;
  min_retention : float;
  access_stability_k : float;
  relation_resistance_k : float;
  channel_diversity_k : float;
  type_multipliers : array4
}.

Definition default_config (channel_k : float) : DecayConfig :=
  mkDecayConfig 0.002 0.1 0.3 0.1 channel_k (mk_array4 1.0 0.3 0.5 0.7).

Definition fast_exp_neg (x : float) : option float :=
  if x <? 0.01 then std_exp (- x) else std_exp (- x).

Definition fast_log1p (x : float) : option float :=
  if x <? 0.1 then
    let x2 := x * x in
    let x3 := x2 * x in
    Some (x - 0.5 * x2 + (1.0 / 3.0) * x3)
  else std_log1p x.

Definition calculate (input : DecayInput) (config : DecayConfig)
    : option float :=
  if hours_passed input <? 0 then Some (importance input)
  else
    match fast_log1p (of_int (access_count input)) with
    | None => None
    | Some log1p_accesses =>
        let stability := 1.0 + access_stability_k config * log1p_accesses in
        let resistance :=
          std_min 1.0
            (of_int (connection_count input) * relation_resistance_k config) in
        let type_idx := std.clamp (memory_type input) 0 3 in
        let type_multiplier := index4 (type_multipliers config) type_idx in
        let channel_boost :=
          1.0 / (1.0 + channel_diversity_k config
                       * of_int (channel_mentions input)) in
        let effective_rate :=
          base_decay_rate config * type_multiplier * channel_boost
          / stability * (1.0 - resistance) in
        match fast_exp_neg (effective_rate * hours_passed input) with
        | None => None
        | Some decay_factor =>
            let decayed := importance input * decay_factor in
            let decayed :=
              if (0 <=? last_access_hours input)
                 && (168.0 <? hours_passed input)
                 && (last_access_hours input <? 24.0)
              then decayed * 1.3 else decayed in
            Some (std_max decayed (importance input * min_retention config))
        end
    end.

End binary64_decay.

(** ** string_ops.cpp in IEEE binary64

    [string_similarity] and [find_string_duplicates] once more over
    primitive floats; the distance is the integer function above. *)

Module binary64_strings.

Local Open Scope float_scope.
#[local] Set Warnings "-inexact-float".

(** [static_cast<double>] of an [int] and of a [size_t]. *)
Definition of_int (z : Z) : float :=
  if (z <? 0)%Z then - of_uint63 (Uint63.of_Z (- z))
  else of_uint63 (Uint63.of_Z z).

Definition of_size (n : nat) : float := of_uint63 (Uint63.of_Z (Z.of_nat n)).

Definition string_similarity (a b : list ascii) : float :=
  if ((length a =? 0)%nat && (length b =? 0)%nat)%bool then 1.0
  else
    let max_len := Nat.max (length a) (length b) in
    if (max_len =? 0)%nat then 1.0
    else
      let dist := string_ops.levenshtein_distance a b in
      1.0 - of_int dist / of_size max_len.

Definition find_string_duplicates (strings : list (list ascii))
    (threshold : float) : list (nat * nat * float) :=
  let n := length strings in
  for_range 0 n
    (fun i duplicates =>
       let a := nth i strings [] in
       let len_a := length a in
       for_range (i + 1) n
         (fun j duplicates =>
            let b := nth j strings [] in
            let len_b := length b in
            let max_len := Nat.max len_a len_b in
            let min_len := Nat.min len_a len_b in
            if ((0 <? max_len)%nat
                && (of_size min_len / of_size max_len <? threshold))%bool
            then duplicates
            else
              let sim := string_similarity a b in
              if threshold <=? sim
              then duplicates ++ [(i, j, sim)]
              else duplicates)
         duplicates)
    [].

End binary64_strings.


(** ** Vocabulary of the statements *)

Section Vocabulary.

Import decay.

(** What the rate computation needs of the configuration. *)
Definition rate_parameters_nonneg (config : DecayConfig) : Prop :=
  0 <= base_decay_rate config /\
  0 <= access_stability_k config /\
  0 <= relation_resistance_k config /\
  0 <= channel_diversity_k config /\
  0 <= elt0 (type_multipliers config) /\
  0 <= elt1 (type_multipliers config) /\
  0 <= elt2 (type_multipliers config) /\
  0 <= elt3 (type_multipliers config).

(** The data model's constraint on the three counters. *)
Definition counts_nonneg (input : DecayInput) : Prop :=
  (0 <= access_count input)%Z /\
  (0 <= connection_count input)%Z /\
  (0 <= channel_mentions input)%Z.

(** The record with its age replaced, all other members kept. *)
Definition with_hours (input : DecayInput) (h : R) : DecayInput :=
  mkDecayInput (importance input) h (access_count input)
    (connection_count input) (last_access_hours input)
    (memory_type input) (channel_mentions input).



(** [calculate] without its first statement, the [hours_passed < 0]
    test. *)
Definition calculate_unguarded (input : DecayInput) (config : DecayConfig) : R :=
  std.max (decayed_before_floor input config)
          (importance input * min_retention config).

(** Two values agree to within the relative tolerance [tol]. *)
Definition within_relative (tol x y : R) : Prop :=
  Rabs (x - y) <= tol * Rabs y.

(** A batch of one record that five channels mention, 500 hours old, and
    a batch of four records dated 24 hours into the future. *)
Definition mentioned_batch : list R * list R * list Z * list Z * list R * list Z * list Z :=
  ([1], [500], [0%Z], [0%Z], [-1], [0%Z], [5%Z]).

Definition future_batch : list R * list R * list Z * list Z * list R * list Z * list Z :=
  ([1; 1; 1; 1], [-24; -24; -24; -24], [0%Z; 0%Z; 0%Z; 0%Z],
   [0%Z; 0%Z; 0%Z; 0%Z], [-1; -1; -1; -1], [0%Z; 0%Z; 0%Z; 0%Z],
   [0%Z; 0%Z; 0%Z; 0%Z]).

(** The NumPy entry point and the record of index [k], on a batch given
    as one tuple of its seven arrays. *)
Definition batch_arrays_output (HAS_AVX2 : bool)
    (batch : list R * list R * list Z * list Z * list R * list Z * list Z)
    (config : DecayConfig) : list R :=
  let '(importance, hours_passed, access_count, connection_count,
        last_access_hours, memory_type, channel_mentions) := batch in
  axnmihn_native.calculate_batch_numpy HAS_AVX2 importance hours_passed
    access_count connection_count last_access_hours memory_type
    channel_mentions config.

Definition batch_record
    (batch : list R * list R * list Z * list Z * list R * list Z * list Z)
    (k : nat) : DecayInput :=
  let '(importance, hours_passed, access_count, connection_count,
        last_access_hours, memory_type, channel_mentions) := batch in
  record_at importance hours_passed access_count connection_count
    last_access_hours memory_type channel_mentions k.

(** [f 0 + f 1 + ... + f (n - 1)], added in index order as the scalar
    loops do. *)
Fixpoint sum_upto (f : nat -> R) (n : nat) : R :=
  match n with
  | O => 0
  | S k => sum_upto f k + f k
  end.

(** Dot product, Euclidean norm and cosine similarity of rows [i] and [j]
    of a row-major matrix with rows of length [dim]. *)
Definition row_dot (m : list R) (dim i j : nat) : R :=
  sum_upto (fun d => at_ m (i * dim + d) * at_ m (j * dim + d)) dim.

Definition row_norm (m : list R) (dim i : nat) : R :=
  sqrt (row_dot m dim i i).

Definition row_cosine (m : list R) (dim i j : nat) : R :=
  row_dot m dim i j / (row_norm m dim i * row_norm m dim j).

(** Dot product and norm of vectors given as lists. *)
Definition dot_product (a b : list R) : R :=
  sum_upto (fun i => at_ a i * at_ b i) (length a).

Definition euclidean_norm (a : list R) : R := sqrt (dot_product a a).

(** Row [v] of a row-major matrix, as a vector. *)
Definition row (m : list R) (dim v : nat) : list R :=
  map (fun d => at_ m (v * dim + d)) (seq 0 dim).

(** A vector whose norm is below 1e-10 next to one of norm 100, and a
    query and a one-row corpus whose norms are both 1e-6. *)
Definition tiny_vector : list R := [1e-11].
Definition large_vector : list R := [100].
Definition small_query : list R := [1e-6].
Definition small_corpus : list R := [1e-6].

(** The order of the output of the duplicate search: by first index, then
    by second index. *)
Definition pair_before (p q : nat * nat * R) : Prop :=
  (fst (fst p) < fst (fst q)
   \/ (fst (fst p) = fst (fst q) /\ snd (fst p) < snd (fst q)))%nat.

(** What the duplicate search appends for the pair [(i, j)], and for the
    whole inner loop of row [i]. *)
Definition duplicates_of_pair (HAS_AVX2 : bool) (embeddings norms : list R)
    (dim : nat) (threshold : R) (i j : nat) : list (nat * nat * R) :=
  if Rlt_dec (at_ norms j) 1e-10 then []
  else
    let similarity :=
      vector_ops.pair_dot HAS_AVX2 embeddings dim i j
      / (at_ norms i * at_ norms j) in
    if Rge_dec similarity threshold then [(i, j, similarity)] else [].

Definition duplicates_of_row (HAS_AVX2 : bool) (embeddings norms : list R)
    (n dim : nat) (threshold : R) (i : nat) : list (nat * nat * R) :=
  if Rlt_dec (at_ norms i) 1e-10 then []
  else
    flat_map (duplicates_of_pair HAS_AVX2 embeddings norms dim threshold i)
      (seq (i + 1) (n - (i + 1))).

End Vocabulary.
(** ** Vocabulary of the further properties *)

Section DecayVocabulary.

Import decay.

(** The record with its three counters replaced, all other members kept. *)
Definition with_counts (input : DecayInput) (accesses connections mentions : Z)
    : DecayInput :=
  mkDecayInput (importance input) (hours_passed input) accesses connections
    (last_access_hours input) (memory_type input) mentions.

(** [DBL_MAX], the largest finite [double], to 17 digits (rounded
    down). *)
Definition DBL_MAX : R := 1.7976931348623157e308.

(** The one product of two configured numbers in the rate of [calculate],
    [base_decay_rate * type_multiplier], does not overflow. *)
Definition rate_finite (input : DecayInput) (config : DecayConfig) : Prop :=
  base_decay_rate config * type_multiplier input config <= DBL_MAX.

(** Counters and rate parameters with which the rate of [calculate] is a
    finite number that is not negative: no factor is negative, no divisor
    is zero, and the product above does not overflow.  (The other
    products and the two divisors may overflow: [x / inf] is 0 and
    [min(1.0, inf)] is 1.) *)
Definition finite_rate (input : DecayInput) (config : DecayConfig) : Prop :=
  counts_nonneg input /\ rate_parameters_nonneg config
  /\ rate_finite input config.

(** What [calculate_batch_arrays] requires of its caller: each of the
    seven arrays holds at least [n] elements. *)
Definition arrays_hold (n : nat) (importance hours_passed : list R)
    (access_count connection_count : list Z) (last_access_hours : list R)
    (memory_type channel_mentions : list Z) : Prop :=
  (n <= length importance /\ n <= length hours_passed
   /\ n <= length access_count /\ n <= length connection_count
   /\ n <= length last_access_hours /\ n <= length memory_type
   /\ n <= length channel_mentions)%nat.

(** The records of the four-lane loop of [calculate_batch_arrays] on
    which its [_mm256_max_pd] and the [std::max] of [calculate] return
    the same operand: the age is not negative, the rate is finite, and
    the floor has the sign of the importance. *)
Definition lane_conditions (input : DecayInput) (config : DecayConfig) : Prop :=
  0 <= hours_passed input /\ 0 <= min_retention config
  /\ finite_rate input config.

End DecayVocabulary.

Section Binary64Vocabulary.

Local Open Scope float_scope.
#[local] Set Warnings "-inexact-float".

(** A configuration whose [channel_diversity_k] is negative, and a record
    that four channels mention: [1 + channel_diversity_k * 4] is 0. *)
Definition negative_channel_config : binary64_decay.DecayConfig :=
  binary64_decay.default_config (-0.25).

Definition negative_channel_input : binary64_decay.DecayInput :=
  binary64_decay.mkDecayInput 0.7 0 0 2 5 1 4.

(** A configuration whose parameters are all positive and whose
    [base_decay_rate * type_multipliers[0]] overflows, and the record of
    importance 1 and type 0 at the age [hours]. *)
Definition overflow_config : binary64_decay.DecayConfig :=
  binary64_decay.mkDecayConfig 1e308 0.1 0.3 0.1 0.2
    (binary64_decay.mk_array4 1e308 0.3 0.5 0.7).

Definition overflow_input (hours : float) : binary64_decay.DecayInput :=
  binary64_decay.mkDecayInput 1 hours 0 0 (-1) 0 0.

End Binary64Vocabulary.

Section StringVocabulary.

Import string_ops.

(** The cost of substituting [b[j]] for [a[i]]. *)
Definition subst_cost (a b : list ascii) (i j : nat) : nat :=
  if Ascii.eqb (char_at a i) (char_at b j) then 0%nat else 1%nat.

(** The edit distance between the first [i] characters of [a] and the
    first [j] characters of [b], by the recurrence of Wagner and Fischer. *)
Fixpoint edit_table (a b : list ascii) (i : nat) : nat -> nat :=
  match i with
  | O => fun j => j
  | S i' =>
      fix row (j : nat) : nat :=
        match j with
        | O => S i'
        | S j' =>
            Nat.min (Nat.min (edit_table a b i' (S j') + 1) (row j' + 1))
                    (edit_table a b i' j' + subst_cost a b i' j')
        end
  end.

(** [INT_MAX]. *)
Definition INT_MAX : Z := 2147483647%Z.

(** A string short enough for its length, and the length plus one, to be
    an [int]. *)
Definition fits_int (s : list ascii) : Prop := (Z.of_nat (length s) < INT_MAX)%Z.

(** The length test of [find_string_duplicates]: the pair [(i, j)] is
    skipped, before any distance is computed, when the longer string is
    not empty and [min_len / max_len] is below the threshold. *)
Definition length_pruned (strings : list (list ascii)) (threshold : R)
    (i j : nat) : Prop :=
  let a := nth i strings [] in
  let b := nth j strings [] in
  (0 < Nat.max (length a) (length b))%nat
  /\ INR (Nat.min (length a) (length b))
     / INR (Nat.max (length a) (length b)) < threshold.

(** What [find_string_duplicates] appends for the pair [(i, j)]. *)
Definition string_duplicates_of_pair (strings : list (list ascii))
    (threshold : R) (i j : nat) : list (nat * nat * R) :=
  let a := nth i strings [] in
  let b := nth j strings [] in
  let max_len := Nat.max (length a) (length b) in
  let min_len := Nat.min (length a) (length b) in
  if (0 <? max_len)%nat
     && (if Rlt_dec (INR min_len / INR max_len) threshold then true else false)
  then []
  else
    let sim := string_similarity a b in
    if Rge_dec sim threshold then [(i, j, sim)] else [].

(** Two strings at distance 3. *)
Definition kitten : list ascii := ["k"; "i"; "t"; "t"; "e"; "n"]%char.
Definition sitting : list ascii := ["s"; "i"; "t"; "t"; "i"; "n"; "g"]%char.

End StringVocabulary.

Section GraphVocabulary.

Import graph_ops.

(** [hops adjacency start_nodes k x]: the node [x] is the end of a walk of
    [k] edges of the adjacency map that begins at a start node. *)
Inductive hops (adjacency : gmap N (list N)) (start_nodes : list N)
    : nat -> N -> Prop :=
  | hops_start (x : N) :
      x ∈ start_nodes -> hops adjacency start_nodes 0 x
  | hops_step (k : nat) (x y : N) (neighbors : list N) :
      hops adjacency start_nodes k x ->
      adjacency !! x = Some neighbors ->
      y ∈ neighbors ->
      hops adjacency start_nodes (S k) y.

(** The invariant of the [while] loop of [bfs_neighbors], for a visited
    set and a queue: the start nodes are visited; a visited node lies
    [within] the depth bound; a queue entry carries the least number of
    hops to its node; a visited node is queued, [closed] (its neighbours
    are visited) or [deep] (at the depth bound or beyond); the queue is
    sorted by depth over at most two levels; and every node up to the
    level of the head of the queue is visited. *)
Section BfsInvariant.

Variable adjacency : gmap N (list N).
Variable start_nodes : list N.
Variable max_depth : Z.

Definition within (x : N) : Prop :=
  exists k : nat,
    hops adjacency start_nodes k x
    /\ (k = 0%nat \/ (Z.of_nat k <= max_depth)%Z).

Definition closed (visited : gset N) (x : N) : Prop :=
  forall neighbors y,
    adjacency !! x = Some neighbors -> y ∈ neighbors -> y ∈ visited.

Definition deep (x : N) : Prop :=
  forall k : nat, hops adjacency start_nodes k x -> (max_depth <= Z.of_nat k)%Z.

Definition entry_ok (visited : gset N) (entry : N * Z) : Prop :=
  entry.1 ∈ visited
  /\ (0 <= entry.2)%Z
  /\ hops adjacency start_nodes (Z.to_nat entry.2) entry.1
  /\ (forall k : nat,
        hops adjacency start_nodes k entry.1 -> (entry.2 <= Z.of_nat k)%Z).

Definition level_done (visited : gset N) (level : Z) : Prop :=
  forall (k : nat) (y : N),
    hops adjacency start_nodes k y -> (Z.of_nat k <= level)%Z ->
    (k = 0%nat \/ (Z.of_nat k <= max_depth)%Z) -> y ∈ visited.

Definition by_depth (p q : N * Z) : Prop := (p.2 <= q.2)%Z.

Record bfs_invariant (visited : gset N) (frontier : list (N * Z)) : Prop :=
  { inv_start : forall x, x ∈ start_nodes -> x ∈ visited;
    inv_sound : forall x, x ∈ visited -> within x;
    inv_entries : forall entry, entry ∈ frontier -> entry_ok visited entry;
    inv_settled : forall x, x ∈ visited ->
        (exists d, (x, d) ∈ frontier) \/ closed visited x \/ deep x;
    inv_sorted : StronglySorted by_depth frontier;
    inv_levels : forall p q,
        p ∈ frontier -> q ∈ frontier -> (q.2 <= p.2 + 1)%Z;
    inv_level : match frontier with
                | [] => True
                | entry :: _ => level_done visited entry.2
                end }.

End BfsInvariant.

(** The label of a node in the result. *)
Definition component_of (component_ids : list Z) (x : N) : Z :=
  at_int component_ids (N.to_nat x).

(** An edge that the function can follow: both ends are below [n_nodes]. *)
Definition linked (adjacency : gmap N (list N)) (n_nodes : nat) (u v : N)
    : Prop :=
  (N.to_nat u < n_nodes)%nat /\ (N.to_nat v < n_nodes)%nat
  /\ exists neighbors, adjacency !! u = Some neighbors /\ v ∈ neighbors.

Definition undirected (adjacency : gmap N (list N)) (n_nodes : nat) : Prop :=
  forall u v, linked adjacency n_nodes u v -> linked adjacency n_nodes v u.

(** The number of entries that are still [-1]. *)
Definition unlabelled (component_ids : list Z) : nat :=
  count_occ Z.eq_dec component_ids (-1)%Z.

(** The invariant of both loops of [find_connected_components]: [node]
    is the number of nodes that the outer loop has passed, [bound] the
    number of labels in use, [q] the queue.  The nodes below [node] are
    labelled; the labels are below [bound]; each label has a first node,
    from which the edges lead to every node of that label; a labelled
    node is queued, or its neighbours are labelled, with labels that are
    not greater; and the queued nodes carry the newest label. *)
Record components_invariant (adjacency : gmap N (list N)) (n_nodes : nat)
    (node : nat) (bound : Z) (q : list N) (ids : list Z) : Prop :=
  { ci_length : length ids = n_nodes;
    ci_bound : (0 <= bound <= Z.of_nat node)%Z;
    ci_prefix : forall x, (N.to_nat x < node)%nat ->
        component_of ids x <> (-1)%Z;
    ci_range : forall x, (N.to_nat x < n_nodes)%nat ->
        component_of ids x = (-1)%Z \/ (0 <= component_of ids x < bound)%Z;
    ci_roots : forall c, (0 <= c < bound)%Z ->
        exists r, (N.to_nat r < node)%nat /\ (N.to_nat r < n_nodes)%nat
          /\ component_of ids r = c
          /\ forall x, (N.to_nat x < n_nodes)%nat -> component_of ids x = c ->
               (r <= x)%N /\ rtc (linked adjacency n_nodes) r x;
    ci_closed : forall u v,
        linked adjacency n_nodes u v -> component_of ids u <> (-1)%Z ->
        u ∈ q
        \/ (component_of ids v <> (-1)%Z
            /\ (component_of ids v <= component_of ids u)%Z);
    ci_queue : forall x, x ∈ q ->
        (N.to_nat x < n_nodes)%nat /\ component_of ids x = (bound - 1)%Z }.

(** Nodes 0 and 1 joined, node 2 alone, node 3 a one-way neighbour of 2
    that lies beyond [n_nodes]. *)
Definition two_components : gmap N (list N) :=
  <[0%N := [1%N]]> (<[1%N := [0%N]]> (<[2%N := [3%N]]> ∅)).

End GraphVocabulary.


(** * Properties *)

(** ** Facts about the modelled library functions *)

Lemma std_max_Rmax (a b : R) : std.max a b = Rmax a b.
Proof.
  unfold std.max, Rmax.
  destruct (Rlt_dec a b), (Rle_dec a b); lra.
Qed.

Lemma std_min_Rmin (a b : R) : std.min a b = Rmin a b.
Proof.
  unfold std.min, Rmin.
  destruct (Rlt_dec b a), (Rle_dec a b); lra.
Qed.

Lemma std_max_ge_r (a b : R) : b <= std.max a b.
Proof. rewrite std_max_Rmax. apply Rmax_r. Qed.

Lemma std_max_ge_l (a b : R) : a <= std.max a b.
Proof. rewrite std_max_Rmax. apply Rmax_l. Qed.

Lemma std_max_mono (a a' b : R) : a <= a' -> std.max a b <= std.max a' b.
Proof.
  intros H. rewrite !std_max_Rmax.
  apply Rmax_lub; [ | apply Rmax_r ].
  apply Rle_trans with a'; [ exact H | apply Rmax_l ].
Qed.

Lemma std_clamp_range (v : Z) : (0 <= std.clamp v 0 3 <= 3)%Z.
Proof.
  unfold std.clamp.
  destruct (Z.ltb_spec v 0); [ lia | ].
  destruct (Z.ltb_spec 3 v); lia.
Qed.

(** ** Loops as sums *)

Section Loops.

Lemma fold_left_pointwise {A B : Type} (f g : A -> B -> A) (l : list B) (a : A) :
  (forall x y, f x y = g x y) -> fold_left f l a = fold_left g l a.
Proof.
  intros Hfg. revert a. induction l as [ | y l IH ]; intros a; simpl.
  - reflexivity.
  - rewrite Hfg. apply IH.
Qed.

Lemma for_range_empty {S : Type} (lo hi : nat) (body : nat -> S -> S) (s : S) :
  (hi <= lo)%nat -> for_range lo hi body s = s.
Proof.
  intros H. unfold for_range.
  replace (hi - lo)%nat with 0%nat by lia. reflexivity.
Qed.

Lemma for_range_last {S : Type} (lo hi : nat) (body : nat -> S -> S) (s : S) :
  (lo <= hi)%nat ->
  for_range lo (Datatypes.S hi) body s = body hi (for_range lo hi body s).
Proof.
  intros H. unfold for_range.
  replace (Datatypes.S hi - lo)%nat with (Datatypes.S (hi - lo)) by lia.
  rewrite seq_S, fold_left_app. simpl.
  replace (lo + (hi - lo))%nat with hi by lia. reflexivity.
Qed.

Lemma for_range_ext {S : Type} (lo hi : nat) (body body' : nat -> S -> S) (s : S) :
  (forall i acc, (lo <= i < hi)%nat -> body i acc = body' i acc) ->
  for_range lo hi body s = for_range lo hi body' s.
Proof.
  intros Hext.
  destruct (Nat.le_gt_cases lo hi) as [Hle | Hgt].
  - induction hi as [ | hi IH ].
    + rewrite !for_range_empty by lia. reflexivity.
    + destruct (Nat.eq_dec lo (Datatypes.S hi)) as [-> | Hne].
      * rewrite !for_range_empty by lia. reflexivity.
      * rewrite !for_range_last by lia.
        rewrite IH by (try lia; intros; apply Hext; lia).
        apply Hext. lia.
  - rewrite !for_range_empty by lia. reflexivity.
Qed.

Lemma sum_upto_ext (f g : nat -> R) (n : nat) :
  (forall i, (i < n)%nat -> f i = g i) -> sum_upto f n = sum_upto g n.
Proof.
  intros Hfg. induction n as [ | n IH ]; [ reflexivity | ].
  simpl. rewrite IH by (intros; apply Hfg; lia). rewrite Hfg by lia.
  reflexivity.
Qed.

(** An accumulating loop adds the terms of its range to the accumulator. *)
Lemma for_range_sum (f : nat -> R) (lo hi : nat) (acc : R) :
  (lo <= hi)%nat ->
  for_range lo hi (fun i acc => acc + f i) acc
  = acc + (sum_upto f hi - sum_upto f lo).
Proof.
  intros Hle. induction hi as [ | hi IH ].
  - replace lo with 0%nat by lia. rewrite for_range_empty by lia. simpl. lra.
  - destruct (Nat.eq_dec lo (S hi)) as [-> | Hne].
    + rewrite for_range_empty by lia. lra.
    + rewrite for_range_last by lia. rewrite IH by lia. simpl. lra.
Qed.

Lemma for_range_sum_from_zero (f : nat -> R) (n : nat) :
  for_range 0 n (fun i acc => acc + f i) 0.0 = sum_upto f n.
Proof. rewrite for_range_sum by lia. simpl. lra. Qed.

(** Loops over pairs and triples of independent accumulators. *)
Lemma for_range_pair {A B : Type} (lo hi : nat)
    (f : nat -> A -> A) (g : nat -> B -> B) (a : A) (b : B) :
  for_range lo hi (fun i '(x, y) => (f i x, g i y)) (a, b)
  = (for_range lo hi f a, for_range lo hi g b).
Proof.
  unfold for_range. generalize (seq lo (hi - lo)). intros l.
  revert a b. induction l as [ | i l IH ]; intros a b; [ reflexivity | ].
  simpl. apply IH.
Qed.

Lemma for_range_triple {A B C : Type} (lo hi : nat)
    (f : nat -> A -> A) (g : nat -> B -> B) (h : nat -> C -> C)
    (a : A) (b : B) (c : C) :
  for_range lo hi (fun i '(x, y, z) => (f i x, g i y, h i z)) (a, b, c)
  = (for_range lo hi f a, for_range lo hi g b, for_range lo hi h c).
Proof.
  unfold for_range. generalize (seq lo (hi - lo)). intros l.
  revert a b c. induction l as [ | i l IH ]; intros a b c; [ reflexivity | ].
  simpl. apply IH.
Qed.

Lemma for_stride_pair {A B : Type} (step n : nat)
    (f : nat -> A -> A) (g : nat -> B -> B) (a : A) (b : B) :
  for_stride step n (fun i '(x, y) => (f i x, g i y)) (a, b)
  = ((step * (n / step))%nat,
     (snd (for_stride step n f a), snd (for_stride step n g b))).
Proof.
  unfold for_stride. cbn [snd]. f_equal.
  generalize (seq 0 (n / step)). intros l.
  revert a b. induction l as [ | i l IH ]; intros a b; [ reflexivity | ].
  simpl. apply IH.
Qed.

Lemma for_stride_triple {A B C : Type} (step n : nat)
    (f : nat -> A -> A) (g : nat -> B -> B) (h : nat -> C -> C)
    (a : A) (b : B) (c : C) :
  for_stride step n (fun i '(x, y, z) => (f i x, g i y, h i z)) (a, b, c)
  = ((step * (n / step))%nat,
     (snd (for_stride step n f a), snd (for_stride step n g b),
      snd (for_stride step n h c))).
Proof.
  unfold for_stride. cbn [snd]. f_equal.
  generalize (seq 0 (n / step)). intros l.
  revert a b c. induction l as [ | i l IH ]; intros a b c; [ reflexivity | ].
  simpl. apply IH.
Qed.

(** The four-lane loop: a fused multiply-add per group of four adds the
    group's four products to the horizontal sum. *)
Lemma fmadd_chunks_hsum (u v : nat -> R) (chunks : nat) :
  forall (body : nat -> avx2.m256d -> avx2.m256d) (acc : avx2.m256d),
    (forall i s, avx2.hsum (body i s)
                 = avx2.hsum s
                   + (u i * v i + u (i + 1)%nat * v (i + 1)%nat
                      + u (i + 2)%nat * v (i + 2)%nat
                      + u (i + 3)%nat * v (i + 3)%nat)) ->
    avx2.hsum (fold_left (fun acc c => body (4 * c)%nat acc) (seq 0 chunks) acc)
    = avx2.hsum acc + sum_upto (fun i => u i * v i) (4 * chunks).
Proof.
  intros body acc Hbody. induction chunks as [ | chunks IH ].
  - simpl. lra.
  - rewrite seq_S, fold_left_app. cbn [fold_left]. rewrite Nat.add_0_l.
    rewrite Hbody, IH.
    replace (4 * S chunks)%nat with (S (S (S (S (4 * chunks))))) by lia.
    cbn [sum_upto].
    replace (S (4 * chunks)) with (4 * chunks + 1)%nat by lia.
    replace (S (4 * chunks + 1)) with (4 * chunks + 2)%nat by lia.
    replace (S (4 * chunks + 2)) with (4 * chunks + 3)%nat by lia.
    lra.
Qed.

Lemma hsum_fmadd_loadu (a b : list R) (i j : nat) (s : avx2.m256d) :
  avx2.hsum (avx2._mm256_fmadd_pd (avx2._mm256_loadu_pd a i)
               (avx2._mm256_loadu_pd b j) s)
  = avx2.hsum s
    + (at_ a i * at_ b j + at_ a (i + 1) * at_ b (j + 1)
       + at_ a (i + 2) * at_ b (j + 2) + at_ a (i + 3) * at_ b (j + 3)).
Proof.
  unfold avx2.hsum, avx2._mm256_fmadd_pd, avx2._mm256_loadu_pd, avx2.build.
  simpl. rewrite !Nat.add_0_r. lra.
Qed.

Lemma at_repeat_zero (n k : nat) : at_ (repeat 0 n) k = 0.
Proof.
  unfold at_. revert k. induction n as [ | n IH ]; intros [ | k ]; simpl; auto.
Qed.

Lemma hsum_setzero : avx2.hsum avx2._mm256_setzero_pd = 0.
Proof. unfold avx2.hsum. simpl. lra. Qed.

Lemma length_for_range_insert (f : nat -> R) (lo hi : nat) (l : list R) :
  length (for_range lo hi (fun i l => <[i := f i]> l) l) = length l.
Proof.
  unfold for_range. generalize (seq lo (hi - lo)). intros idx. revert l.
  induction idx as [ | i idx IH ]; intros l; [ reflexivity | ].
  simpl. rewrite IH. apply length_insert.
Qed.

(** A loop that stores [f i] at every index of its range. *)
Lemma for_range_insert_nth (f : nat -> R) (lo hi : nat) (l : list R) (k : nat) :
  (hi <= length l)%nat ->
  at_ (for_range lo hi (fun i l => <[i := f i]> l) l) k
  = if (lo <=? k)%nat && (k <? hi)%nat then f k else at_ l k.
Proof.
  intros Hlen. induction hi as [ | hi IH ].
  - rewrite for_range_empty by lia.
    rewrite andb_false_r. reflexivity.
  - destruct (Nat.le_gt_cases lo hi) as [Hle | Hgt].
    + rewrite for_range_last by exact Hle. unfold at_ in *.
      destruct (Nat.eq_dec k hi) as [-> | Hne].
      * rewrite nth_lookup, list_lookup_insert_eq
          by (rewrite length_for_range_insert; lia).
        simpl.
        destruct (Nat.leb_spec lo hi); [ | lia ].
        destruct (Nat.ltb_spec hi (S hi)); [ reflexivity | lia ].
      * rewrite nth_lookup, list_lookup_insert_ne by congruence.
        rewrite <- nth_lookup. rewrite IH by lia.
        destruct (Nat.leb_spec lo k); simpl; [ | reflexivity ].
        destruct (Nat.ltb_spec k hi), (Nat.ltb_spec k (S hi));
          try reflexivity; lia.
    + rewrite for_range_empty by lia.
      destruct (Nat.leb_spec lo k); simpl; [ | reflexivity ].
      destruct (Nat.ltb_spec k (S hi)); [ lia | reflexivity ].
Qed.

Lemma length_repeat_zero (n : nat) : length (repeat 0 n) = n.
Proof. apply repeat_length. Qed.

(** The four-lane loop followed by the remainder loop computes the same
    sum as the plain loop. *)
Lemma stride_then_range (a b : list R) (oa ob n : nat) :
  for_range (4 * (n / 4)) n
    (fun d dot => dot + at_ a (oa + d) * at_ b (ob + d))
    (avx2.hsum
       (snd (for_stride 4 n
               (fun d sum =>
                  avx2._mm256_fmadd_pd (avx2._mm256_loadu_pd a (oa + d))
                    (avx2._mm256_loadu_pd b (ob + d)) sum)
               avx2._mm256_setzero_pd)))
  = sum_upto (fun d => at_ a (oa + d) * at_ b (ob + d)) n.
Proof.
  unfold for_stride. cbn [snd].
  assert (4 * (n / 4) <= n)%nat as Hle by (apply Nat.Div0.mul_div_le).
  rewrite for_range_sum by exact Hle.
  rewrite (fmadd_chunks_hsum (fun d => at_ a (oa + d)) (fun d => at_ b (ob + d))
             (n / 4)
             (fun d sum =>
                avx2._mm256_fmadd_pd (avx2._mm256_loadu_pd a (oa + d))
                  (avx2._mm256_loadu_pd b (ob + d)) sum)).
  - rewrite hsum_setzero. lra.
  - intros i s. rewrite hsum_fmadd_loadu. rewrite !Nat.add_assoc. reflexivity.
Qed.

(** A loop keeps an invariant that each of its iterations keeps. *)
Lemma for_range_invariant {S : Type} (P : nat -> S -> Prop) (lo hi : nat)
    (body : nat -> S -> S) (s : S) :
  (lo <= hi)%nat -> P lo s ->
  (forall i s, (lo <= i < hi)%nat -> P i s -> P (Datatypes.S i) (body i s)) ->
  P hi (for_range lo hi body s).
Proof.
  intros Hle Hinit Hstep. induction hi as [ | hi IH ].
  - assert (lo = 0%nat) as -> by lia. rewrite for_range_empty by lia. exact Hinit.
  - destruct (Nat.eq_dec lo (Datatypes.S hi)) as [-> | Hne].
    + rewrite for_range_empty by lia. exact Hinit.
    + rewrite for_range_last by lia. apply Hstep; [ lia | ].
      apply IH; [ lia | ]. intros i s' Hi. apply Hstep. lia.
Qed.

End Loops.


(** ** decay.cpp: the scalar path *)

Section DecayScalar.

Import decay.

#[local] Set Warnings "-inexact-float".

Lemma fast_exp_neg_exp (x : R) : fast_exp_neg x = exp (- x).
Proof. unfold fast_exp_neg. destruct (Rlt_dec x 0.01); reflexivity. Qed.

Lemma fast_log1p_nonneg (x : R) : 0 <= x -> 0 <= fast_log1p x.
Proof.
  intros Hx. unfold fast_log1p.
  destruct (Rlt_dec x 0.1) as [Hs | Hl].
  - cbv zeta. nra.
  - unfold std.log1p. rewrite <- ln_1.
    destruct (Req_dec x 0) as [-> | Hne].
    + rewrite Rplus_0_r. lra.
    + left. apply ln_increasing; lra.
Qed.

Lemma stability_ge_1 input config :
  (0 <= access_count input)%Z -> 0 <= access_stability_k config ->
  1 <= stability input config.
Proof.
  intros Hac Hk. unfold stability.
  assert (0 <= fast_log1p (IZR (access_count input))) as Hl.
  { apply fast_log1p_nonneg. apply IZR_le in Hac. exact Hac. }
  nra.
Qed.

Lemma resistance_le_1 input config : resistance input config <= 1.
Proof.
  unfold resistance. rewrite std_min_Rmin.
  apply Rle_trans with 1.0; [ apply Rmin_l | lra ].
Qed.


Lemma type_multiplier_nonneg input config :
  rate_parameters_nonneg config -> 0 <= type_multiplier input config.
Proof.
  intros (_ & _ & _ & _ & H0 & H1 & H2 & H3).
  unfold type_multiplier. cbv zeta.
  pose proof (std_clamp_range (memory_type input)) as Hr.
  destruct (std.clamp (memory_type input) 0 3) as [ | p | p ]; simpl; try lia; try assumption.
  destruct p as [ [ | | ] | [ | | ] | ]; simpl; try assumption; lia.
Qed.

Lemma channel_boost_pos input config :
  (0 <= channel_mentions input)%Z -> 0 <= channel_diversity_k config ->
  0 < channel_boost input config.
Proof.
  intros Hcm Hk. unfold channel_boost. apply IZR_le in Hcm.
  apply Rdiv_lt_0_compat; [ lra | nra ].
Qed.

Lemma effective_rate_nonneg input config :
  counts_nonneg input -> rate_parameters_nonneg config ->
  0 <= effective_rate input config.
Proof.
  intros (Hac & Hcc & Hcm) Hcfg.
  pose proof (type_multiplier_nonneg input config Hcfg) as Htm.
  destruct Hcfg as (Hb & Hak & Hrk & Hck & _).
  pose proof (stability_ge_1 input config Hac Hak) as Hst.
  pose proof (channel_boost_pos input config Hcm Hck) as Hcb.
  pose proof (resistance_le_1 input config) as Hre.
  unfold effective_rate.
  apply Rmult_le_pos; [ | lra ].
  apply Rmult_le_pos.
  - apply Rmult_le_pos; [ apply Rmult_le_pos; assumption | lra ].
  - left. apply Rinv_0_lt_compat. lra.
Qed.

Lemma calculate_unfold input config :
  0 <= hours_passed input ->
  calculate input config =
  std.max (decayed_before_floor input config)
          (importance input * min_retention config).
Proof.
  intros Hh. unfold calculate.
  destruct (Rlt_dec (hours_passed input) 0); [ lra | reflexivity ].
Qed.

Lemma recency_test_true_iff (lah hours : R) :
  recency_test lah hours = true <-> lah >= 0 /\ hours > 168 /\ lah < 24.
Proof.
  unfold recency_test.
  destruct (Rge_dec lah 0), (Rgt_dec hours 168.0), (Rlt_dec lah 24.0);
    split; intros H; try discriminate; try reflexivity; lra.
Qed.

Lemma calculate_guard input config :
  hours_passed input < 0 -> calculate input config = importance input.
Proof.
  intros Hneg. unfold calculate.
  destruct (Rlt_dec (hours_passed input) 0) as [ _ | Hge ].
  - reflexivity.
  - contradiction.
Qed.

Lemma calculate_unfold_unguarded input config :
  0 <= hours_passed input ->
  calculate input config = calculate_unguarded input config.
Proof. apply calculate_unfold. Qed.

(** C5.  A record whose age is negative keeps its importance: the result
    is [importance], whatever the other members and the configuration
    are. *)
Theorem calculate_negative_hours input config :
  hours_passed input < 0 ->
  calculate input config = importance input.
Proof.
  intros Hneg. unfold calculate.
  destruct (Rlt_dec (hours_passed input) 0) as [ _ | Hge ].
  - reflexivity.
  - exfalso. apply Hge. exact Hneg.
Qed.

Lemma calculate_negative_hours_witness :
  hours_passed (mkDecayInput 0.8 (-5) 3 2 1 7 4) < 0 /\
  calculate (mkDecayInput 0.8 (-5) 3 2 1 7 4) (default_config 0.2) = 0.8.
Proof.
  split.
  - simpl. lra.
  - apply (calculate_negative_hours (mkDecayInput 0.8 (-5) 3 2 1 7 4)).
    simpl. lra.
Defined.

(** C6 as stated fails in double precision.  The configuration is
    arbitrary: with [channel_diversity_k = -0.25] and four channel
    mentions the channel boost is [1.0 / 0.0], infinite, the rate is
    infinite, its product with the age 0 is NaN, and [std::max(NaN,
    floor)] returns the NaN, which is not at least the floor
    [0.7 * 0.1].  The same happens with positive parameters when
    [base_decay_rate * type_multiplier] overflows. *)
Lemma calculate_retention_floor_nan :
  (binary64_decay.calculate negative_channel_input negative_channel_config
     = Some nan
   /\ (0.7 * 0.1 <=? nan)%float = false)
  /\ (binary64_decay.calculate (overflow_input 0) overflow_config = Some nan
      /\ (1 * 0.1 <=? nan)%float = false).
Proof. repeat split; vm_compute; reflexivity. Qed.

(** C6, amended.  Retention floor: with a non-negative importance, a
    retention fraction in [0,1], non-negative counters and rate
    parameters and a product [base_decay_rate * type_multiplier] that
    does not overflow, the score is at least
    [importance * min_retention]. *)
Theorem calculate_retention_floor input config :
  importance input >= 0 ->
  0 <= min_retention config <= 1 ->
  counts_nonneg input ->
  rate_parameters_nonneg config ->
  rate_finite input config ->
  calculate input config >= importance input * min_retention config.
Proof.
  intros Himp [Hlo Hhi] _ _ _. unfold calculate.
  destruct (Rlt_dec (hours_passed input) 0) as [ Hneg | Hpos ].
  - nra.
  - apply Rle_ge, std_max_ge_r.
Qed.

Lemma calculate_retention_floor_witness :
  calculate (mkDecayInput 1 1000 0 0 (-1) 0 0) (default_config 0.2)
  >= 1 * 0.1.
Proof.
  apply (calculate_retention_floor (mkDecayInput 1 1000 0 0 (-1) 0 0)
           (default_config 0.2));
    unfold counts_nonneg, rate_parameters_nonneg, rate_finite,
      type_multiplier, DBL_MAX;
    simpl; repeat split; try lra; try lia.
Defined.

(** C7 as stated fails in double precision.  All parameters of
    [overflow_config] are positive, and [base_decay_rate *
    type_multipliers[0]] is [1e308 * 1e308], infinite: at the age 1 the
    decay factor is [exp(-inf) = 0] and the score is the floor 0.1; at
    the age 0 the exponent [inf * 0] is NaN and so is the score.  The
    older record's 0.1 is not at most NaN. *)
Lemma calculate_monotone_in_hours_nan :
  binary64_decay.calculate (overflow_input 1) overflow_config = Some 0.1%float
  /\ binary64_decay.calculate (overflow_input 0) overflow_config = Some nan
  /\ (0.1 <=? nan)%float = false.
Proof. repeat split; vm_compute; reflexivity. Qed.

(** C7, amended.  Monotonicity in age up to one week: for a record with
    non-negative importance and counters and a configuration whose
    parameters are all non-negative and whose product
    [base_decay_rate * type_multiplier] does not overflow, an age [h2]
    between [h1] and 168 hours scores no higher than the age
    [h1 >= 0]. *)
Theorem calculate_monotone_in_hours input config (h1 h2 : R) :
  importance input >= 0 ->
  counts_nonneg input ->
  rate_parameters_nonneg config ->
  rate_finite input config ->
  0 <= min_retention config ->
  0 <= h1 -> h1 <= h2 -> h2 <= 168 ->
  calculate (with_hours input h2) config
  <= calculate (with_hours input h1) config.
Proof.
  intros Himp Hcnt Hcfg _ _ H1 H12 H2.
  pose proof (effective_rate_nonneg input config Hcnt Hcfg) as Hrate.
  rewrite !calculate_unfold by (simpl; lra).
  apply std_max_mono.
  unfold decayed_before_floor, recency_paradox, recency_test. simpl.
  destruct (Rge_dec (last_access_hours input) 0);
    destruct (Rgt_dec h2 168.0); try lra;
    destruct (Rgt_dec h1 168.0); try lra.
  all: unfold exponential_decay; rewrite !fast_exp_neg_exp; simpl.
  all: change (effective_rate (with_hours input h2) config)
         with (effective_rate input config);
       change (effective_rate (with_hours input h1) config)
         with (effective_rate input config).
  all: apply Rmult_le_compat_l; [ lra | ].
  all: destruct (Req_dec (effective_rate input config * h1)
                         (effective_rate input config * h2)) as [ -> | Hne ];
       [ lra | left; apply exp_increasing; nra ].
Qed.

Lemma calculate_monotone_in_hours_witness :
  calculate (with_hours (mkDecayInput 1 0 2 1 3 1 1) 100) (default_config 0.2)
  <= calculate (with_hours (mkDecayInput 1 0 2 1 3 1 1) 10) (default_config 0.2).
Proof.
  apply (calculate_monotone_in_hours (mkDecayInput 1 0 2 1 3 1 1)
           (default_config 0.2) 10 100);
    unfold counts_nonneg, rate_parameters_nonneg, rate_finite,
      type_multiplier, DBL_MAX;
    simpl; repeat split; try lra; try lia.
Defined.

(** The boundaries of the recency test are strict at 168 and 24 hours and
    inclusive at 0. *)
Example recency_test_boundaries :
  recency_test 0 169 = true /\ recency_test 23.5 168.5 = true
  /\ recency_test 0 168 = false /\ recency_test 24 169 = false
  /\ recency_test (-1) 169 = false.
Proof.
  unfold recency_test.
  repeat match goal with
         | |- context [Rge_dec ?x ?y] => destruct (Rge_dec x y); try lra
         | |- context [Rgt_dec ?x ?y] => destruct (Rgt_dec x y); try lra
         | |- context [Rlt_dec ?x ?y] => destruct (Rlt_dec x y); try lra
         end.
  all: repeat split.
Qed.

(** C8.  The recency-paradox boost and its boundary: for an age
    [hours_passed >= 0] the score is the floor applied to the value
    [decayed_before_floor]; that value is
    [importance * exp (- effective_rate * hours_passed) * 1.3] when
    [last_access_hours >= 0], [hours_passed > 168] and
    [last_access_hours < 24] all hold, and the same product without the
    factor 1.3 in every other case. *)
Theorem recency_boost_boundary input config :
  0 <= hours_passed input ->
  calculate input config =
    std.max (decayed_before_floor input config)
            (importance input * min_retention config)
  /\ (last_access_hours input >= 0 /\ hours_passed input > 168
      /\ last_access_hours input < 24 ->
      decayed_before_floor input config =
      importance input
        * exp (- (effective_rate input config * hours_passed input)) * 1.3)
  /\ (~ (last_access_hours input >= 0 /\ hours_passed input > 168
         /\ last_access_hours input < 24) ->
      decayed_before_floor input config =
      importance input
        * exp (- (effective_rate input config * hours_passed input))).
Proof.
  intros Hh. split; [ apply calculate_unfold; exact Hh | ].
  unfold decayed_before_floor, recency_paradox, exponential_decay.
  cbv zeta. rewrite fast_exp_neg_exp.
  pose proof (recency_test_true_iff (last_access_hours input)
                (hours_passed input)) as Hiff.
  destruct (recency_test (last_access_hours input) (hours_passed input)).
  - split; [ reflexivity | ].
    intros Hn. exfalso. apply Hn. apply Hiff. reflexivity.
  - split; [ | reflexivity ].
    intros Hc. apply Hiff in Hc. discriminate.
Qed.

Lemma recency_boost_boundary_witness :
  decayed_before_floor (mkDecayInput 1 200 0 0 5 0 0) (default_config 0.2)
  = 1 * exp (- (effective_rate (mkDecayInput 1 200 0 0 5 0 0)
                  (default_config 0.2) * 200)) * 1.3.
Proof.
  assert (0 <= hours_passed (mkDecayInput 1 200 0 0 5 0 0)) as H
    by (simpl; lra).
  destruct (recency_boost_boundary (mkDecayInput 1 200 0 0 5 0 0)
              (default_config 0.2) H) as (_ & Hboost & _).
  apply Hboost. simpl. lra.
Defined.




End DecayScalar.

(** ** decay.cpp: the batch paths *)

Section DecayBatch.

Import decay.

Lemma fast_log1p_zero : fast_log1p 0 = 0.
Proof.
  unfold fast_log1p. destruct (Rlt_dec 0 0.1) as [ _ | H ]; [ | lra ].
  cbv zeta. lra.
Qed.

Lemma std_min_one_zero : std.min 1.0 0 = 0.
Proof. unfold std.min. destruct (Rlt_dec 0 1.0); lra. Qed.

(** The rate of a record of type 0 that was never accessed and has no
    connections, under the default configuration. *)
Lemma effective_rate_plain (imp hours lah k : R) (mentions : Z) :
  effective_rate (mkDecayInput imp hours 0 0 lah 0 mentions) (default_config k)
  = 0.002 / (1 + k * IZR mentions).
Proof.
  unfold effective_rate, stability, resistance, type_multiplier, channel_boost.
  cbn [access_count connection_count memory_type channel_mentions
       base_decay_rate access_stability_k relation_resistance_k
       channel_diversity_k type_multipliers default_config].
  rewrite fast_log1p_zero.
  replace (0 * 0.1) with 0 by lra. rewrite std_min_one_zero.
  change (index4 (mk_array4 1.0 0.3 0.5 0.7) (std.clamp 0 0 3)) with 1.0.
  unfold Rdiv. replace (1.0 + 0.3 * 0) with 1 by lra. rewrite Rinv_1. 
  replace (1.0 + k * IZR mentions) with (1 + k * IZR mentions) by lra.
  generalize (/ (1 + k * IZR mentions)). intros inv. lra.
Qed.

Lemma calculate_unguarded_plain (imp hours k : R) (mentions : Z) :
  calculate_unguarded (mkDecayInput imp hours 0 0 (-1) 0 mentions)
    (default_config k)
  = std.max (imp * exp (- (0.002 / (1 + k * IZR mentions) * hours)))
            (imp * 0.1).
Proof.
  unfold calculate_unguarded, decayed_before_floor, recency_paradox,
    recency_test, exponential_decay.
  rewrite fast_exp_neg_exp, effective_rate_plain.
  cbn [last_access_hours hours_passed importance min_retention default_config].
  destruct (Rge_dec (-1) 0) as [ H | _ ]; [ lra | reflexivity ].
Qed.

Lemma exp_minus_half_bounds : 1 / 3 <= exp (- (1 / 2)) <= 2 / 3.
Proof.
  pose proof exp_le_3 as H3.
  pose proof (exp_pos (1 / 2)) as Hpos.
  assert (1 + 1 / 2 < exp (1 / 2)) as Hlow by (apply exp_ineq1; lra).
  assert (exp (1 / 2) < exp 1) as Hup by (apply exp_increasing; lra).
  rewrite exp_Ropp. split.
  - apply Rmult_le_reg_r with (exp (1 / 2)); [ exact Hpos | ].
    rewrite Rinv_l by lra. lra.
  - apply Rmult_le_reg_r with (exp (1 / 2)); [ exact Hpos | ].
    rewrite Rinv_l by lra. lra.
Qed.

Lemma exp_minus_one_square : exp (- 1) = exp (- (1 / 2)) * exp (- (1 / 2)).
Proof. rewrite <- exp_plus. f_equal. lra. Qed.

Lemma max_pd_lane (a b : R) :
  (if Rgt_dec a b then a else b) = std.max a b.
Proof.
  unfold std.max. destruct (Rgt_dec a b), (Rlt_dec a b); lra.
Qed.

Lemma lane_build (f : nat -> R) (k : nat) :
  (k < 4)%nat -> avx2.lane (avx2.build f) k = f k.
Proof.
  intros Hk. destruct k as [ | [ | [ | [ | k ] ] ] ]; try reflexivity. lia.
Qed.

Lemma m256d_eta (v : avx2.m256d) : v = avx2.build (avx2.lane v).
Proof. destruct v. reflexivity. Qed.

(** One group of four: lane [k] of the stored register is
    [calculate_unguarded] of record [i + k]. *)
Lemma avx2_chunk_value_lane (importance hours_passed : list R)
    (access_count connection_count : list Z) (last_access_hours : list R)
    (memory_type channel_mentions : list Z) (config : DecayConfig)
    (i k : nat) :
  (k < 4)%nat ->
  avx2.lane
    (avx2_chunk_value importance hours_passed access_count connection_count
       last_access_hours memory_type channel_mentions config i) k
  = calculate_unguarded
      (record_at importance hours_passed access_count connection_count
         last_access_hours memory_type channel_mentions (i + k))
      config.
Proof.
  intros Hk. unfold avx2_chunk_value. cbv zeta.
  unfold avx2._mm256_max_pd, avx2._mm256_mul_pd, avx2._mm256_div_pd,
    avx2._mm256_sub_pd, avx2._mm256_min_pd, avx2._mm256_loadu_pd,
    avx2._mm256_cvtepi32_pd, avx2._mm256_set1_pd, avx2.map2.
  repeat (rewrite (lane_build _ k Hk); cbv beta).
  rewrite max_pd_lane.
  reflexivity.
Qed.

Lemma avx2_chunk_stores (importance hours_passed : list R)
    (access_count connection_count : list Z) (last_access_hours : list R)
    (memory_type channel_mentions : list Z) (config : DecayConfig)
    (i : nat) (output : list R) :
  avx2_chunk importance hours_passed access_count connection_count
    last_access_hours memory_type channel_mentions config i output
  = avx2._mm256_storeu_pd output i
      (avx2.build (fun k =>
         calculate_unguarded
           (record_at importance hours_passed access_count connection_count
              last_access_hours memory_type channel_mentions (i + k))
           config)).
Proof.
  unfold avx2_chunk.
  rewrite (m256d_eta (avx2_chunk_value _ _ _ _ _ _ _ _ _)).
  unfold avx2.build at 1 2.
  rewrite !avx2_chunk_value_lane by lia.
  reflexivity.
Qed.

Lemma length_storeu (out : list R) (i : nat) (v : avx2.m256d) :
  length (avx2._mm256_storeu_pd out i v) = length out.
Proof. unfold avx2._mm256_storeu_pd. rewrite !length_insert. reflexivity. Qed.

Lemma at_insert (out : list R) (i k : nat) (x : R) :
  (i < length out)%nat ->
  at_ (<[i := x]> out) k = if Nat.eq_dec k i then x else at_ out k.
Proof.
  intros Hi. unfold at_. rewrite !nth_lookup.
  destruct (Nat.eq_dec k i) as [-> | Hne].
  - rewrite list_lookup_insert_eq by exact Hi. reflexivity.
  - rewrite list_lookup_insert_ne by congruence. reflexivity.
Qed.

Lemma at_storeu (out : list R) (i k : nat) (f : nat -> R) :
  (i + 4 <= length out)%nat ->
  at_ (avx2._mm256_storeu_pd out i (avx2.build f)) k
  = if (i <=? k)%nat && (k <? i + 4)%nat then f (k - i)%nat else at_ out k.
Proof.
  intros Hlen. unfold avx2._mm256_storeu_pd.
  rewrite !at_insert by (rewrite ?length_insert; lia).
  unfold avx2.build. cbn [avx2.lane avx2.lane0 avx2.lane1 avx2.lane2 avx2.lane3].
  destruct (Nat.leb_spec i k), (Nat.ltb_spec k (i + 4));
    repeat match goal with
           | |- context [Nat.eq_dec ?a ?b] => destruct (Nat.eq_dec a b)
           end;
    cbn [andb]; try lia; try reflexivity.
  - replace (k - i)%nat with 3%nat by lia. reflexivity.
  - replace (k - i)%nat with 2%nat by lia. reflexivity.
  - replace (k - i)%nat with 1%nat by lia. reflexivity.
  - replace (k - i)%nat with 0%nat by lia. reflexivity.
Qed.

(** The groups of four, one after the other, fill the front of the
    buffer. *)
Lemma stride_chunks_at (g : nat -> R) (m : nat) (output : list R) :
  (4 * m <= length output)%nat ->
  let filled :=
    fold_left
      (fun out c =>
         avx2._mm256_storeu_pd out (4 * c)
           (avx2.build (fun k => g (4 * c + k)%nat)))
      (seq 0 m) output in
  length filled = length output
  /\ forall k, at_ filled k = if (k <? 4 * m)%nat then g k else at_ output k.
Proof.
  induction m as [ | m IH ]; intros Hlen filled.
  - split; [ reflexivity | ]. intros k. reflexivity.
  - subst filled. rewrite seq_S, fold_left_app. cbn [fold_left].
    rewrite Nat.add_0_l.
    destruct IH as [IHlen IHat]; [ lia | ].
    split.
    + rewrite length_storeu. exact IHlen.
    + intros k. rewrite at_storeu by (rewrite IHlen; lia).
      rewrite IHat.
      destruct (Nat.leb_spec (4 * m) k), (Nat.ltb_spec k (4 * m + 4)),
        (Nat.ltb_spec k (4 * m)), (Nat.ltb_spec k (4 * S m));
        cbn [andb]; try lia; try reflexivity.
      replace (4 * m + (k - 4 * m))%nat with k by lia. reflexivity.
Qed.

(** The AVX2 build, element by element: a record in a whole group of four
    is scored without the test for a negative age, a record of the
    remainder by [calculate]. *)
Lemma calculate_batch_arrays_avx2_at (n : nat)
    (importance hours_passed : list R)
    (access_count connection_count : list Z) (last_access_hours : list R)
    (memory_type channel_mentions : list Z) (config : DecayConfig)
    (output : list R) (k : nat) :
  (n <= length output)%nat -> (k < n)%nat ->
  at_ (calculate_batch_arrays_avx2 n importance hours_passed access_count
         connection_count last_access_hours memory_type channel_mentions
         config output) k
  = if (k <? 4 * (n / 4))%nat
    then calculate_unguarded
           (record_at importance hours_passed access_count connection_count
              last_access_hours memory_type channel_mentions k) config
    else calculate
           (record_at importance hours_passed access_count connection_count
              last_access_hours memory_type channel_mentions k) config.
Proof.
  intros Hlen Hk.
  assert (4 * (n / 4) <= n)%nat as Hq by (apply Nat.Div0.mul_div_le).
  unfold calculate_batch_arrays_avx2, for_stride.
  set (g := fun k =>
    calculate_unguarded
      (record_at importance hours_passed access_count connection_count
         last_access_hours memory_type channel_mentions k) config).
  set (f := fun k =>
    calculate
      (record_at importance hours_passed access_count connection_count
         last_access_hours memory_type channel_mentions k) config).
  rewrite (fold_left_pointwise _
             (fun out c =>
                avx2._mm256_storeu_pd out (4 * c)
                  (avx2.build (fun k => g (4 * c + k)%nat))))
    by (intros; apply avx2_chunk_stores).
  destruct (stride_chunks_at g (n / 4) output) as [Hfl Hfa]; [ lia | ].
  change (at_ (for_range (4 * (n / 4)) n (fun i out => <[i := f i]> out)
                 (fold_left
                    (fun out c =>
                       avx2._mm256_storeu_pd out (4 * c)
                         (avx2.build (fun k => g (4 * c + k)%nat)))
                    (seq 0 (n / 4)) output)) k
          = if (k <? 4 * (n / 4))%nat then g k else f k).
  rewrite for_range_insert_nth by (rewrite Hfl; exact Hlen).
  rewrite Hfa.
  destruct (Nat.leb_spec (4 * (n / 4)) k), (Nat.ltb_spec k n),
    (Nat.ltb_spec k (4 * (n / 4))); cbn [andb]; try lia; reflexivity.
Qed.

(** The scalar build, element by element: [calculate] of the record
    without its [channel_mentions]. *)
Lemma calculate_batch_arrays_fallback_at (n : nat)
    (importance hours_passed : list R)
    (access_count connection_count : list Z) (last_access_hours : list R)
    (memory_type channel_mentions : list Z) (config : DecayConfig)
    (output : list R) (k : nat) :
  (n <= length output)%nat -> (k < n)%nat ->
  at_ (calculate_batch_arrays_fallback n importance hours_passed access_count
         connection_count last_access_hours memory_type channel_mentions
         config output) k
  = calculate
      (record_at_fallback importance hours_passed access_count
         connection_count last_access_hours memory_type k) config.
Proof.
  intros Hlen Hk. unfold calculate_batch_arrays_fallback.
  rewrite (for_range_insert_nth
             (fun i => calculate
                (record_at_fallback importance hours_passed access_count
                   connection_count last_access_hours memory_type i) config))
    by exact Hlen.
  destruct (Nat.ltb_spec k n); [ reflexivity | lia ].
Qed.

Lemma chunked_fill (f : nat -> R) (n m : nat) :
  let filled :=
    fold_left
      (fun results c =>
         for_range (64 * c) (Nat.min (64 * c + 64) n)
           (fun j results => <[j := f j]> results) results)
      (seq 0 m) (repeat 0 n) in
  length filled = n
  /\ forall k, at_ filled k = if (k <? Nat.min (64 * m) n)%nat then f k else 0.
Proof.
  induction m as [ | m [IHlen IHat] ]; intros filled.
  - split; [ apply repeat_length | ]. intros k. apply at_repeat_zero.
  - subst filled. rewrite seq_S, fold_left_app. cbn [fold_left].
    rewrite Nat.add_0_l. split.
    + rewrite length_for_range_insert. exact IHlen.
    + intros k. rewrite for_range_insert_nth by (rewrite IHlen; lia).
      rewrite IHat.
      destruct (Nat.leb_spec (64 * m) k),
        (Nat.ltb_spec k (Nat.min (64 * m + 64) n)),
        (Nat.ltb_spec k (Nat.min (64 * m) n)),
        (Nat.ltb_spec k (Nat.min (64 * S m) n)); cbn [andb];
        try lia; reflexivity.
Qed.

(** [calculate_batch] returns [calculate] of every input, in order: the
    chunks of 64 have no effect on the result. *)
Theorem calculate_batch_map (inputs : list DecayInput) (config : DecayConfig) :
  calculate_batch inputs config = map (fun input => calculate input config) inputs.
Proof.
  unfold calculate_batch. cbv zeta.
  destruct (chunked_fill (fun j => calculate (nth j inputs no_input) config)
              (length inputs) ((length inputs + 64 - 1) / 64)) as [Hlen Hat].
  apply (nth_ext _ _ 0 0).
  - rewrite Hlen, length_map. reflexivity.
  - intros k Hk. rewrite Hlen in Hk.
    change (at_ (fold_left
                   (fun results c =>
                      for_range (64 * c) (Nat.min (64 * c + 64) (length inputs))
                        (fun j results =>
                           <[j := calculate (nth j inputs no_input) config]> results)
                        results)
                   (seq 0 ((length inputs + 64 - 1) / 64))
                   (repeat 0 (length inputs))) k
            = nth k (map (fun input => calculate input config) inputs) 0).
    rewrite Hat.
    assert (length inputs <= 64 * ((length inputs + 64 - 1) / 64))%nat as Hcover.
    { pose proof (Nat.div_mod_eq (length inputs + 64 - 1) 64) as Hdm.
      pose proof (Nat.mod_upper_bound (length inputs + 64 - 1) 64) as Hmod.
      lia. }
    destruct (Nat.ltb_spec k
                (Nat.min (64 * ((length inputs + 64 - 1) / 64)) (length inputs)));
      [ | lia ].
    rewrite (nth_indep _ 0 (calculate no_input config))
      by (rewrite length_map; exact Hk).
    rewrite (map_nth (fun input => calculate input config)). reflexivity.
Qed.

(** Where [calculate_batch_arrays] does reproduce [calculate], given
    arrays of [n] elements: built without AVX2, on every record that no
    channel mentions; built with AVX2, on the records of the remainder
    loop, which calls [calculate], and on those of the four-lane loop
    that meet [lane_conditions] (there the loop lacks the test for a
    negative age, and its [_mm256_max_pd] returns the floor where
    [std::max] returns a NaN). *)
Theorem calculate_batch_arrays_agrees (HAS_AVX2 : bool) (n : nat)
    (importance hours_passed : list R)
    (access_count connection_count : list Z) (last_access_hours : list R)
    (memory_type channel_mentions : list Z) (config : DecayConfig)
    (output : list R) (k : nat) :
  (n <= length output)%nat -> (k < n)%nat ->
  arrays_hold n importance hours_passed access_count connection_count
    last_access_hours memory_type channel_mentions ->
  (if HAS_AVX2
   then (k < 4 * (n / 4))%nat ->
        lane_conditions
          (record_at importance hours_passed access_count connection_count
             last_access_hours memory_type channel_mentions k) config
   else at_int channel_mentions k = 0%Z) ->
  at_ (calculate_batch_arrays HAS_AVX2 n importance hours_passed access_count
         connection_count last_access_hours memory_type channel_mentions
         config output) k
  = calculate
      (record_at importance hours_passed access_count connection_count
         last_access_hours memory_type channel_mentions k) config.
Proof.
  intros Hlen Hk _ Hok. unfold calculate_batch_arrays. destruct HAS_AVX2.
  - rewrite calculate_batch_arrays_avx2_at by assumption.
    destruct (Nat.ltb_spec k (4 * (n / 4))); [ | reflexivity ].
    symmetry. apply calculate_unfold_unguarded.
    destruct (Hok ltac:(assumption)) as (Hh & _). exact Hh.
  - rewrite calculate_batch_arrays_fallback_at by assumption.
    unfold record_at_fallback, record_at. rewrite Hok. reflexivity.
Qed.

Lemma calculate_batch_arrays_agrees_witness :
  at_ (calculate_batch_arrays true 4 [1; 1; 1; 1] [5; 10; 200; 300]
         [0%Z; 1%Z; 2%Z; 3%Z] [0%Z; 0%Z; 1%Z; 1%Z] [-1; 2; 3; 30]
         [0%Z; 1%Z; 2%Z; 3%Z] [0%Z; 1%Z; 0%Z; 2%Z] (default_config 0.2)
         (repeat 0 4)) 2
  = calculate
      (record_at [1; 1; 1; 1] [5; 10; 200; 300]
         [0%Z; 1%Z; 2%Z; 3%Z] [0%Z; 0%Z; 1%Z; 1%Z] [-1; 2; 3; 30]
         [0%Z; 1%Z; 2%Z; 3%Z] [0%Z; 1%Z; 0%Z; 2%Z] 2) (default_config 0.2).
Proof.
  apply (calculate_batch_arrays_agrees true 4).
  - simpl. lia.
  - lia.
  - unfold arrays_hold. simpl. lia.
  - intros _.
    unfold lane_conditions, finite_rate, counts_nonneg,
      rate_parameters_nonneg, rate_finite, type_multiplier, DBL_MAX,
      record_at, at_, at_int.
    simpl. repeat split; try lra; try lia.
Defined.

(** C1.  The array entry point does not reproduce [calculate].  Built
    without AVX2 it scores the record with [channel_mentions] taken as 0:
    the record of [mentioned_batch] gets [exp (-1)] where [calculate]
    gives [exp (-1/2)].  Built with AVX2 it scores the records of a whole
    group of four without the test for a negative age: a record of
    [future_batch] gets [exp 0.048] where [calculate] gives its
    importance, 1.  Neither pair agrees to within a relative 1e-9. *)
Theorem calculate_batch_arrays_diverges :
  (at_ (batch_arrays_output false mentioned_batch (default_config 0.2)) 0
     = exp (- 1)
   /\ calculate (batch_record mentioned_batch 0) (default_config 0.2)
     = exp (- (1 / 2))
   /\ ~ within_relative 1e-9
        (at_ (batch_arrays_output false mentioned_batch (default_config 0.2)) 0)
        (calculate (batch_record mentioned_batch 0) (default_config 0.2)))
  /\
  (at_ (batch_arrays_output true future_batch (default_config 0.2)) 0
     = exp 0.048
   /\ calculate (batch_record future_batch 0) (default_config 0.2) = 1
   /\ ~ within_relative 1e-9
        (at_ (batch_arrays_output true future_batch (default_config 0.2)) 0)
        (calculate (batch_record future_batch 0) (default_config 0.2))).
Proof.
  pose proof exp_minus_half_bounds as [Hlo Hhi].
  assert (at_ (batch_arrays_output false mentioned_batch (default_config 0.2)) 0
          = exp (- 1)) as Hout1.
  { change (calculate (mkDecayInput 1 500 0 0 (-1) 0 0) (default_config 0.2)
            = exp (- 1)).
    rewrite calculate_unfold_unguarded by (simpl; lra).
    rewrite calculate_unguarded_plain, std_max_Rmax.
    replace (- (0.002 / (1 + 0.2 * 0) * 500)) with (-1) by lra.
    rewrite Rmax_left; [ lra | ].
    rewrite exp_minus_one_square. nra. }
  assert (calculate (batch_record mentioned_batch 0) (default_config 0.2)
          = exp (- (1 / 2))) as Hexp1.
  { change (calculate (mkDecayInput 1 500 0 0 (-1) 0 5) (default_config 0.2)
            = exp (- (1 / 2))).
    rewrite calculate_unfold_unguarded by (simpl; lra).
    rewrite calculate_unguarded_plain, std_max_Rmax.
    replace (0.002 / (1 + 0.2 * 5) * 500) with (1 / 2) by lra.
    rewrite Rmax_left; lra. }
  assert (1 + 0.048 < exp 0.048) as Hgrow by (apply exp_ineq1; lra).
  assert (at_ (batch_arrays_output true future_batch (default_config 0.2)) 0
          = exp 0.048) as Hout2.
  { unfold batch_arrays_output, future_batch,
      axnmihn_native.calculate_batch_numpy, calculate_batch_arrays.
    cbv zeta.
    rewrite calculate_batch_arrays_avx2_at
      by (rewrite ?repeat_length; simpl; lia).
    change (calculate_unguarded (mkDecayInput 1 (-24) 0 0 (-1) 0 0)
              (default_config 0.2) = exp 0.048).
    rewrite calculate_unguarded_plain, std_max_Rmax.
    replace (- (0.002 / (1 + 0.2 * 0) * -24)) with 0.048 by lra.
    rewrite Rmax_left; lra. }
  assert (calculate (batch_record future_batch 0) (default_config 0.2) = 1)
    as Hexp2.
  { change (calculate (mkDecayInput 1 (-24) 0 0 (-1) 0 0) (default_config 0.2)
            = 1).
    rewrite calculate_guard by (simpl; lra). reflexivity. }
  split; (split; [ | split ]); try assumption.
  - rewrite Hout1, Hexp1. unfold within_relative.
    rewrite exp_minus_one_square.
    rewrite (Rabs_right (exp (- (1 / 2)))) by lra.
    rewrite Rabs_left by nra. nra.
  - rewrite Hout2, Hexp2. unfold within_relative.
    rewrite Rabs_R1, Rabs_right by lra. lra.
Qed.

End DecayBatch.

(** ** decay.cpp: further properties *)

Section DecayMore.
Import decay.

Lemma std_max_mono_r (a b b' : R) : b <= b' -> std.max a b <= std.max a b'.
Proof.
  intros H. rewrite !std_max_Rmax.
  apply Rmax_lub; [ apply Rmax_l | ].
  apply Rle_trans with b'; [ exact H | apply Rmax_r ].
Qed.

Lemma exp_neg_le (x y : R) : x <= y -> exp (- y) <= exp (- x).
Proof.
  intros H. destruct (Req_dec x y) as [-> | Hne]; [ lra | ].
  left. apply exp_increasing. lra.
Qed.

(** With no time elapsed the score is the importance, provided the rate
    is a finite number (an infinite rate times the age 0 is NaN). *)
Theorem calculate_at_zero_hours input config :
  hours_passed input = 0 ->
  importance input >= 0 -> min_retention config <= 1 ->
  finite_rate input config ->
  calculate input config = importance input.
Proof.
  intros Hh Himp Hmr _. rewrite calculate_unfold by lra.
  unfold decayed_before_floor, recency_paradox, recency_test, exponential_decay.
  rewrite fast_exp_neg_exp, Hh, Rmult_0_r, Ropp_0, exp_0.
  destruct (Rge_dec (last_access_hours input) 0);
    [ destruct (Rgt_dec 0 168.0); [ lra | ] | ];
    rewrite std_max_Rmax, Rmax_left; nra.
Qed.

Lemma calculate_at_zero_hours_witness :
  calculate (mkDecayInput 0.7 0 3 2 5 1 4) (default_config 0.2) = 0.7.
Proof.
  apply (calculate_at_zero_hours (mkDecayInput 0.7 0 3 2 5 1 4)
           (default_config 0.2));
    unfold finite_rate, counts_nonneg, rate_parameters_nonneg, rate_finite,
      type_multiplier, DBL_MAX;
    simpl; repeat split; try lra; try lia.
Defined.

(** Decay never raises a score: for a finite rate, without the recency
    boost the result is at most the importance, and with it at most 1.3
    times the importance. *)
Theorem calculate_upper_bound input config :
  importance input >= 0 ->
  counts_nonneg input ->
  rate_parameters_nonneg config ->
  rate_finite input config ->
  min_retention config <= 1 ->
  calculate input config <= 1.3 * importance input
  /\ (recency_paradox input = false ->
      calculate input config <= importance input).
Proof.
  intros Himp Hcnt Hcfg _ Hmr. unfold calculate.
  destruct (Rlt_dec (hours_passed input) 0) as [Hneg | Hpos].
  { split; [ lra | intros _; lra ]. }
  pose proof (effective_rate_nonneg input config Hcnt Hcfg) as Hrate.
  assert (exponential_decay input config <= importance input) as Hdec.
  { unfold exponential_decay. rewrite fast_exp_neg_exp.
    assert (exp (- (effective_rate input config * hours_passed input)) <= 1)
      as Hexp.
    { pose proof (exp_neg_le 0 (effective_rate input config * hours_passed input))
        as Hle.
      rewrite Ropp_0, exp_0 in Hle. apply Hle. nra. }
    nra. }
  assert (0 <= exponential_decay input config) as Hdec0.
  { unfold exponential_decay. rewrite fast_exp_neg_exp.
    pose proof (exp_pos (- (effective_rate input config * hours_passed input))).
    nra. }
  unfold decayed_before_floor. cbv zeta.
  destruct (recency_paradox input); rewrite std_max_Rmax.
  - split; [ | discriminate ]. apply Rmax_lub; nra.
  - split; [ | intros _ ]; apply Rmax_lub; nra.
Qed.

Lemma calculate_upper_bound_witness :
  calculate (mkDecayInput 1 200 2 1 3 1 1) (default_config 0.2) <= 1.3 * 1.
Proof.
  apply (calculate_upper_bound (mkDecayInput 1 200 2 1 3 1 1)
           (default_config 0.2));
    unfold counts_nonneg, rate_parameters_nonneg, rate_finite,
      type_multiplier, DBL_MAX;
    simpl; repeat split; try lra; try lia.
Defined.

(** *** More accesses, connections or channel mentions never lower the
    score *)

Lemma fast_log1p_int_mono (a1 a2 : Z) :
  (0 <= a1 <= a2)%Z -> fast_log1p (IZR a1) <= fast_log1p (IZR a2).
Proof.
  intros [H0 H12].
  destruct (Z.eq_dec a1 0) as [-> | Hpos].
  - rewrite fast_log1p_zero. apply fast_log1p_nonneg. apply IZR_le in H12. exact H12.
  - assert (1 <= IZR a1) as H1 by (apply (IZR_le 1); lia).
    assert (IZR a1 <= IZR a2) as Hle by (apply IZR_le; exact H12).
    unfold fast_log1p.
    destruct (Rlt_dec (IZR a1) 0.1); [ lra | ].
    destruct (Rlt_dec (IZR a2) 0.1); [ lra | ].
    unfold std.log1p.
    destruct (Req_dec (IZR a1) (IZR a2)) as [-> | Hne]; [ lra | ].
    left. apply ln_increasing; lra.
Qed.

Lemma effective_rate_antitone input config (a1 c1 m1 a2 c2 m2 : Z) :
  rate_parameters_nonneg config ->
  (0 <= a1 <= a2)%Z -> (0 <= c1 <= c2)%Z -> (0 <= m1 <= m2)%Z ->
  0 <= effective_rate (with_counts input a2 c2 m2) config
    <= effective_rate (with_counts input a1 c1 m1) config.
Proof.
  intros Hcfg Ha Hc Hm.
  assert (counts_nonneg (with_counts input a1 c1 m1)) as Hcnt1
    by (unfold counts_nonneg; simpl; lia).
  assert (counts_nonneg (with_counts input a2 c2 m2)) as Hcnt2
    by (unfold counts_nonneg; simpl; lia).
  split; [ apply effective_rate_nonneg; assumption | ].
  pose proof (type_multiplier_nonneg input config Hcfg) as Htm.
  destruct Hcfg as (Hb & Hak & Hrk & Hck & _).
  unfold effective_rate.
  change (type_multiplier (with_counts input a2 c2 m2) config)
    with (type_multiplier input config).
  change (type_multiplier (with_counts input a1 c1 m1) config)
    with (type_multiplier input config).
  (* the four factors *)
  pose proof (stability_ge_1 (with_counts input a1 c1 m1) config
                ltac:(simpl; lia) Hak) as Hs1.
  pose proof (stability_ge_1 (with_counts input a2 c2 m2) config
                ltac:(simpl; lia) Hak) as Hs2.
  assert (stability (with_counts input a1 c1 m1) config
          <= stability (with_counts input a2 c2 m2) config) as Hs12.
  { unfold stability. simpl. pose proof (fast_log1p_int_mono a1 a2 Ha). nra. }
  pose proof (channel_boost_pos (with_counts input a1 c1 m1) config
                ltac:(simpl; lia) Hck) as Hb1.
  pose proof (channel_boost_pos (with_counts input a2 c2 m2) config
                ltac:(simpl; lia) Hck) as Hb2.
  assert (channel_boost (with_counts input a2 c2 m2) config
          <= channel_boost (with_counts input a1 c1 m1) config) as Hb12.
  { unfold channel_boost. simpl.
    assert (IZR m1 <= IZR m2) by (apply IZR_le; lia).
    assert (0 <= IZR m1) by (apply (IZR_le 0); lia).
    unfold Rdiv. apply Rmult_le_compat_l; [ lra | ].
    apply Rinv_le_contravar; nra. }
  pose proof (resistance_le_1 (with_counts input a1 c1 m1) config) as Hr1.
  pose proof (resistance_le_1 (with_counts input a2 c2 m2) config) as Hr2.
  assert (resistance (with_counts input a1 c1 m1) config
          <= resistance (with_counts input a2 c2 m2) config) as Hr12.
  { unfold resistance. simpl. rewrite !std_min_Rmin.
    assert (IZR c1 <= IZR c2) by (apply IZR_le; lia).
    apply Rle_min_compat_l. nra. }
  assert (/ stability (with_counts input a2 c2 m2) config
          <= / stability (with_counts input a1 c1 m1) config) as Hi12
    by (apply Rinv_le_contravar; lra).
  assert (0 < / stability (with_counts input a2 c2 m2) config) as Hi2
    by (apply Rinv_0_lt_compat; lra).
  unfold Rdiv.
  apply Rmult_le_compat; try lra.
  - apply Rmult_le_pos; [ apply Rmult_le_pos; [ apply Rmult_le_pos | ] | ]; lra.
  - apply Rmult_le_compat; try lra.
    + apply Rmult_le_pos; [ apply Rmult_le_pos | ]; lra.
    + apply Rmult_le_compat_l; [ apply Rmult_le_pos; lra | lra ].
Qed.

(** Holding everything else fixed, larger access, connection and channel
    counts never give a lower score, for rate parameters that are not
    negative and a product [base_decay_rate * type_multiplier] that does
    not overflow. *)
Theorem calculate_monotone_in_counts input config (a1 c1 m1 a2 c2 m2 : Z) :
  importance input >= 0 ->
  rate_parameters_nonneg config ->
  rate_finite input config ->
  (0 <= a1 <= a2)%Z -> (0 <= c1 <= c2)%Z -> (0 <= m1 <= m2)%Z ->
  calculate (with_counts input a1 c1 m1) config
  <= calculate (with_counts input a2 c2 m2) config.
Proof.
  intros Himp Hcfg _ Ha Hc Hm.
  pose proof (effective_rate_antitone input config a1 c1 m1 a2 c2 m2
                Hcfg Ha Hc Hm) as [Hr2 Hr12].
  unfold calculate. simpl hours_passed.
  destruct (Rlt_dec (hours_passed input) 0) as [Hneg | Hpos]; [ simpl; lra | ].
  apply std_max_mono.
  unfold decayed_before_floor, recency_paradox, exponential_decay.
  rewrite !fast_exp_neg_exp. simpl importance. simpl hours_passed.
  simpl last_access_hours.
  assert (exp (- (effective_rate (with_counts input a1 c1 m1) config
                  * hours_passed input))
          <= exp (- (effective_rate (with_counts input a2 c2 m2) config
                     * hours_passed input))) as Hexp
    by (apply exp_neg_le; nra).
  destruct (recency_test (last_access_hours input) (hours_passed input)); nra.
Qed.

Lemma calculate_monotone_in_counts_witness :
  calculate (with_counts (mkDecayInput 1 100 0 0 (-1) 0 0) 1 2 0)
    (default_config 0.2)
  <= calculate (with_counts (mkDecayInput 1 100 0 0 (-1) 0 0) 5 2 3)
       (default_config 0.2).
Proof.
  apply (calculate_monotone_in_counts (mkDecayInput 1 100 0 0 (-1) 0 0)
           (default_config 0.2) 1 2 0 5 2 3);
    unfold rate_parameters_nonneg, rate_finite, type_multiplier, DBL_MAX;
    simpl;
    repeat split; try lra; try lia.
Defined.

(** Full resistance: once [connection_count * relation_resistance_k]
    reaches 1 the record no longer decays, provided the rate before the
    factor [1 - resistance] is a finite number. *)
Theorem calculate_full_resistance input config :
  0 <= hours_passed input ->
  importance input >= 0 -> min_retention config <= 1 ->
  finite_rate input config ->
  1 <= IZR (connection_count input) * relation_resistance_k config ->
  calculate input config
  = if recency_paradox input then importance input * 1.3
    else importance input.
Proof.
  intros Hh Himp Hmr _ Hfull. rewrite calculate_unfold by exact Hh.
  assert (effective_rate input config = 0) as Hrate.
  { unfold effective_rate, resistance. rewrite std_min_Rmin.
    rewrite Rmin_left by lra. lra. }
  unfold decayed_before_floor, exponential_decay.
  rewrite fast_exp_neg_exp, Hrate, Rmult_0_l, Ropp_0, exp_0.
  cbv zeta.
  destruct (recency_paradox input); rewrite std_max_Rmax, Rmax_left; nra.
Qed.

Lemma calculate_full_resistance_witness :
  calculate (mkDecayInput 1 500 0 10 (-1) 0 0) (default_config 0.2) = 1.
Proof.
  assert (recency_paradox (mkDecayInput 1 500 0 10 (-1) 0 0) = false) as Hrp.
  { unfold recency_paradox, recency_test. simpl.
    destruct (Rge_dec (-1) 0); [ lra | reflexivity ]. }
  pose proof (calculate_full_resistance (mkDecayInput 1 500 0 10 (-1) 0 0)
                (default_config 0.2)) as H.
  rewrite Hrp in H.
  apply H;
    unfold finite_rate, counts_nonneg, rate_parameters_nonneg, rate_finite,
      type_multiplier, DBL_MAX;
    simpl; repeat split; try lra; try lia.
Defined.

(** *** [calculate_batch_arrays] stays inside its [n] outputs *)



(** The array entry point writes [output[0..n)] only: the buffer keeps
    its length and every element from index [n] on, in both builds. *)
Theorem calculate_batch_arrays_frame (HAS_AVX2 : bool) (n : nat)
    (importance hours_passed : list R)
    (access_count connection_count : list Z) (last_access_hours : list R)
    (memory_type channel_mentions : list Z) (config : DecayConfig)
    (output : list R) :
  (n <= length output)%nat ->
  length (calculate_batch_arrays HAS_AVX2 n importance hours_passed
            access_count connection_count last_access_hours memory_type
            channel_mentions config output) = length output
  /\ forall k, (n <= k)%nat ->
       at_ (calculate_batch_arrays HAS_AVX2 n importance hours_passed
              access_count connection_count last_access_hours memory_type
              channel_mentions config output) k
       = at_ output k.
Proof.
  intros Hlen. unfold calculate_batch_arrays. destruct HAS_AVX2.
  - assert (4 * (n / 4) <= n)%nat as Hq by (apply Nat.Div0.mul_div_le).
    unfold calculate_batch_arrays_avx2, for_stride.
    set (g := fun k =>
      calculate_unguarded
        (record_at importance hours_passed access_count connection_count
           last_access_hours memory_type channel_mentions k) config).
    set (f := fun k =>
      calculate
        (record_at importance hours_passed access_count connection_count
           last_access_hours memory_type channel_mentions k) config).
    rewrite (fold_left_pointwise _
               (fun out c =>
                  avx2._mm256_storeu_pd out (4 * c)
                    (avx2.build (fun k => g (4 * c + k)%nat))))
      by (intros; apply avx2_chunk_stores).
    destruct (stride_chunks_at g (n / 4) output) as [Hfl Hfa]; [ lia | ].
    change (length (for_range (4 * (n / 4)) n (fun i out => <[i := f i]> out)
                      (fold_left
                         (fun out c =>
                            avx2._mm256_storeu_pd out (4 * c)
                              (avx2.build (fun k => g (4 * c + k)%nat)))
                         (seq 0 (n / 4)) output)) = length output
            /\ forall k, (n <= k)%nat ->
                 at_ (for_range (4 * (n / 4)) n (fun i out => <[i := f i]> out)
                        (fold_left
                           (fun out c =>
                              avx2._mm256_storeu_pd out (4 * c)
                                (avx2.build (fun k => g (4 * c + k)%nat)))
                           (seq 0 (n / 4)) output)) k
                 = at_ output k).
    split.
    + rewrite length_for_range_insert. exact Hfl.
    + intros k Hk. rewrite for_range_insert_nth by (rewrite Hfl; exact Hlen).
      rewrite Hfa.
      destruct (Nat.ltb_spec k n); [ lia | ]. rewrite andb_false_r.
      destruct (Nat.ltb_spec k (4 * (n / 4))); [ lia | reflexivity ].
  - unfold calculate_batch_arrays_fallback. split.
    + apply (length_for_range_insert
               (fun i => calculate
                  (record_at_fallback importance hours_passed access_count
                     connection_count last_access_hours memory_type i) config)).
    + intros k Hk.
      rewrite (for_range_insert_nth
                 (fun i => calculate
                    (record_at_fallback importance hours_passed access_count
                       connection_count last_access_hours memory_type i) config))
        by exact Hlen.
      destruct (Nat.ltb_spec k n); [ lia | ]. rewrite andb_false_r. reflexivity.
Qed.

Lemma calculate_batch_arrays_frame_witness :
  length (calculate_batch_arrays true 5 [1; 1; 1; 1; 1] [5; 10; 200; 300; 7]
            [0%Z; 1%Z; 2%Z; 3%Z; 4%Z] [0%Z; 0%Z; 1%Z; 1%Z; 2%Z]
            [-1; 2; 3; 30; 1] [0%Z; 1%Z; 2%Z; 3%Z; 0%Z]
            [0%Z; 1%Z; 0%Z; 2%Z; 0%Z] (default_config 0.2)
            [9; 9; 9; 9; 9; 9; 9]) = 7%nat.
Proof.
  apply (calculate_batch_arrays_frame true 5 [1; 1; 1; 1; 1]
           [5; 10; 200; 300; 7] [0%Z; 1%Z; 2%Z; 3%Z; 4%Z]
           [0%Z; 0%Z; 1%Z; 1%Z; 2%Z] [-1; 2; 3; 30; 1]
           [0%Z; 1%Z; 2%Z; 3%Z; 0%Z] [0%Z; 1%Z; 0%Z; 2%Z; 0%Z]
           (default_config 0.2) [9; 9; 9; 9; 9; 9; 9]).
  simpl. lia.
Defined.

(** *** The NumPy entry point *)



End DecayMore.


(** ** vector_ops.cpp *)

Section VectorOps.

Import vector_ops.

Lemma pair_dot_row_dot (HAS_AVX2 : bool) (embeddings : list R) (dim i j : nat) :
  pair_dot HAS_AVX2 embeddings dim i j = row_dot embeddings dim i j.
Proof.
  unfold pair_dot, row_dot. cbv zeta. destruct HAS_AVX2.
  - unfold for_stride. apply (stride_then_range embeddings embeddings).
  - apply for_range_sum_from_zero.
Qed.

Lemma precompute_norms_at (embeddings : list R) (n dim i : nat) :
  (i < n)%nat ->
  at_ (precompute_norms embeddings n dim) i = row_norm embeddings dim i.
Proof.
  intros Hi. unfold precompute_norms. cbv zeta.
  rewrite (for_range_insert_nth
             (fun i => sqrt (for_range 0 dim
                (fun d norm_sq =>
                   norm_sq + at_ embeddings (i * dim + d) * at_ embeddings (i * dim + d))
                0.0)))
    by (rewrite length_repeat_zero; lia).
  destruct (Nat.ltb_spec i n); [ | lia ]. simpl.
  unfold row_norm, row_dot. rewrite for_range_sum_from_zero. reflexivity.
Qed.

(** *** [cosine_similarity] and [cosine_similarity_batch] in closed form *)

(** [cosine_similarity] returns 0 for vectors of different lengths and
    when either vector is empty. *)
Theorem cosine_similarity_degenerate (HAS_AVX2 : bool) (a b : list R) :
  length a <> length b \/ a = [] \/ b = [] ->
  cosine_similarity HAS_AVX2 a b = 0.
Proof.
  intros Hdeg. unfold cosine_similarity.
  destruct (Nat.eqb_spec (length a) (length b)) as [Heq | Hne];
    [ | cbn [negb orb]; lra ].
  destruct (Nat.eqb_spec (length a) 0) as [H0 | Hn0];
    [ cbn [negb orb]; lra | ].
  exfalso. destruct Hdeg as [H | [-> | ->]].
  - contradiction.
  - apply Hn0. reflexivity.
  - apply Hn0. rewrite Heq. reflexivity.
Qed.

Lemma cosine_similarity_degenerate_witness :
  cosine_similarity false [1; 2] [3] = 0.
Proof.
  apply (cosine_similarity_degenerate false [1; 2] [3]).
  left. simpl. lia.
Defined.

Lemma cosine_similarity_closed (HAS_AVX2 : bool) (a b : list R) :
  length a = length b -> a <> [] ->
  cosine_similarity HAS_AVX2 a b
  = if Rlt_dec (euclidean_norm a * euclidean_norm b) 1e-10 then 0
    else dot_product a b / (euclidean_norm a * euclidean_norm b).
Proof.
  intros Hlen Hne. unfold cosine_similarity.
  destruct (Nat.eqb_spec (length a) (length b)) as [ _ | ]; [ | contradiction ].
  destruct (Nat.eqb_spec (length a) 0) as [H0 | _ ].
  { destruct a; [ contradiction | discriminate ]. }
  cbn [negb orb]. cbv zeta.
  assert ((if HAS_AVX2
           then
             let '(i, (sum_dot, sum_a, sum_b)) :=
               for_stride 4 (length a)
                 (fun i '(sum_dot, sum_a, sum_b) =>
                    (avx2._mm256_fmadd_pd (avx2._mm256_loadu_pd a i)
                       (avx2._mm256_loadu_pd b i) sum_dot,
                     avx2._mm256_fmadd_pd (avx2._mm256_loadu_pd a i)
                       (avx2._mm256_loadu_pd a i) sum_a,
                     avx2._mm256_fmadd_pd (avx2._mm256_loadu_pd b i)
                       (avx2._mm256_loadu_pd b i) sum_b))
                 (avx2._mm256_setzero_pd, avx2._mm256_setzero_pd,
                  avx2._mm256_setzero_pd) in
             for_range i (length a)
               (fun i '(dot, norm_a, norm_b) =>
                  (dot + at_ a i * at_ b i, norm_a + at_ a i * at_ a i,
                   norm_b + at_ b i * at_ b i))
               (avx2.hsum sum_dot, avx2.hsum sum_a, avx2.hsum sum_b)
           else
             for_range 0 (length a)
               (fun i '(dot, norm_a, norm_b) =>
                  (dot + at_ a i * at_ b i, norm_a + at_ a i * at_ a i,
                   norm_b + at_ b i * at_ b i))
               (0.0, 0.0, 0.0))
          = (dot_product a b, dot_product a a, dot_product b b)) as ->.
  { unfold dot_product. rewrite <- Hlen. destruct HAS_AVX2.
    - rewrite for_stride_triple, for_range_triple.
      rewrite (stride_then_range a b 0 0), (stride_then_range a a 0 0),
        (stride_then_range b b 0 0).
      reflexivity.
    - rewrite for_range_triple, !for_range_sum_from_zero. reflexivity. }
  unfold euclidean_norm. destruct (Rlt_dec _ 1e-10); [ lra | reflexivity ].
Qed.

(** The dot product of the query with row [v] of the corpus. *)
Lemma cosine_similarity_batch_closed (HAS_AVX2 : bool) (query corpus : list R)
    (n_vectors dim v : nat) :
  (v < n_vectors)%nat ->
  at_ (cosine_similarity_batch HAS_AVX2 query corpus n_vectors dim) v
  = if negb (length query =? dim)%nat then 0
    else if Rlt_dec (euclidean_norm query) 1e-10 then 0
    else if Rlt_dec (row_norm corpus dim v) 1e-10 then 0
    else sum_upto (fun i => at_ query i * at_ corpus (v * dim + i)) dim
         / (euclidean_norm query * row_norm corpus dim v).
Proof.
  intros Hv. unfold cosine_similarity_batch. cbv zeta.
  destruct (Nat.eqb_spec (length query) dim) as [Hdim | _ ]; cbn [negb];
    [ | apply at_repeat_zero ].
  rewrite for_range_sum_from_zero.
  change (sqrt (sum_upto (fun i => at_ query i * at_ query i) dim))
    with (sqrt (sum_upto (fun i => at_ query i * at_ query i) dim)).
  assert (sqrt (sum_upto (fun i => at_ query i * at_ query i) dim)
          = euclidean_norm query) as ->.
  { unfold euclidean_norm, dot_product. rewrite Hdim. reflexivity. }
  destruct (Rlt_dec (euclidean_norm query) 1e-10) as [ _ | Hq ];
    [ apply at_repeat_zero | ].
  rewrite (for_range_ext 0 n_vectors _
             (fun v results =>
                <[v := if Rlt_dec (row_norm corpus dim v) 1e-10 then 0.0
                       else sum_upto
                              (fun i => at_ query i * at_ corpus (v * dim + i)) dim
                            / (euclidean_norm query * row_norm corpus dim v)]>
                  results)).
  - rewrite for_range_insert_nth by (rewrite repeat_length; lia).
    destruct (Nat.ltb_spec v n_vectors); [ | lia ]. cbn [Nat.leb andb].
    destruct (Rlt_dec (row_norm corpus dim v) 1e-10); [ lra | reflexivity ].
  - intros w results _.
    assert ((if HAS_AVX2
             then
               let '(i, (sum_dot, sum_norm)) :=
                 for_stride 4 dim
                   (fun i '(sum_dot, sum_norm) =>
                      (avx2._mm256_fmadd_pd (avx2._mm256_loadu_pd query i)
                         (avx2._mm256_loadu_pd corpus (w * dim + i)) sum_dot,
                       avx2._mm256_fmadd_pd
                         (avx2._mm256_loadu_pd corpus (w * dim + i))
                         (avx2._mm256_loadu_pd corpus (w * dim + i)) sum_norm))
                   (avx2._mm256_setzero_pd, avx2._mm256_setzero_pd) in
               for_range i dim
                 (fun i '(dot, vec_norm_sq) =>
                    (dot + at_ query i * at_ corpus (w * dim + i),
                     vec_norm_sq
                     + at_ corpus (w * dim + i) * at_ corpus (w * dim + i)))
                 (avx2.hsum sum_dot, avx2.hsum sum_norm)
             else
               for_range 0 dim
                 (fun i '(dot, vec_norm_sq) =>
                    (dot + at_ query i * at_ corpus (w * dim + i),
                     vec_norm_sq
                     + at_ corpus (w * dim + i) * at_ corpus (w * dim + i)))
                 (0.0, 0.0))
            = (sum_upto (fun i => at_ query i * at_ corpus (w * dim + i)) dim,
               row_dot corpus dim w w)) as ->.
    { unfold row_dot. destruct HAS_AVX2.
      - rewrite for_stride_pair, for_range_pair.
        rewrite (stride_then_range query corpus 0 (w * dim)),
          (stride_then_range corpus corpus (w * dim) (w * dim)).
        reflexivity.
      - rewrite for_range_pair, !for_range_sum_from_zero. reflexivity. }
    fold (row_norm corpus dim w).
    destruct (Rlt_dec (row_norm corpus dim w) 1e-10); reflexivity.
Qed.

(** *** Rows as vectors *)

Lemma length_row (m : list R) (dim v : nat) : length (row m dim v) = dim.
Proof. unfold row. rewrite length_map, length_seq. reflexivity. Qed.

Lemma at_row (m : list R) (dim v d : nat) :
  (d < dim)%nat -> at_ (row m dim v) d = at_ m (v * dim + d).
Proof.
  intros Hd. unfold row, at_.
  rewrite (nth_indep _ 0 (nth (v * dim + 0) m 0))
    by (rewrite length_map, length_seq; exact Hd).
  rewrite (map_nth (fun d => nth (v * dim + d) m 0) (seq 0 dim) 0%nat d).
  rewrite seq_nth by exact Hd. reflexivity.
Qed.

Lemma dot_product_rows (m : list R) (dim i j : nat) :
  dot_product (row m dim i) (row m dim j) = row_dot m dim i j.
Proof.
  unfold dot_product, row_dot. rewrite length_row.
  apply sum_upto_ext. intros d Hd. rewrite !at_row by exact Hd. reflexivity.
Qed.

Lemma euclidean_norm_row (m : list R) (dim v : nat) :
  euclidean_norm (row m dim v) = row_norm m dim v.
Proof. unfold euclidean_norm, row_norm. rewrite dot_product_rows. reflexivity. Qed.

Lemma dot_product_query_row (query m : list R) (dim v : nat) :
  length query = dim ->
  dot_product query (row m dim v)
  = sum_upto (fun i => at_ query i * at_ m (v * dim + i)) dim.
Proof.
  intros Hlen. unfold dot_product. rewrite Hlen.
  apply sum_upto_ext. intros d Hd. rewrite at_row by exact Hd. reflexivity.
Qed.

(** [row_cosine] is what [cosine_similarity] returns for two rows whose
    norms have a product of at least 1e-10. *)
Lemma cosine_similarity_rows (HAS_AVX2 : bool) (m : list R) (dim i j : nat) :
  dim <> 0%nat ->
  1e-10 <= row_norm m dim i * row_norm m dim j ->
  cosine_similarity HAS_AVX2 (row m dim i) (row m dim j) = row_cosine m dim i j.
Proof.
  intros Hdim Hprod.
  rewrite cosine_similarity_closed.
  - rewrite !euclidean_norm_row, dot_product_rows.
    destruct (Rlt_dec (row_norm m dim i * row_norm m dim j) 1e-10);
      [ lra | reflexivity ].
  - rewrite !length_row. reflexivity.
  - intros Hnil. apply (f_equal (@length R)) in Hnil.
    rewrite length_row in Hnil. simpl in Hnil. contradiction.
Qed.

(** Where the batch function and the pairwise function agree, for a
    corpus of [n_vectors] rows: on rows for which the two guards decide
    alike, in particular whenever both norms and their product are at
    least 1e-10, and in a build and a dimension in which the two
    functions add the squares of the query in the same order: the scalar
    build, or fewer than four components.
    (Built with AVX2 the pairwise function adds them in four lanes from
    four components on, and the batch function one by one.) *)
Theorem cosine_similarity_batch_agrees (HAS_AVX2 : bool) (query corpus : list R)
    (n_vectors dim v : nat) :
  HAS_AVX2 = false \/ (dim < 4)%nat ->
  (n_vectors * dim <= length corpus)%nat ->
  (v < n_vectors)%nat -> length query = dim ->
  1e-10 <= euclidean_norm query ->
  1e-10 <= row_norm corpus dim v ->
  1e-10 <= euclidean_norm query * row_norm corpus dim v ->
  at_ (cosine_similarity_batch HAS_AVX2 query corpus n_vectors dim) v
  = cosine_similarity HAS_AVX2 query (row corpus dim v).
Proof.
  intros _ _ Hv Hlen Hq Hr Hprod.
  rewrite cosine_similarity_batch_closed by exact Hv.
  destruct (Nat.eqb_spec (length query) dim) as [ _ | ]; [ | contradiction ].
  cbn [negb].
  destruct (Rlt_dec (euclidean_norm query) 1e-10); [ lra | ].
  destruct (Rlt_dec (row_norm corpus dim v) 1e-10); [ lra | ].
  assert (dim <> 0%nat) as Hdim.
  { intros ->. unfold row_norm, row_dot in Hr. simpl in Hr.
    rewrite sqrt_0 in Hr. lra. }
  rewrite cosine_similarity_closed.
  - rewrite euclidean_norm_row, dot_product_query_row by exact Hlen.
    destruct (Rlt_dec (euclidean_norm query * row_norm corpus dim v) 1e-10);
      [ lra | reflexivity ].
  - rewrite length_row. exact Hlen.
  - intros ->. simpl in Hlen. congruence.
Qed.

Lemma euclidean_norm_singleton (x : R) : 0 <= x -> euclidean_norm [x] = x.
Proof.
  intros Hx. unfold euclidean_norm, dot_product, at_. cbn [length sum_upto nth].
  rewrite Rplus_0_l. apply sqrt_square. exact Hx.
Qed.

Lemma row_norm_singleton (x : R) : 0 <= x -> row_norm [x] 1 0 = x.
Proof.
  intros Hx. unfold row_norm, row_dot, at_. cbn [sum_upto nth Nat.mul Nat.add].
  rewrite Rplus_0_l. apply sqrt_square. exact Hx.
Qed.

Lemma cosine_similarity_batch_agrees_witness :
  at_ (cosine_similarity_batch true [1] [1] 1 1) 0
  = cosine_similarity true [1] (row [1] 1 0).
Proof.
  apply (cosine_similarity_batch_agrees true [1] [1] 1 1 0).
  - right. lia.
  - simpl. lia.
  - lia.
  - reflexivity.
  - rewrite euclidean_norm_singleton; lra.
  - rewrite row_norm_singleton; lra.
  - rewrite euclidean_norm_singleton, row_norm_singleton; lra.
Defined.

(** C3.  [cosine_similarity] tests the product of the two norms, not each
    norm: for [tiny_vector], whose norm 1e-11 is below 1e-10, and
    [large_vector], of norm 100, the product 1e-9 passes the test and the
    result is 1, not 0. *)
Theorem cosine_similarity_small_norm_nonzero (HAS_AVX2 : bool) :
  euclidean_norm tiny_vector < 1e-10
  /\ cosine_similarity HAS_AVX2 tiny_vector large_vector = 1.
Proof.
  unfold tiny_vector, large_vector.
  assert (euclidean_norm [1e-11] = 1e-11) as Ha
    by (apply euclidean_norm_singleton; lra).
  assert (euclidean_norm [100] = 100) as Hb
    by (apply euclidean_norm_singleton; lra).
  split; [ rewrite Ha; lra | ].
  rewrite cosine_similarity_closed by (try reflexivity; discriminate).
  rewrite Ha, Hb.
  destruct (Rlt_dec (1e-11 * 100) 1e-10) as [ H | _ ]; [ lra | ].
  unfold dot_product, at_. cbn [length sum_upto nth]. lra.
Qed.

(** C2.  The batch function tests each norm against 1e-10, the pairwise
    function their product: for [small_query] against the one row of
    [small_corpus], both of norm 1e-6, the batch result is 1 and the
    pairwise result is 0. *)
Theorem cosine_similarity_batch_disagrees (HAS_AVX2 : bool) :
  at_ (cosine_similarity_batch HAS_AVX2 small_query small_corpus 1 1) 0 = 1
  /\ cosine_similarity HAS_AVX2 small_query (row small_corpus 1 0) = 0.
Proof.
  unfold small_query, small_corpus.
  assert (euclidean_norm [1e-6] = 1e-6) as Hq
    by (apply euclidean_norm_singleton; lra).
  assert (row_norm [1e-6] 1 0 = 1e-6) as Hr
    by (apply row_norm_singleton; lra).
  split.
  - rewrite cosine_similarity_batch_closed by lia.
    cbn [length Nat.eqb negb]. rewrite Hq, Hr.
    destruct (Rlt_dec 1e-6 1e-10) as [ H | _ ]; [ lra | ].
    unfold at_. cbn [sum_upto nth Nat.mul Nat.add]. lra.
  - change (row [1e-6] 1 0) with [1e-6].
    rewrite cosine_similarity_closed by (try reflexivity; discriminate).
    rewrite Hq.
    destruct (Rlt_dec (1e-6 * 1e-6) 1e-10) as [ _ | H ]; [ reflexivity | lra ].
Qed.

(** *** The duplicate search as a list comprehension *)

Lemma for_range_append {A : Type} (emit : nat -> list A) (lo hi : nat)
    (acc : list A) :
  for_range lo hi (fun i acc => acc ++ emit i) acc
  = acc ++ flat_map emit (seq lo (hi - lo)).
Proof.
  unfold for_range. generalize (seq lo (hi - lo)). intros l. revert acc.
  induction l as [ | i l IH ]; intros acc; simpl.
  - rewrite app_nil_r. reflexivity.
  - rewrite IH, app_assoc. reflexivity.
Qed.

Lemma find_duplicates_flat_map (HAS_AVX2 : bool) (embeddings : list R)
    (n dim : nat) (threshold : R) :
  find_duplicates_by_embedding HAS_AVX2 embeddings n dim threshold
  = flat_map
      (duplicates_of_row HAS_AVX2 embeddings
         (precompute_norms embeddings n dim) n dim threshold)
      (seq 0 n).
Proof.
  unfold find_duplicates_by_embedding. cbv zeta.
  set (norms := precompute_norms embeddings n dim).
  rewrite (for_range_ext 0 n _
             (fun i acc =>
                acc ++ duplicates_of_row HAS_AVX2 embeddings norms n dim threshold i)).
  - rewrite for_range_append. rewrite Nat.sub_0_r. reflexivity.
  - intros i acc _. unfold duplicates_of_row.
    destruct (Rlt_dec (at_ norms i) 1e-10).
    + rewrite app_nil_r. reflexivity.
    + rewrite (for_range_ext (i + 1) n _
                 (fun j acc =>
                    acc ++ duplicates_of_pair HAS_AVX2 embeddings norms dim
                             threshold i j)).
      * apply for_range_append.
      * intros j acc' _. unfold duplicates_of_pair. cbv zeta.
        destruct (Rlt_dec (at_ norms j) 1e-10);
          [ rewrite app_nil_r; reflexivity | ].
        destruct (Rge_dec _ threshold);
          [ reflexivity | rewrite app_nil_r; reflexivity ].
Qed.

(** *** Sorted concatenations *)

Lemma StronglySorted_app_between {A : Type} (R : A -> A -> Prop)
    (l1 l2 : list A) :
  StronglySorted R l1 -> StronglySorted R l2 ->
  (forall a b, In a l1 -> In b l2 -> R a b) ->
  StronglySorted R (l1 ++ l2).
Proof.
  intros H1 H2 Hcross. induction H1 as [ | a l1 Hs IH Ha ]; simpl.
  - exact H2.
  - constructor.
    + apply IH. intros x y Hx Hy. apply Hcross; [ right; exact Hx | exact Hy ].
    + apply Forall_app. split; [ exact Ha | ].
      apply Forall_forall. intros y Hy.
      apply Hcross; [ left; reflexivity | exact Hy ].
Qed.

Lemma StronglySorted_flat_map {A B : Type} (lt : A -> A -> Prop)
    (R : B -> B -> Prop) (g : A -> list B) (l : list A) :
  StronglySorted lt l ->
  (forall x, In x l -> StronglySorted R (g x)) ->
  (forall x y a b, lt x y -> In a (g x) -> In b (g y) -> R a b) ->
  StronglySorted R (flat_map g l).
Proof.
  intros Hl Hg Hcross. induction Hl as [ | x l Hs IH Hx ]; simpl.
  - constructor.
  - apply StronglySorted_app_between.
    + apply Hg. left. reflexivity.
    + apply IH. intros y Hy. apply Hg. right. exact Hy.
    + intros a b Ha Hb. apply in_flat_map in Hb as (y & Hy & Hb).
      rewrite Forall_forall in Hx.
      apply (Hcross x y); [ | exact Ha | exact Hb ].
      apply Hx. exact Hy.
Qed.

Lemma StronglySorted_seq (lo len : nat) : StronglySorted Nat.lt (seq lo len).
Proof.
  revert lo. induction len as [ | len IH ]; intros lo; simpl.
  - constructor.
  - constructor; [ apply IH | ].
    apply Forall_forall. intros y Hy. apply in_seq in Hy.
    unfold Nat.lt. lia.
Qed.





End VectorOps.

(** ** vector_ops.cpp: further properties *)

Section VectorMore.
Import vector_ops.

Lemma dot_product_comm (a b : list R) :
  length a = length b -> dot_product a b = dot_product b a.
Proof.
  intros Hlen. unfold dot_product. rewrite <- Hlen.
  apply sum_upto_ext. intros i _. lra.
Qed.

Lemma cosine_similarity_zero_cases (HAS_AVX2 : bool) (a b : list R) :
  length a <> length b \/ a = [] \/ b = [] ->
  cosine_similarity HAS_AVX2 a b = 0.
Proof.
  intros Hdeg. unfold cosine_similarity.
  destruct (Nat.eqb_spec (length a) (length b)) as [Heq | Hne];
    [ | cbn [negb orb]; lra ].
  destruct (Nat.eqb_spec (length a) 0) as [H0 | Hn0];
    [ cbn [negb orb]; lra | ].
  exfalso. destruct Hdeg as [H | [-> | ->]].
  - contradiction.
  - apply Hn0. reflexivity.
  - apply Hn0. rewrite Heq. reflexivity.
Qed.

(** [cosine_similarity] is symmetric in its two arguments. *)
Theorem cosine_similarity_symmetric (HAS_AVX2 : bool) (a b : list R) :
  cosine_similarity HAS_AVX2 a b = cosine_similarity HAS_AVX2 b a.
Proof.
  destruct (Nat.eq_dec (length a) (length b)) as [Hlen | Hne].
  2: { rewrite !cosine_similarity_zero_cases; [ reflexivity | left; congruence | left; exact Hne ]. }
  destruct a as [ | x a ].
  { rewrite !cosine_similarity_zero_cases; [ reflexivity | right; right; reflexivity | right; left; reflexivity ]. }
  destruct b as [ | y b ]; [ discriminate | ].
  rewrite !cosine_similarity_closed by (try discriminate; congruence).
  rewrite (dot_product_comm (y :: b) (x :: a)) by congruence.
  rewrite (Rmult_comm (euclidean_norm (y :: b))). reflexivity.
Qed.

(** *** [cosine_similarity_batch]: length and zero fill *)

Lemma length_cosine_similarity_batch (HAS_AVX2 : bool) (query corpus : list R)
    (n_vectors dim : nat) :
  length (cosine_similarity_batch HAS_AVX2 query corpus n_vectors dim)
  = n_vectors.
Proof.
  unfold cosine_similarity_batch. cbv zeta.
  destruct (negb _); [ apply repeat_length | ].
  destruct (Rlt_dec _ 1e-10); [ apply repeat_length | ].
  apply (for_range_invariant (fun _ results => length results = n_vectors)).
  - lia.
  - apply repeat_length.
  - intros v results _ Hl.
    destruct (if HAS_AVX2 then _ else _) as [dot vec_norm_sq].
    destruct (Rlt_dec _ 1e-10); rewrite length_insert; exact Hl.
Qed.

(** The batch function returns one score per row, and a query of the
    wrong dimension or of norm below 1e-10 gives all zeros. *)
Theorem cosine_similarity_batch_shape (HAS_AVX2 : bool) (query corpus : list R)
    (n_vectors dim : nat) :
  length (cosine_similarity_batch HAS_AVX2 query corpus n_vectors dim)
  = n_vectors
  /\ (length query <> dim \/ euclidean_norm query < 1e-10 ->
      cosine_similarity_batch HAS_AVX2 query corpus n_vectors dim
      = repeat 0 n_vectors).
Proof.
  split; [ apply length_cosine_similarity_batch | ].
  intros Hdeg. unfold cosine_similarity_batch. cbv zeta.
  destruct (Nat.eqb_spec (length query) dim) as [Hdim | ]; cbn [negb];
    [ | reflexivity ].
  destruct Hdeg as [ | Hsmall ]; [ contradiction | ].
  rewrite for_range_sum_from_zero.
  assert (sqrt (sum_upto (fun i => at_ query i * at_ query i) dim)
          = euclidean_norm query) as ->.
  { unfold euclidean_norm, dot_product. rewrite Hdim. reflexivity. }
  destruct (Rlt_dec (euclidean_norm query) 1e-10); [ reflexivity | lra ].
Qed.

End VectorMore.

(** ** vector_ops.cpp in IEEE binary64: the compared inputs, executed *)

Section Binary64.

Local Open Scope float_scope.
#[local] Set Warnings "-inexact-float".

(** The vector [1e-11] has a norm below 1e-10, and its cosine similarity
    with [100.0] is 1.0 in double precision too. *)
Example binary64_small_norm_nonzero :
  (PrimFloat.sqrt (1e-11 * 1e-11) <? 1e-10) = true
  /\ binary64.cosine_similarity [1e-11] [100] = 1.
Proof. split; vm_compute; reflexivity. Qed.

(** The query [1e-6] against the row [1e-6]: 1.0 from the batch function,
    0.0 from the pairwise function. *)
Example binary64_batch_disagrees :
  binary64.cosine_similarity_batch [1e-6] [1e-6] 1 1 = [1]
  /\ binary64.cosine_similarity [1e-6] [1e-6] = 0.
Proof. split; vm_compute; reflexivity. Qed.

(** Scenario 3 of the specification, second half: the cosine similarity
    of [1, 1] with itself is [2 / (sqrt 2 * sqrt 2)], and in double
    precision [sqrt 2 * sqrt 2] is 2.0000000000000004: the function
    returns the double below 1. *)
Example binary64_equal_vectors :
  binary64.cosine_similarity [1; 1] [1; 1] = 0.99999999999999978
  /\ (binary64.cosine_similarity [1; 1] [1; 1] <? 1) = true.
Proof. split; vm_compute; reflexivity. Qed.

(** The length test of [find_string_duplicates] in double precision:
    for the strings [a] and [abc] the similarity [1 - 2/3] is
    0.33333333333333337 and the ratio of the lengths [1/3] is
    0.33333333333333331, so with the threshold 0.33333333333333337 the
    pair passes [sim >= threshold] and is skipped all the same. *)
Example binary64_length_test_skips :
  (0.33333333333333337
   <=? binary64_strings.string_similarity ["a"]%char ["a"; "b"; "c"]%char)
  = true
  /\ binary64_strings.find_string_duplicates
       [["a"]%char; ["a"; "b"; "c"]%char] 0.33333333333333337 = [].
Proof. split; vm_compute; reflexivity. Qed.

End Binary64.

(** ** string_ops.cpp *)

Section StringOps.

Import string_ops.

Local Open Scope nat_scope.

Lemma edit_table_0 a b j : edit_table a b 0 j = j.
Proof. reflexivity. Qed.

Lemma edit_table_S_0 a b i : edit_table a b (S i) 0 = S i.
Proof. reflexivity. Qed.

Lemma edit_table_S_S a b i j :
  edit_table a b (S i) (S j)
  = Nat.min (Nat.min (edit_table a b i (S j) + 1) (edit_table a b (S i) j + 1))
            (edit_table a b i j + subst_cost a b i j).
Proof. reflexivity. Qed.

Lemma edit_table_i_0 a b i : edit_table a b i 0 = i.
Proof. destruct i; reflexivity. Qed.

Lemma subst_cost_le_1 a b i j : subst_cost a b i j <= 1.
Proof. unfold subst_cost. destruct (Ascii.eqb _ _); lia. Qed.

Lemma edit_table_le_max a b i : forall j, edit_table a b i j <= Nat.max i j.
Proof.
  induction i as [ | i IHi ]; intros j.
  - rewrite edit_table_0. lia.
  - induction j as [ | j IHj ].
    + rewrite edit_table_S_0. lia.
    + rewrite edit_table_S_S.
      pose proof (IHi j) as H1. pose proof (subst_cost_le_1 a b i j) as Hc.
      lia.
Qed.

Lemma edit_table_ge_diff a b i : forall j, i - j <= edit_table a b i j /\ j - i <= edit_table a b i j.
Proof.
  induction i as [ | i IHi ]; intros j.
  - rewrite edit_table_0. lia.
  - induction j as [ | j IHj ].
    + rewrite edit_table_S_0. lia.
    + rewrite edit_table_S_S.
      pose proof (IHi j) as H1. pose proof (IHi (S j)) as H2.
      lia.
Qed.

Lemma subst_cost_sym a b i j : subst_cost a b i j = subst_cost b a j i.
Proof. unfold subst_cost. rewrite Ascii.eqb_sym. reflexivity. Qed.

Lemma subst_cost_refl a i : subst_cost a a i i = 0.
Proof. unfold subst_cost. rewrite Ascii.eqb_refl. reflexivity. Qed.

Lemma subst_cost_0 a b i j : subst_cost a b i j = 0 -> char_at a i = char_at b j.
Proof.
  unfold subst_cost. destruct (Ascii.eqb_spec (char_at a i) (char_at b j)); [ auto | discriminate ].
Qed.

Lemma subst_cost_triangle a b c i j k :
  subst_cost a c i k <= subst_cost a b i j + subst_cost b c j k.
Proof.
  unfold subst_cost.
  destruct (Ascii.eqb_spec (char_at a i) (char_at c k)) as [ | Hac ]; [ lia | ].
  destruct (Ascii.eqb_spec (char_at a i) (char_at b j)) as [ Hab | ]; [ | lia ].
  destruct (Ascii.eqb_spec (char_at b j) (char_at c k)) as [ Hbc | ]; [ | lia ].
  congruence.
Qed.

Lemma edit_table_sym a b i : forall j, edit_table a b i j = edit_table b a j i.
Proof.
  induction i as [ | i IHi ]; intros j.
  - rewrite edit_table_0, edit_table_i_0. reflexivity.
  - induction j as [ | j IHj ].
    + reflexivity.
    + rewrite !edit_table_S_S, IHj, (IHi (S j)), (IHi j), subst_cost_sym. lia.
Qed.

Lemma edit_table_diag a i : edit_table a a i i = 0.
Proof.
  induction i as [ | i IH ]; [ reflexivity | ].
  rewrite edit_table_S_S, IH, subst_cost_refl. lia.
Qed.

Lemma edit_table_zero a b i :
  forall j, edit_table a b i j = 0 ->
            i = j /\ forall k, k < i -> char_at a k = char_at b k.
Proof.
  induction i as [ | i IH ]; intros j Hz.
  - rewrite edit_table_0 in Hz. subst. split; [ reflexivity | lia ].
  - destruct j as [ | j ]; [ rewrite edit_table_S_0 in Hz; lia | ].
    rewrite edit_table_S_S in Hz.
    assert (edit_table a b i j = 0 /\ subst_cost a b i j = 0) as [Ht Hc] by lia.
    destruct (IH j Ht) as [-> Hchars].
    split; [ reflexivity | ].
    intros k Hk. destruct (Nat.eq_dec k j) as [-> | Hne].
    + apply subst_cost_0. exact Hc.
    + apply Hchars. lia.
Qed.

(** The triangle inequality of the recurrence, by induction on the sum of
    the three prefix lengths. *)
Lemma edit_table_triangle a b c :
  forall s i j k, i + j + k <= s ->
    edit_table a c i k <= edit_table a b i j + edit_table b c j k.
Proof.
  induction s as [ | s IH ]; intros i j k Hs.
  - assert (i = 0 /\ j = 0 /\ k = 0) as (-> & -> & ->) by lia. simpl. lia.
  - destruct i as [ | i ].
    { rewrite !edit_table_0. pose proof (edit_table_ge_diff b c j k). lia. }
    destruct k as [ | k ].
    { rewrite !edit_table_i_0. pose proof (edit_table_ge_diff a b (S i) j). lia. }
    destruct j as [ | j ].
    { rewrite edit_table_i_0, edit_table_0.
      pose proof (edit_table_le_max a c (S i) (S k)). lia. }
    pose proof (IH i (S j) (S k)) as Hdel.
    pose proof (IH (S i) (S j) k) as Hins.
    pose proof (IH (S i) j (S k)) as Hmid.
    pose proof (IH (S i) j k) as Hmid_sub.
    pose proof (IH i j (S k)) as Hsub_del.
    pose proof (IH i j k) as Hsub.
    pose proof (subst_cost_triangle a b c i j k) as Hcost.
    pose proof (edit_table_S_S a c i k) as Eac.
    pose proof (edit_table_S_S a b i j) as Eab.
    pose proof (edit_table_S_S b c j k) as Ebc.
    lia.
Qed.

(** *** The two-row loop computes the table *)

Lemma to_int_small (z : Z) :
  (- 2147483648 <= z < 2147483648)%Z -> to_int z = z.
Proof.
  intros Hz. unfold to_int.
  rewrite Z.mod_small by lia. lia.
Qed.

Lemma at_int_insert (l : list Z) (i k : nat) (x : Z) :
  i < length l ->
  at_int (<[i := x]> l) k = if Nat.eq_dec k i then x else at_int l k.
Proof.
  intros Hi. unfold at_int. rewrite !nth_lookup.
  destruct (Nat.eq_dec k i) as [-> | Hne].
  - rewrite list_lookup_insert_eq by exact Hi. reflexivity.
  - rewrite list_lookup_insert_ne by congruence. reflexivity.
Qed.


(** A loop that fills [curr[1..n]] from left to right, each entry from
    its left neighbour. *)
Lemma row_scan (F : nat -> Z -> Z) (n : nat) (r : nat -> Z) (curr : list Z) :
  length curr = n + 1 -> at_int curr 0 = r 0 ->
  (forall j, 1 <= j <= n -> r j = F j (r (j - 1))) ->
  let out :=
    for_range 1 (n + 1)
      (fun j curr => <[j := F j (at_int curr (j - 1))]> curr) curr in
  length out = n + 1 /\ forall j, j <= n -> at_int out j = r j.
Proof.
  intros Hlen H0 Hr out. subst out.
  assert (length (for_range 1 (n + 1)
                    (fun j curr => <[j := F j (at_int curr (j - 1))]> curr) curr)
          = n + 1
          /\ forall j, j < n + 1 ->
               at_int (for_range 1 (n + 1)
                         (fun j curr => <[j := F j (at_int curr (j - 1))]> curr)
                         curr) j = r j) as [Hl Hat].
  { apply (for_range_invariant
             (fun hi out => length out = n + 1
                            /\ forall j, j < hi -> at_int out j = r j)).
    - lia.
    - split; [ exact Hlen | ]. intros j Hj. assert (j = 0) as -> by lia. exact H0.
    - intros i out Hi [Hol Hoa].
      split; [ rewrite length_insert; exact Hol | ].
      intros j Hj. rewrite at_int_insert by lia.
      destruct (Nat.eq_dec j i) as [-> | Hne].
      + rewrite Hoa by lia. symmetry. apply Hr. lia.
      + apply Hoa. lia. }
  split; [ exact Hl | ]. intros j Hj. apply Hat. lia.
Qed.

Lemma first_row (n : nat) (prev : list Z) :
  length prev = n + 1 ->
  (Z.of_nat n < 2147483648)%Z ->
  let out := for_range 0 (n + 1) (fun j prev => <[j := to_int (Z.of_nat j)]> prev) prev in
  length out = n + 1 /\ forall j, j <= n -> at_int out j = Z.of_nat j.
Proof.
  intros Hlen Hn out. subst out.
  assert (length (for_range 0 (n + 1)
                    (fun j prev => <[j := to_int (Z.of_nat j)]> prev) prev) = n + 1
          /\ forall j, j < n + 1 ->
               at_int (for_range 0 (n + 1)
                         (fun j prev => <[j := to_int (Z.of_nat j)]> prev) prev) j
               = Z.of_nat j) as [Hl Hat].
  { apply (for_range_invariant
             (fun hi out => length out = n + 1
                            /\ forall j, j < hi -> at_int out j = Z.of_nat j)).
    - lia.
    - split; [ exact Hlen | ]. intros j Hj. lia.
    - intros i out Hi [Hol Hoa].
      split; [ rewrite length_insert; exact Hol | ].
      intros j Hj. rewrite at_int_insert by lia.
      destruct (Nat.eq_dec j i) as [-> | Hne].
      + apply to_int_small. lia.
      + apply Hoa. lia. }
  split; [ exact Hl | ]. intros j Hj. apply Hat. lia.
Qed.

Lemma levenshtein_distance_table (a b : list ascii) :
  fits_int a -> fits_int b ->
  levenshtein_distance a b
  = Z.of_nat (edit_table a b (length a) (length b)).
Proof.
  unfold fits_int, INT_MAX. intros Ha Hb. unfold levenshtein_distance.
  set (m := length a) in *. set (n := length b) in *.
  destruct (Nat.eqb_spec m 0) as [-> | Hm].
  { rewrite edit_table_0. apply to_int_small. lia. }
  destruct (Nat.eqb_spec n 0) as [-> | Hn].
  { rewrite edit_table_i_0. apply to_int_small. lia. }
  cbv zeta.
  destruct (first_row n (repeat 0%Z (n + 1))) as [Hl0 Hat0];
    [ apply repeat_length | lia | ].
  set (row0 := for_range 0 (n + 1)
                 (fun j prev => <[j := to_int (Z.of_nat j)]> prev)
                 (repeat 0%Z (n + 1))) in *.
  pose (P := fun (i : nat) (st : list Z * list Z) =>
               length (fst st) = n + 1 /\ length (snd st) = n + 1
               /\ forall j, j <= n ->
                    at_int (fst st) j = Z.of_nat (edit_table a b (i - 1) j)).
  assert (P (m + 1)
            (for_range 1 (m + 1)
               (fun i '(prev, curr) =>
                  let curr0 := <[0 := to_int (Z.of_nat i)]> curr in
                  let curr1 :=
                    for_range 1 (n + 1)
                      (fun j curr =>
                         let cost :=
                           if Ascii.eqb (char_at a (i - 1)) (char_at b (j - 1))
                           then 0%Z else 1%Z in
                         <[j := min3 (int_add (at_int prev j) 1)
                                     (int_add (at_int curr (j - 1)) 1)
                                     (int_add (at_int prev (j - 1)) cost)]> curr)
                      curr0 in
                  (curr1, prev))
               (row0, repeat 0%Z (n + 1)))) as HP.
  { apply (for_range_invariant P).
    - lia.
    - unfold P. cbn [fst snd]. split; [ exact Hl0 | ].
      split; [ apply repeat_length | ]. intros j Hj. rewrite Hat0 by exact Hj.
      reflexivity.
    - intros i [prev curr] Hi (Hlp & Hlc & Hrow). cbn [fst snd] in *.
      unfold P. cbn [fst snd].
      destruct (row_scan
                  (fun j c =>
                     min3 (int_add (at_int prev j) 1) (int_add c 1)
                       (int_add (at_int prev (j - 1))
                          (if Ascii.eqb (char_at a (i - 1)) (char_at b (j - 1))
                           then 0%Z else 1%Z)))
                  n (fun j => Z.of_nat (edit_table a b i j))
                  (<[0 := to_int (Z.of_nat i)]> curr)) as [Hl1 Hat1].
      + rewrite length_insert. exact Hlc.
      + rewrite at_int_insert by lia. cbn.
        rewrite edit_table_i_0. apply to_int_small. lia.
      + intros j Hj.
        destruct i as [ | i ]; [ lia | ].
        destruct j as [ | j ]; [ lia | ].
        rewrite edit_table_S_S.
        replace (S i - 1) with i in * by lia.
        replace (S j - 1) with j by lia.
        rewrite (Hrow (S j)) by lia. rewrite (Hrow j) by lia.
        pose proof (edit_table_le_max a b i (S j)).
        pose proof (edit_table_le_max a b (S i) j).
        pose proof (edit_table_le_max a b i j).
        unfold int_add, min3.
        assert ((if Ascii.eqb (char_at a i) (char_at b j) then 0%Z else 1%Z)
                = Z.of_nat (subst_cost a b i j)) as ->.
        { unfold subst_cost. destruct (Ascii.eqb _ _); reflexivity. }
        pose proof (subst_cost_le_1 a b i j).
        rewrite !to_int_small by lia. lia.
      + split; [ exact Hl1 | ]. split; [ exact Hlp | ].
        intros j Hj. replace (S i - 1) with i by lia. apply Hat1. exact Hj. }
  destruct (for_range 1 (m + 1) _ (row0, repeat 0%Z (n + 1))) as [prev curr].
  destruct HP as (_ & _ & Hrow). cbn [fst] in Hrow.
  rewrite Hrow by lia. replace (m + 1 - 1) with m by lia. reflexivity.
Qed.

(** *** [levenshtein_distance] is a metric *)

Lemma list_eq_chars (a b : list ascii) :
  length a = length b ->
  (forall k, k < length a -> char_at a k = char_at b k) -> a = b.
Proof.
  intros Hlen Hchars. apply (nth_ext a b zero zero Hlen). exact Hchars.
Qed.

(** The function on concrete strings. *)
Example levenshtein_distance_kitten_sitting :
  levenshtein_distance kitten sitting = 3%Z.
Proof. vm_compute. reflexivity. Qed.

Example levenshtein_distance_from_empty :
  levenshtein_distance [] kitten = 6%Z /\ levenshtein_distance sitting [] = 7%Z.
Proof. vm_compute. split; reflexivity. Qed.

(** The distance is 0 exactly between equal strings. *)
Theorem levenshtein_distance_zero_iff (a b : list ascii) :
  fits_int a -> fits_int b ->
  (levenshtein_distance a b = 0%Z <-> a = b).
Proof.
  intros Ha Hb. rewrite levenshtein_distance_table by assumption. split.
  - intros Hz.
    assert (edit_table a b (length a) (length b) = 0) as Ht by lia.
    apply edit_table_zero in Ht as [Hlen Hchars].
    apply list_eq_chars; assumption.
  - intros <-. rewrite edit_table_diag. reflexivity.
Qed.

Lemma levenshtein_distance_zero_iff_witness :
  levenshtein_distance kitten sitting = 0%Z <-> kitten = sitting.
Proof.
  apply (levenshtein_distance_zero_iff kitten sitting); unfold fits_int, INT_MAX; simpl; lia.
Defined.

(** The distance does not depend on the order of its arguments. *)
Theorem levenshtein_distance_symmetric (a b : list ascii) :
  fits_int a -> fits_int b ->
  levenshtein_distance a b = levenshtein_distance b a.
Proof.
  intros Ha Hb. rewrite !levenshtein_distance_table by assumption.
  rewrite edit_table_sym. reflexivity.
Qed.

Lemma levenshtein_distance_symmetric_witness :
  levenshtein_distance kitten sitting = levenshtein_distance sitting kitten.
Proof.
  apply (levenshtein_distance_symmetric kitten sitting); unfold fits_int, INT_MAX; simpl; lia.
Defined.

(** The triangle inequality: going through a third string is never
    shorter. *)
Theorem levenshtein_distance_triangle (a b c : list ascii) :
  fits_int a -> fits_int b -> fits_int c ->
  (levenshtein_distance a c
   <= levenshtein_distance a b + levenshtein_distance b c)%Z.
Proof.
  intros Ha Hb Hc. rewrite !levenshtein_distance_table by assumption.
  pose proof (edit_table_triangle a b c
                (length a + length b + length c)
                (length a) (length b) (length c) (Nat.le_refl _)).
  lia.
Qed.

Lemma levenshtein_distance_triangle_witness :
  (levenshtein_distance kitten sitting
   <= levenshtein_distance kitten [] + levenshtein_distance [] sitting)%Z.
Proof.
  apply (levenshtein_distance_triangle kitten [] sitting); unfold fits_int, INT_MAX; simpl; lia.
Defined.

(** The distance is at least the difference of the lengths and at most
    the greater length. *)
Theorem levenshtein_distance_bounds (a b : list ascii) :
  fits_int a -> fits_int b ->
  (Z.abs (Z.of_nat (length a) - Z.of_nat (length b))
   <= levenshtein_distance a b
   <= Z.max (Z.of_nat (length a)) (Z.of_nat (length b)))%Z.
Proof.
  intros Ha Hb. rewrite levenshtein_distance_table by assumption.
  pose proof (edit_table_le_max a b (length a) (length b)).
  pose proof (edit_table_ge_diff a b (length a) (length b)).
  lia.
Qed.

Lemma levenshtein_distance_bounds_witness :
  (Z.abs (Z.of_nat (length kitten) - Z.of_nat (length sitting))
   <= levenshtein_distance kitten sitting
   <= Z.max (Z.of_nat (length kitten)) (Z.of_nat (length sitting)))%Z.
Proof.
  apply (levenshtein_distance_bounds kitten sitting); unfold fits_int, INT_MAX; simpl; lia.
Defined.

(** *** [string_similarity] *)

Lemma string_similarity_closed (a b : list ascii) :
  fits_int a -> fits_int b ->
  string_similarity a b
  = if (Nat.max (length a) (length b) =? 0)
    then 1%R
    else (1 - INR (edit_table a b (length a) (length b))
              / INR (Nat.max (length a) (length b)))%R.
Proof.
  intros Ha Hb. unfold string_similarity. cbv zeta.
  rewrite levenshtein_distance_table by assumption.
  rewrite <- INR_IZR_INZ.
  destruct (Nat.eqb_spec (length a) 0) as [Ea | Na];
    destruct (Nat.eqb_spec (length b) 0) as [Eb | Nb]; cbn [andb];
    destruct (Nat.eqb_spec (Nat.max (length a) (length b)) 0); try lia;
    try lra.
Qed.

(** The similarity lies in [0,1]. *)
Theorem string_similarity_range (a b : list ascii) :
  fits_int a -> fits_int b ->
  (0 <= string_similarity a b <= 1)%R.
Proof.
  intros Ha Hb.
  rewrite string_similarity_closed by assumption.
  pose proof (edit_table_le_max a b (length a) (length b)) as Hup.
  set (d := edit_table a b (length a) (length b)) in *.
  set (mx := Nat.max (length a) (length b)) in *.
  destruct (Nat.eqb_spec mx 0) as [E | N]; [ lra | ].
  assert (0 < INR mx)%R as Hmx by (apply lt_0_INR; lia).
  assert (0 <= INR d)%R as Hd0 by apply pos_INR.
  assert (INR d <= INR mx)%R as Hd1 by (apply le_INR; exact Hup).
  assert (INR d / INR mx * INR mx = INR d)%R as Hq.
  { unfold Rdiv. rewrite Rmult_assoc, Rinv_l by lra. lra. }
  set (q := (INR d / INR mx)%R) in *.
  split; nra.
Qed.

Lemma string_similarity_range_witness :
  (0 <= string_similarity kitten sitting <= 1)%R.
Proof.
  apply (string_similarity_range kitten sitting); unfold fits_int, INT_MAX; simpl; lia.
Defined.

(** The similarity is 1 exactly between equal strings. *)
Theorem string_similarity_one_iff (a b : list ascii) :
  fits_int a -> fits_int b ->
  (string_similarity a b = 1%R <-> a = b).
Proof.
  intros Ha Hb. rewrite string_similarity_closed by assumption.
  destruct (Nat.eqb_spec (Nat.max (length a) (length b)) 0) as [E | N].
  - split; [ intros _ | reflexivity ].
    destruct a, b; simpl in E; try lia. reflexivity.
  - assert (0 < INR (Nat.max (length a) (length b)))%R as Hmx
      by (apply lt_0_INR; lia).
    split.
    + intros Hs.
      assert (INR (edit_table a b (length a) (length b)) = 0%R) as Hd.
      { assert (INR (edit_table a b (length a) (length b))
                / INR (Nat.max (length a) (length b)) = 0)%R as Hq by lra.
        apply (f_equal (fun x => (x * INR (Nat.max (length a) (length b)))%R)) in Hq.
        unfold Rdiv in Hq. rewrite Rmult_assoc, Rinv_l in Hq by lra. lra. }
      change 0%R with (INR 0) in Hd. apply INR_eq in Hd.
      apply edit_table_zero in Hd as [Hlen Hchars].
      apply list_eq_chars; assumption.
    + intros <-. rewrite edit_table_diag. simpl. lra.
Qed.

Lemma string_similarity_one_iff_witness :
  string_similarity kitten sitting = 1%R <-> kitten = sitting.
Proof.
  apply (string_similarity_one_iff kitten sitting); unfold fits_int, INT_MAX; simpl; lia.
Defined.

(** The similarity does not depend on the order of its arguments. *)
Theorem string_similarity_symmetric (a b : list ascii) :
  fits_int a -> fits_int b ->
  string_similarity a b = string_similarity b a.
Proof.
  intros Ha Hb. rewrite !string_similarity_closed by assumption.
  rewrite (Nat.max_comm (length b) (length a)), (edit_table_sym b a).
  reflexivity.
Qed.

Lemma string_similarity_symmetric_witness :
  string_similarity kitten sitting = string_similarity sitting kitten.
Proof.
  apply (string_similarity_symmetric kitten sitting); unfold fits_int, INT_MAX; simpl; lia.
Defined.

(** *** [find_string_duplicates]: what is reported *)

Lemma find_string_duplicates_flat_map (strings : list (list ascii))
    (threshold : R) :
  find_string_duplicates strings threshold
  = flat_map
      (fun i =>
         flat_map (string_duplicates_of_pair strings threshold i)
           (seq (i + 1) (length strings - (i + 1))))
      (seq 0 (length strings)).
Proof.
  unfold find_string_duplicates. cbv zeta.
  rewrite (for_range_ext 0 (length strings) _
             (fun i acc =>
                acc ++ flat_map (string_duplicates_of_pair strings threshold i)
                         (seq (i + 1) (length strings - (i + 1))))).
  - rewrite for_range_append, Nat.sub_0_r. reflexivity.
  - intros i acc _.
    rewrite (for_range_ext (i + 1) (length strings) _
               (fun j acc =>
                  acc ++ string_duplicates_of_pair strings threshold i j)).
    + apply for_range_append.
    + intros j acc' _. unfold string_duplicates_of_pair. cbv zeta.
      destruct ((0 <? _) && _); [ rewrite app_nil_r; reflexivity | ].
      destruct (Rge_dec _ threshold);
        [ reflexivity | rewrite app_nil_r; reflexivity ].
Qed.

Lemma in_string_duplicates_of_pair (strings : list (list ascii))
    (threshold : R) (i j : nat) (p : nat * nat * R) :
  In p (string_duplicates_of_pair strings threshold i j) <->
  ~ length_pruned strings threshold i j
  /\ p = (i, j, string_similarity (nth i strings []) (nth j strings []))
  /\ (string_similarity (nth i strings []) (nth j strings []) >= threshold)%R.
Proof.
  unfold string_duplicates_of_pair, length_pruned. cbv zeta.
  destruct (Nat.ltb_spec 0 (Nat.max (length (nth i strings []))
                              (length (nth j strings [])))) as [Hpos | Hzero];
    cbn [andb].
  - destruct (Rlt_dec _ threshold) as [Hlt | Hge].
    + simpl. split; [ tauto | ]. intros [Hn _]. apply Hn. split; assumption.
    + destruct (Rge_dec _ threshold) as [Hs | Hs]; simpl.
      * split.
        -- intros [<- | []]. split; [ intros [_ H]; contradiction | auto ].
        -- intros (_ & -> & _). auto.
      * split; [ tauto | intros (_ & _ & H); contradiction ].
  - destruct (Rge_dec _ threshold) as [Hs | Hs]; simpl.
    + split.
      * intros [<- | []]. split; [ intros [H _]; lia | auto ].
      * intros (_ & -> & _). auto.
    + split; [ tauto | intros (_ & _ & H); contradiction ].
Qed.

(** The output of [find_string_duplicates] holds [(i, j, s)] exactly when
    [i < j], the length test does not skip the pair, [s] is the
    similarity of strings [i] and [j], and [s >= threshold].  The triples
    are in ascending order of [i], then [j]. *)
Theorem find_string_duplicates_characterized (strings : list (list ascii))
    (threshold : R) :
  (forall (i j : nat) (s : R),
      In (i, j, s) (find_string_duplicates strings threshold) <->
      i < j < length strings
      /\ ~ length_pruned strings threshold i j
      /\ s = string_similarity (nth i strings []) (nth j strings [])
      /\ (s >= threshold)%R)
  /\ StronglySorted pair_before (find_string_duplicates strings threshold).
Proof.
  rewrite find_string_duplicates_flat_map. split.
  - intros i j s. rewrite in_flat_map. split.
    + intros (i0 & Hi0 & Hp). apply in_seq in Hi0.
      apply in_flat_map in Hp as (j0 & Hj0 & Hp). apply in_seq in Hj0.
      apply in_string_duplicates_of_pair in Hp as (Hn & Heq & Hs).
      injection Heq as -> -> ->. repeat split; try lia; assumption.
    + intros (Hij & Hn & -> & Hs). exists i. split; [ apply in_seq; lia | ].
      apply in_flat_map. exists j. split; [ apply in_seq; lia | ].
      apply in_string_duplicates_of_pair.
      split; [ exact Hn | split; [ reflexivity | exact Hs ] ].
  - apply StronglySorted_flat_map with (lt := Nat.lt).
    + apply StronglySorted_seq.
    + intros i Hi. apply in_seq in Hi.
      apply StronglySorted_flat_map with (lt := Nat.lt).
      * apply StronglySorted_seq.
      * intros j _. unfold string_duplicates_of_pair. cbv zeta.
        destruct ((0 <? _) && _); [ constructor | ].
        destruct (Rge_dec _ threshold); repeat constructor.
      * intros j j' p q Hlt Hp Hq.
        unfold string_duplicates_of_pair in Hp, Hq. cbv zeta in Hp, Hq.
        destruct ((0 <? _) && _) in Hp; [ destruct Hp | ].
        destruct (Rge_dec _ threshold) in Hp; [ | destruct Hp ].
        destruct ((0 <? _) && _) in Hq; [ destruct Hq | ].
        destruct (Rge_dec _ threshold) in Hq; [ | destruct Hq ].
        destruct Hp as [<- | []]. destruct Hq as [<- | []].
        right. simpl. split; [ reflexivity | exact Hlt ].
    + intros i i' p q Hlt Hp Hq.
      apply in_flat_map in Hp as (j & _ & Hp).
      apply in_flat_map in Hq as (j' & _ & Hq).
      unfold string_duplicates_of_pair in Hp, Hq. cbv zeta in Hp, Hq.
      destruct ((0 <? _) && _) in Hp; [ destruct Hp | ].
      destruct (Rge_dec _ threshold) in Hp; [ | destruct Hp ].
      destruct ((0 <? _) && _) in Hq; [ destruct Hq | ].
      destruct (Rge_dec _ threshold) in Hq; [ | destruct Hq ].
      destruct Hp as [<- | []]. destruct Hq as [<- | []].
      left. simpl. exact Hlt.
Qed.

(** [string_similarity_batch] returns the similarity of the query with
    every target, in order. *)
Theorem string_similarity_batch_map (query : list ascii)
    (targets : list (list ascii)) :
  string_similarity_batch query targets = map (string_similarity query) targets.
Proof.
  unfold string_similarity_batch. cbv zeta.
  apply (nth_ext _ _ 0%R 0%R).
  - rewrite length_for_range_insert, repeat_length, length_map. reflexivity.
  - intros k Hk.
    rewrite length_for_range_insert, repeat_length in Hk.
    change (at_ (for_range 0 (length targets)
                   (fun i results =>
                      <[i := string_similarity query (nth i targets [])]> results)
                   (repeat 0%R (length targets))) k
            = nth k (map (string_similarity query) targets) 0%R).
    rewrite (for_range_insert_nth
               (fun i => string_similarity query (nth i targets [])))
      by (rewrite repeat_length; lia).
    destruct (Nat.ltb_spec k (length targets)); [ | lia ]. cbn [Nat.leb andb].
    rewrite (nth_indep _ 0%R (string_similarity query []))
      by (rewrite length_map; exact Hk).
    rewrite (map_nth (string_similarity query)). reflexivity.
Qed.

End StringOps.


(** ** graph_ops.cpp: breadth-first search *)

Section Bfs.

Import graph_ops.

Local Open Scope nat_scope.

(** The embedding runs: a start node with two neighbours, one of which
    leads on to a third node. *)
Example bfs_depth_one :
  bfs_neighbors 4 (<[0%N := [1%N; 2%N]]> (<[1%N := [3%N; 0%N]]> ∅)) [0%N] 1
  = Some ({[0%N; 1%N; 2%N]} : gset N).
Proof. vm_compute. reflexivity. Qed.

Example bfs_depth_two :
  bfs_neighbors 4 (<[0%N := [1%N; 2%N]]> (<[1%N := [3%N; 0%N]]> ∅)) [0%N] 2
  = Some ({[0%N; 1%N; 2%N; 3%N]} : gset N).
Proof. vm_compute. reflexivity. Qed.

Example bfs_depth_zero :
  bfs_neighbors 4 (<[0%N := [1%N; 2%N]]> (<[1%N := [3%N; 0%N]]> ∅))
    [0%N; 5%N; 0%N] 0
  = Some ({[0%N; 5%N]} : gset N).
Proof. vm_compute. reflexivity. Qed.

Lemma size_unvisited_insert (U visited : gset N) (node : N) :
  node ∈ U -> node ∉ visited ->
  S (size (U ∖ ({[node]} ∪ visited))) = size (U ∖ visited).
Proof.
  intros HU Hnew.
  assert (U ∖ visited = {[node]} ∪ U ∖ ({[node]} ∪ visited)) as ->.
  { apply set_eq. intros x.
    rewrite elem_of_union, !elem_of_difference, elem_of_union, elem_of_singleton.
    destruct (decide (x = node)) as [-> | Hne]; tauto. }
  rewrite (size_union (C := gset N) {[node]} (U ∖ ({[node]} ∪ visited))).
  - rewrite size_singleton. reflexivity.
  - intros x Hx Hx'. apply elem_of_singleton in Hx as ->.
    apply elem_of_difference in Hx' as [_ Hx']. apply Hx'.
    apply elem_of_union_l, elem_of_singleton. reflexivity.
Qed.

Lemma union_absorb_elem (x : N) (A B : gset N) :
  x ∈ B -> {[x]} ∪ A ∪ B = A ∪ B.
Proof.
  intros Hx. apply set_eq. intros y.
  rewrite !elem_of_union, elem_of_singleton.
  split; [ intros [[-> | H] | H]; auto | tauto ].
Qed.

Lemma union_move_elem (x : N) (A B : gset N) :
  {[x]} ∪ A ∪ B = A ∪ ({[x]} ∪ B).
Proof.
  apply set_eq. intros y. rewrite !elem_of_union. tauto.
Qed.

Lemma visit_pair (depth : Z) (visited : gset N) (frontier : list (N * Z))
    (node : N) :
  visit depth (visited, frontier) node =
  if decide (node ∈ visited) then (visited, frontier)
  else ({[node]} ∪ visited, frontier ++ [(node, depth)]).
Proof. reflexivity. Qed.

(** What a run of [visit] over a list of nodes does to the visited set
    and to the queue. *)
Lemma visit_fold (U : gset N) (depth : Z) (nodes : list N) :
  forall (visited : gset N) (frontier : list (N * Z)),
    (forall x, x ∈ nodes -> x ∈ U) ->
    exists added,
      fold_left (visit depth) nodes (visited, frontier)
      = (list_to_set nodes ∪ visited, frontier ++ added)
      /\ Forall (fun entry => entry.2 = depth) added
      /\ length added + size (U ∖ (list_to_set nodes ∪ visited))
         = size (U ∖ visited).
Proof.
  induction nodes as [ | node nodes IH ]; intros visited frontier HU.
  - exists []. simpl. rewrite app_nil_r, union_empty_l_L. auto.
  - cbn [fold_left]. rewrite visit_pair, list_to_set_cons.
    destruct (decide (node ∈ visited)) as [Hin | Hnew].
    + destruct (IH visited frontier) as (added & Hfold & Hdepth & Hsize).
      { intros x Hx. apply HU. right. exact Hx. }
      exists added. rewrite Hfold.
      rewrite (union_absorb_elem node _ visited Hin). auto.
    + destruct (IH ({[node]} ∪ visited) (frontier ++ [(node, depth)]))
        as (added & Hfold & Hdepth & Hsize).
      { intros x Hx. apply HU. right. exact Hx. }
      exists ((node, depth) :: added). rewrite Hfold.
      rewrite union_move_elem.
      rewrite <- app_assoc. simpl.
      split; [ reflexivity | ]. split; [ constructor; auto | ].
      rewrite Hsize. apply size_unvisited_insert; [ | exact Hnew ].
      apply HU. left.
Qed.

Lemma neighbours_known (adjacency : gmap N (list N)) (start_nodes : list N)
    (current : N) (neighbors : list N) :
  adjacency !! current = Some neighbors ->
  forall x, x ∈ neighbors -> x ∈ known_nodes adjacency start_nodes.
Proof.
  intros Hlook x Hx. unfold known_nodes.
  apply elem_of_union_r, elem_of_list_to_set, list_elem_of_In, in_concat.
  exists neighbors. split; [ | apply list_elem_of_In; exact Hx ].
  apply in_map_iff. exists (current, neighbors). split; [ reflexivity | ].
  apply list_elem_of_In, elem_of_map_to_list. exact Hlook.
Qed.

(** The loop ends within the fuel that the queue and the nodes not yet
    visited add up to, and it never removes a node from the set. *)
Lemma bfs_loop_total (adjacency : gmap N (list N)) (start_nodes : list N)
    (max_depth : Z) (fuel : nat) :
  forall (visited : gset N) (frontier : list (N * Z)),
    length frontier
      + size (known_nodes adjacency start_nodes ∖ visited) <= fuel ->
    exists result,
      bfs_loop fuel adjacency max_depth visited frontier = Some result
      /\ visited ⊆ result.
Proof.
  induction fuel as [ | fuel IH ]; intros visited frontier Hfuel.
  - destruct frontier as [ | [current depth] frontier ]; [ | simpl in Hfuel; lia ].
    exists visited. split; [ reflexivity | set_solver ].
  - destruct frontier as [ | [current depth] frontier ].
    { exists visited. split; [ reflexivity | set_solver ]. }
    simpl in Hfuel. simpl.
    destruct (max_depth <=? depth)%Z.
    { apply IH. lia. }
    destruct (adjacency !! current) as [ neighbors | ] eqn:Hlook.
    2: { apply IH. lia. }
    destruct (visit_fold (known_nodes adjacency start_nodes) (depth + 1)
                neighbors visited frontier
                (neighbours_known adjacency start_nodes current neighbors Hlook))
      as (added & -> & _ & Hsize).
    destruct (IH (list_to_set neighbors ∪ visited) (frontier ++ added))
      as (result & Hres & Hsub).
    { rewrite length_app. lia. }
    exists result. split; [ exact Hres | set_solver ].
Qed.

(** Nothing is expanded from a queue whose entries are all at or beyond
    the depth bound. *)
Lemma bfs_loop_at_bound (adjacency : gmap N (list N)) (max_depth : Z)
    (fuel : nat) (visited : gset N) :
  forall frontier : list (N * Z),
    Forall (fun entry => (max_depth <= entry.2)%Z) frontier ->
    length frontier <= fuel ->
    bfs_loop fuel adjacency max_depth visited frontier = Some visited.
Proof.
  induction fuel as [ | fuel IH ]; intros frontier Hall Hfuel.
  - destruct frontier; [ reflexivity | simpl in Hfuel; lia ].
  - destruct frontier as [ | [current depth] frontier ]; [ reflexivity | ].
    inversion Hall as [ | entry rest Hd Hrest ]; subst.
    simpl in Hd, Hfuel. simpl.
    destruct (Z.leb_spec max_depth depth); [ | lia ].
    apply IH; [ exact Hrest | lia ].
Qed.

(** A result does not depend on the fuel left over. *)
Lemma bfs_loop_more_fuel (adjacency : gmap N (list N)) (max_depth : Z)
    (fuel : nat) :
  forall (visited : gset N) (frontier : list (N * Z)) (result : gset N)
         (fuel' : nat),
    bfs_loop fuel adjacency max_depth visited frontier = Some result ->
    fuel <= fuel' ->
    bfs_loop fuel' adjacency max_depth visited frontier = Some result.
Proof.
  induction fuel as [ | fuel IH ]; intros visited frontier result fuel' Hrun Hle.
  - destruct frontier as [ | [current depth] frontier ]; [ | discriminate ].
    destruct fuel'; exact Hrun.
  - destruct frontier as [ | [current depth] frontier ].
    { destruct fuel'; exact Hrun. }
    destruct fuel' as [ | fuel' ]; [ lia | ].
    simpl in Hrun |- *.
    destruct (max_depth <=? depth)%Z.
    { apply IH; [ exact Hrun | lia ]. }
    destruct (adjacency !! current) as [ neighbors | ].
    2: { apply IH; [ exact Hrun | lia ]. }
    destruct (fold_left (visit (depth + 1)) neighbors (visited, frontier))
      as [visited' frontier'].
    apply IH; [ exact Hrun | lia ].
Qed.

(** C10.  [bfs_neighbors] returns a set, for every fuel from
    [enough_fuel] on, and that set holds every start node; with
    [max_depth <= 0] it is exactly the set of the start nodes, whatever
    the adjacency map is. *)
Theorem bfs_neighbors_start_nodes (adjacency : gmap N (list N))
    (start_nodes : list N) (max_depth : Z) :
  exists visited : gset N,
    (forall fuel, enough_fuel adjacency start_nodes <= fuel ->
       bfs_neighbors fuel adjacency start_nodes max_depth = Some visited)
    /\ (forall node, node ∈ start_nodes -> node ∈ visited)
    /\ ((max_depth <= 0)%Z -> visited = list_to_set start_nodes).
Proof.
  destruct (visit_fold (known_nodes adjacency start_nodes) 0 start_nodes ∅ [])
    as (queue & Hinit & Hzero & Hsize).
  { intros x Hx. unfold known_nodes. apply elem_of_union_l, elem_of_list_to_set, Hx. }
  rewrite union_empty_r_L in Hinit, Hsize. rewrite difference_empty_L in Hsize.
  simpl in Hinit.
  destruct (bfs_loop_total adjacency start_nodes max_depth
              (enough_fuel adjacency start_nodes) (list_to_set start_nodes) queue)
    as (visited & Hrun & Hsub).
  { unfold enough_fuel. lia. }
  exists visited. split; [ | split ].
  - intros fuel Hfuel. unfold bfs_neighbors. rewrite Hinit.
    apply bfs_loop_more_fuel with (fuel := enough_fuel adjacency start_nodes);
      assumption.
  - intros node Hnode. apply Hsub, elem_of_list_to_set, Hnode.
  - intros Hdepth.
    rewrite bfs_loop_at_bound in Hrun.
    + congruence.
    + apply Forall_forall. intros entry Hentry.
      rewrite Forall_forall in Hzero. rewrite (Hzero entry Hentry). exact Hdepth.
    + unfold enough_fuel. lia.
Qed.

End Bfs.

(** ** graph_ops.cpp: what the breadth-first search reaches *)

Section BfsExact.

Import graph_ops.

Local Open Scope Z_scope.

Variable adjacency : gmap N (list N).
Variable start_nodes : list N.
Variable max_depth : Z.

Abbreviation walk := (hops adjacency start_nodes).
Abbreviation within := (within adjacency start_nodes max_depth).
Abbreviation closed := (closed adjacency).
Abbreviation deep := (deep adjacency start_nodes max_depth).
Abbreviation entry_ok := (entry_ok adjacency start_nodes).
Abbreviation level_done := (level_done adjacency start_nodes max_depth).
Abbreviation bfs_invariant := (bfs_invariant adjacency start_nodes max_depth).

(** The entries that a run of [visit] pushes: one for each node of the list
    that was not visited before, and no other. *)
Lemma visit_fold_entries (depth : Z) (nodes : list N) :
  forall (visited : gset N) (frontier : list (N * Z)),
    exists added,
      fold_left (visit depth) nodes (visited, frontier)
      = (list_to_set nodes ∪ visited, frontier ++ added)
      /\ (forall y d, (y, d) ∈ added -> d = depth /\ y ∈ nodes /\ y ∉ visited)
      /\ (forall y, y ∈ nodes -> y ∉ visited -> (y, depth) ∈ added).
Proof.
  induction nodes as [ | node nodes IH ]; intros visited frontier.
  - exists []. simpl. rewrite app_nil_r, union_empty_l_L.
    split; [ reflexivity | ]. split.
    + intros y d H. apply elem_of_nil in H. destruct H.
    + intros y H. apply elem_of_nil in H. destruct H.
  - cbn [fold_left]. rewrite visit_pair, list_to_set_cons.
    destruct (decide (node ∈ visited)) as [Hin | Hnew].
    + destruct (IH visited frontier) as (added & Hfold & Hsound & Hcompl).
      exists added. rewrite Hfold.
      rewrite (union_absorb_elem node _ visited Hin).
      split; [ reflexivity | ]. split.
      * intros y d H. destruct (Hsound y d H) as (Hd & Hy & Hv).
        split; [ exact Hd | ]. split; [ | exact Hv ].
        apply elem_of_cons. right. exact Hy.
      * intros y Hy Hv. apply elem_of_cons in Hy as [-> | Hy].
        -- contradiction.
        -- apply Hcompl; assumption.
    + destruct (IH ({[node]} ∪ visited) (frontier ++ [(node, depth)]))
        as (added & Hfold & Hsound & Hcompl).
      exists ((node, depth) :: added). rewrite Hfold.
      rewrite union_move_elem.
      rewrite <- app_assoc. simpl.
      split; [ reflexivity | ]. split.
      * intros y d H. apply elem_of_cons in H as [Heq | H].
        -- injection Heq as -> ->. split; [ reflexivity | ].
           split; [ apply elem_of_cons; left; reflexivity | exact Hnew ].
        -- destruct (Hsound y d H) as (Hd & Hy & Hv).
           split; [ exact Hd | ]. split.
           ++ apply elem_of_cons. right. exact Hy.
           ++ intros Hv'. apply Hv. apply elem_of_union_r. exact Hv'.
      * intros y Hy Hv. apply elem_of_cons.
        destruct (decide (y = node)) as [-> | Hne]; [ left; reflexivity | ].
        right. apply Hcompl.
        -- apply elem_of_cons in Hy as [ | ]; [ contradiction | assumption ].
        -- rewrite elem_of_union, elem_of_singleton. tauto.
Qed.


Lemma StronglySorted_head_le (frontier : list (N * Z)) (p q : N * Z) :
  StronglySorted by_depth (p :: frontier) -> q ∈ p :: frontier -> p.2 <= q.2.
Proof.
  intros Hs Hq. apply StronglySorted_inv in Hs as [_ Hall].
  apply elem_of_cons in Hq as [-> | Hq]; [ lia | ].
  rewrite Forall_forall in Hall. apply Hall, list_elem_of_In. exact Hq.
Qed.

(** Once every node of the current level has been taken from the queue,
    the next level is complete. *)
Lemma level_advance (visited : gset N) (frontier : list (N * Z)) (level : Z) :
  (forall entry, entry ∈ frontier -> entry_ok visited entry) ->
  (forall x, x ∈ visited ->
     (exists d, (x, d) ∈ frontier) \/ closed visited x \/ deep x) ->
  (forall entry, entry ∈ frontier -> level < entry.2) ->
  0 <= level ->
  level_done visited level ->
  level_done visited (level + 1).
Proof.
  intros Hentries Hsettled Hlater Hlevel Hdone k y Hwalk Hk Hbound.
  destruct (Z_le_gt_dec (Z.of_nat k) level) as [Hle | Hgt].
  { apply (Hdone k y); assumption. }
  inversion Hwalk as [ x Hx | k' p y' neighbors Hp Hlook Hy ]; subst.
  { lia. }
  assert (p ∈ visited) as Hvis.
  { apply (Hdone k' p); [ exact Hp | lia | lia ]. }
  destruct (Hsettled p Hvis) as [ [d Hd] | [ Hclosed | Hdeep ] ].
  - pose proof (Hlater _ Hd) as Hl. simpl in Hl.
    destruct (Hentries _ Hd) as (_ & _ & _ & Hmin). simpl in Hmin.
    pose proof (Hmin k' Hp). lia.
  - apply (Hclosed neighbors y); assumption.
  - pose proof (Hdeep k' Hp). lia.
Qed.

Lemma entry_ok_mono (visited visited' : gset N) (entry : N * Z) :
  visited ⊆ visited' -> entry_ok visited entry -> entry_ok visited' entry.
Proof.
  intros Hsub (Hv & H0 & Hw & Hmin).
  split; [ apply Hsub, Hv | ]. auto.
Qed.

Lemma closed_mono (visited visited' : gset N) (x : N) :
  visited ⊆ visited' -> closed visited x -> closed visited' x.
Proof.
  intros Hsub Hc neighbors y Hlook Hy. apply Hsub. apply (Hc neighbors y); assumption.
Qed.

Lemma level_done_mono (visited visited' : gset N) (level : Z) :
  visited ⊆ visited' -> level_done visited level -> level_done visited' level.
Proof.
  intros Hsub Hdone k y Hw Hk Hb. apply Hsub. apply (Hdone k y); assumption.
Qed.

(** The level of the new head of the queue is complete. *)
Lemma level_next (visited : gset N) (frontier : list (N * Z)) (depth : Z) :
  0 <= depth ->
  level_done visited depth ->
  (forall entry, entry ∈ frontier -> entry_ok visited entry) ->
  (forall x, x ∈ visited ->
     (exists d, (x, d) ∈ frontier) \/ closed visited x \/ deep x) ->
  StronglySorted by_depth frontier ->
  (forall entry, entry ∈ frontier -> depth <= entry.2 <= depth + 1) ->
  match frontier with
  | [] => True
  | entry :: _ => level_done visited entry.2
  end.
Proof.
  intros H0 Hdone Hentries Hsettled Hsorted Hrange.
  destruct frontier as [ | next rest ]; [ exact I | ].
  assert (depth <= next.2 <= depth + 1) as Hnext.
  { apply Hrange, elem_of_cons. left. reflexivity. }
  destruct (Z.eq_dec next.2 depth) as [-> | Hne]; [ exact Hdone | ].
  replace next.2 with (depth + 1) by lia.
  apply level_advance with (frontier := next :: rest); try assumption.
  intros entry He.
  pose proof (StronglySorted_head_le rest next entry Hsorted He). lia.
Qed.

(** Dropping the head of the queue without expanding it. *)
Lemma bfs_invariant_skip (visited : gset N) (frontier : list (N * Z))
    (current : N) (depth : Z) :
  bfs_invariant visited ((current, depth) :: frontier) ->
  max_depth <= depth \/ adjacency !! current = None ->
  bfs_invariant visited frontier.
Proof.
  intros [Hstart Hsound Hentries Hsettled Hsorted Hlevels Hlevel] Hskip.
  assert ((current, depth) ∈ (current, depth) :: frontier) as Hhead.
  { apply elem_of_cons. left. reflexivity. }
  destruct (Hentries _ Hhead) as (_ & H0 & _ & Hmin). simpl in H0, Hmin.
  assert (forall entry, entry ∈ frontier -> entry_ok visited entry) as Hentries'.
  { intros entry He. apply Hentries, elem_of_cons. right. exact He. }
  assert (forall x, x ∈ visited ->
            (exists d, (x, d) ∈ frontier) \/ closed visited x \/ deep x)
    as Hsettled'.
  { intros x Hx. destruct (Hsettled x Hx) as [ [d Hd] | H ]; [ | right; exact H ].
    apply elem_of_cons in Hd as [Heq | Hd]; [ | left; exists d; exact Hd ].
    injection Heq as -> ->. right.
    destruct Hskip as [Hdepth | Hnone].
    - right. intros k Hk. pose proof (Hmin k Hk) as Hle. lia.
    - left. intros neighbors y Hlook. congruence. }
  assert (StronglySorted by_depth frontier) as Hsorted'.
  { apply StronglySorted_inv in Hsorted as [Hs _]. exact Hs. }
  split; try assumption.
  - intros p q Hp Hq. apply Hlevels; apply elem_of_cons; right; assumption.
  - apply level_next with (depth := depth); try assumption.
    intros entry He.
    assert (entry ∈ (current, depth) :: frontier) as He'.
    { apply elem_of_cons. right. exact He. }
    pose proof (StronglySorted_head_le _ _ _ Hsorted He') as Hlo.
    pose proof (Hlevels _ _ Hhead He') as Hhi. simpl in Hlo, Hhi. lia.
Qed.

(** Expanding the head of the queue. *)
Lemma bfs_invariant_expand (visited : gset N) (frontier : list (N * Z))
    (current : N) (depth : Z) (neighbors : list N) (added : list (N * Z)) :
  bfs_invariant visited ((current, depth) :: frontier) ->
  depth < max_depth ->
  adjacency !! current = Some neighbors ->
  (forall y d, (y, d) ∈ added ->
     d = depth + 1 /\ y ∈ neighbors /\ y ∉ visited) ->
  (forall y, y ∈ neighbors -> y ∉ visited -> (y, depth + 1) ∈ added) ->
  bfs_invariant (list_to_set neighbors ∪ visited) (frontier ++ added).
Proof.
  intros [Hstart Hsound Hentries Hsettled Hsorted Hlevels Hlevel]
    Hdepth Hlook Hadded Hall.
  simpl in Hlevel.
  assert ((current, depth) ∈ (current, depth) :: frontier) as Hhead.
  { apply elem_of_cons. left. reflexivity. }
  destruct (Hentries _ Hhead) as (_ & H0 & Hwalk & Hmin).
  simpl in H0, Hwalk, Hmin.
  assert (visited ⊆ list_to_set neighbors ∪ visited) as Hsub.
  { intros x Hx. apply elem_of_union_r. exact Hx. }
  assert (forall y, y ∈ neighbors -> walk (S (Z.to_nat depth)) y) as Hnew.
  { intros y Hy. apply hops_step with (x := current) (neighbors := neighbors);
      assumption. }
  assert (forall entry, entry ∈ frontier -> depth <= entry.2 <= depth + 1)
    as Hrange.
  { intros entry He.
    assert (entry ∈ (current, depth) :: frontier) as He'.
    { apply elem_of_cons. right. exact He. }
    pose proof (StronglySorted_head_le _ _ _ Hsorted He') as Hlo.
    pose proof (Hlevels _ _ Hhead He') as Hhi. simpl in Hlo, Hhi. lia. }
  assert (forall entry, entry ∈ frontier ++ added ->
            depth <= entry.2 <= depth + 1) as Hrange'.
  { intros entry He. apply elem_of_app in He as [He | He].
    - apply Hrange, He.
    - destruct entry as [y d]. destruct (Hadded y d He) as (-> & _). simpl. lia. }
  assert (forall entry, entry ∈ frontier ++ added ->
            entry_ok (list_to_set neighbors ∪ visited) entry) as Hentries'.
  { intros entry He. apply elem_of_app in He as [He | He].
    - apply entry_ok_mono with (visited := visited); [ exact Hsub | ].
      apply Hentries, elem_of_cons. right. exact He.
    - destruct entry as [y d]. destruct (Hadded y d He) as (-> & Hy & Hv).
      split; [ | split; [ | split ] ]; simpl.
      + apply elem_of_union_l, elem_of_list_to_set, Hy.
      + lia.
      + replace (Z.to_nat (depth + 1)) with (S (Z.to_nat depth)) by lia.
        apply Hnew, Hy.
      + intros k Hk.
        destruct (Z_le_gt_dec (Z.of_nat k) depth) as [Hle | Hgt]; [ | lia ].
        exfalso. apply Hv. apply (Hlevel k y); [ exact Hk | exact Hle | lia ]. }
  assert (forall x, x ∈ list_to_set neighbors ∪ visited ->
            (exists d, (x, d) ∈ frontier ++ added)
            \/ closed (list_to_set neighbors ∪ visited) x \/ deep x)
    as Hsettled'.
  { intros x Hx.
    destruct (decide (x ∈ visited)) as [Hv | Hv].
    - destruct (Hsettled x Hv) as [ [d Hd] | [ Hc | Hd ] ].
      + apply elem_of_cons in Hd as [Heq | Hd].
        * injection Heq as -> ->. right. left.
          intros neighbors' y Hlook' Hy.
          assert (neighbors' = neighbors) as -> by congruence.
          apply elem_of_union_l, elem_of_list_to_set, Hy.
        * left. exists d. apply elem_of_app. left. exact Hd.
      + right. left. apply closed_mono with (visited := visited); assumption.
      + right. right. exact Hd.
    - left. exists (depth + 1). apply elem_of_app. right. apply Hall; [ | exact Hv ].
      apply elem_of_union in Hx as [Hx | Hx]; [ | contradiction ].
      apply elem_of_list_to_set in Hx. exact Hx. }
  assert (StronglySorted by_depth (frontier ++ added)) as Hsorted'.
  { apply StronglySorted_inv in Hsorted as [Hs _].
    clear - Hs Hrange Hadded.
    induction frontier as [ | entry rest IH ].
    - simpl. clear Hs Hrange.
      induction added as [ | [y d] added IH ]; [ constructor | ].
      constructor.
      + apply IH. intros y' d' H. apply (Hadded y' d'), elem_of_cons. right. exact H.
      + apply Forall_forall. intros [y' d'] Hin.
        apply list_elem_of_In in Hin.
        destruct (Hadded y d) as (-> & _); [ apply elem_of_cons; left; reflexivity | ].
        destruct (Hadded y' d') as (-> & _); [ apply elem_of_cons; right; exact Hin | ].
        unfold by_depth. simpl. lia.
    - simpl. apply StronglySorted_inv in Hs as [Hs Hall]. constructor.
      + apply IH; [ exact Hs | ].
        intros e He. apply Hrange, elem_of_cons. right. exact He.
      + apply Forall_app. split; [ exact Hall | ].
        apply Forall_forall. intros [y' d'] Hin. apply list_elem_of_In in Hin.
        destruct (Hadded y' d' Hin) as (-> & _).
        unfold by_depth. simpl.
        assert (entry ∈ entry :: rest) as He by (apply elem_of_cons; left; reflexivity).
        pose proof (Hrange entry He). lia. }
  split; try assumption.
  - intros x Hx. apply Hsub, Hstart, Hx.
  - intros x Hx. apply elem_of_union in Hx as [Hx | Hx]; [ | apply Hsound, Hx ].
    apply elem_of_list_to_set in Hx.
    exists (S (Z.to_nat depth)). split; [ apply Hnew, Hx | right; lia ].
  - intros p q Hp Hq. pose proof (Hrange' p Hp). pose proof (Hrange' q Hq). lia.
  - apply level_next with (depth := depth); try assumption.
    apply level_done_mono with (visited := visited); assumption.
Qed.

(** The invariant holds when the loop is entered. *)
Lemma bfs_invariant_init (queue : list (N * Z)) :
  (forall y d, (y, d) ∈ queue -> d = 0 /\ y ∈ start_nodes /\ y ∉ (∅ : gset N)) ->
  (forall y, y ∈ start_nodes -> y ∉ (∅ : gset N) -> (y, 0) ∈ queue) ->
  bfs_invariant (list_to_set start_nodes) queue.
Proof.
  intros Hqueue Hall.
  assert (forall entry, entry ∈ queue -> entry.2 = 0 /\ entry.1 ∈ start_nodes)
    as Hq.
  { intros [y d] He. destruct (Hqueue y d He) as (-> & Hy & _). auto. }
  split.
  - intros x Hx. apply elem_of_list_to_set, Hx.
  - intros x Hx. apply elem_of_list_to_set in Hx.
    exists 0%nat. split; [ apply hops_start, Hx | left; reflexivity ].
  - intros entry He. destruct (Hq entry He) as (Hd & Hy).
    split; [ | split; [ | split ] ].
    + apply elem_of_list_to_set, Hy.
    + lia.
    + rewrite Hd. apply hops_start, Hy.
    + intros k _. lia.
  - intros x Hx. apply elem_of_list_to_set in Hx. left. exists 0.
    apply Hall; [ exact Hx | apply not_elem_of_empty ].
  - clear Hqueue Hall.
    induction queue as [ | entry rest IH ]; [ constructor | ].
    constructor.
    + apply IH. intros e He. apply Hq, elem_of_cons. right. exact He.
    + apply Forall_forall. intros e He. apply list_elem_of_In in He.
      unfold by_depth.
      destruct (Hq entry) as (-> & _); [ apply elem_of_cons; left; reflexivity | ].
      destruct (Hq e) as (-> & _); [ apply elem_of_cons; right; exact He | ].
      lia.
  - intros p q Hp Hq'. destruct (Hq p Hp) as (-> & _).
    destruct (Hq q Hq') as (-> & _). lia.
  - destruct queue as [ | entry rest ]; [ exact I | ].
    destruct (Hq entry) as (-> & _); [ apply elem_of_cons; left; reflexivity | ].
    intros k y Hw Hk _. assert (k = 0%nat) as -> by lia.
    inversion Hw; subst. apply elem_of_list_to_set. assumption.
Qed.

(** The loop keeps the invariant until the queue is empty. *)
Lemma bfs_loop_invariant (fuel : nat) :
  forall (visited : gset N) (frontier : list (N * Z)) (result : gset N),
    bfs_invariant visited frontier ->
    bfs_loop fuel adjacency max_depth visited frontier = Some result ->
    bfs_invariant result [].
Proof.
  induction fuel as [ | fuel IH ]; intros visited frontier result Hinv Hrun.
  - destruct frontier as [ | [current depth] frontier ]; [ | discriminate ].
    simpl in Hrun. congruence.
  - destruct frontier as [ | [current depth] frontier ].
    { simpl in Hrun. congruence. }
    simpl in Hrun.
    destruct (Z.leb_spec max_depth depth) as [Hle | Hlt].
    { apply (IH visited frontier); [ | exact Hrun ].
      apply bfs_invariant_skip with (current := current) (depth := depth); auto. }
    destruct (adjacency !! current) as [ neighbors | ] eqn:Hlook.
    2: { apply (IH visited frontier); [ | exact Hrun ].
         apply bfs_invariant_skip with (current := current) (depth := depth); auto. }
    destruct (visit_fold_entries (depth + 1) neighbors visited frontier)
      as (added & Hfold & Hadded & Hall).
    rewrite Hfold in Hrun.
    apply (IH _ _ result) in Hrun; [ exact Hrun | ].
    apply bfs_invariant_expand with (current := current) (depth := depth);
      assumption.
Qed.

(** Within [max_depth] hops of a start node: closed under the invariant
    of an empty queue. *)
Lemma bfs_invariant_complete (result : gset N) :
  bfs_invariant result [] ->
  forall (k : nat) (x : N),
    walk k x -> (k = 0%nat \/ Z.of_nat k <= max_depth) -> x ∈ result.
Proof.
  intros [Hstart _ _ Hsettled _ _ _] k.
  induction k as [ | k IH ]; intros x Hw Hb.
  - inversion Hw; subst. apply Hstart. assumption.
  - inversion Hw as [ | k' p y neighbors Hp Hlook Hy ]; subst.
    assert (p ∈ result) as Hin by (apply IH; [ exact Hp | lia ]).
    destruct (Hsettled p Hin) as [ [d Hd] | [ Hc | Hd ] ].
    + apply elem_of_nil in Hd. destruct Hd.
    + apply (Hc neighbors x); assumption.
    + pose proof (Hd k Hp). lia.
Qed.

(** [bfs_neighbors] returns exactly the nodes that a walk of at most
    [max_depth] edges reaches from a start node (the start nodes
    themselves whatever [max_depth] is). *)
Theorem bfs_neighbors_exact :
  exists visited : gset N,
    (forall fuel, (enough_fuel adjacency start_nodes <= fuel)%nat ->
       bfs_neighbors fuel adjacency start_nodes max_depth = Some visited)
    /\ forall x : N,
         x ∈ visited <->
         exists k : nat,
           hops adjacency start_nodes k x
           /\ (k = 0%nat \/ Z.of_nat k <= max_depth).
Proof.
  destruct (visit_fold (known_nodes adjacency start_nodes) 0 start_nodes ∅ [])
    as (queue & Hinit & _ & Hsize).
  { intros x Hx. unfold known_nodes. apply elem_of_union_l, elem_of_list_to_set, Hx. }
  destruct (visit_fold_entries 0 start_nodes ∅ [])
    as (queue' & Hinit' & Hqueue & Hall).
  assert (queue' = queue) as -> by (rewrite Hinit in Hinit'; simpl in Hinit'; congruence).
  clear Hinit'.
  rewrite union_empty_r_L in Hinit, Hsize. rewrite difference_empty_L in Hsize.
  simpl in Hinit.
  destruct (bfs_loop_total adjacency start_nodes max_depth
              (enough_fuel adjacency start_nodes) (list_to_set start_nodes) queue)
    as (visited & Hrun & _).
  { unfold enough_fuel. lia. }
  pose proof (bfs_loop_invariant _ _ _ _ (bfs_invariant_init queue Hqueue Hall) Hrun)
    as Hinv.
  exists visited. split.
  - intros fuel Hfuel. unfold bfs_neighbors. rewrite Hinit.
    apply bfs_loop_more_fuel with (fuel := enough_fuel adjacency start_nodes);
      assumption.
  - intros x. split.
    + apply (inv_sound _ _ _ _ _ Hinv).
    + intros (k & Hw & Hb). apply (bfs_invariant_complete visited Hinv k x); assumption.
Qed.

End BfsExact.


(** ** graph_ops.cpp: connected components *)

Section Components.

Import graph_ops.

Local Open Scope Z_scope.

Variable adjacency : gmap N (list N).
Variable n_nodes : nat.

Abbreviation edge := (linked adjacency n_nodes).
Abbreviation components_invariant :=
  (components_invariant adjacency n_nodes).

Lemma component_of_insert (ids : list Z) (i : nat) (c : Z) (x : N) :
  (i < length ids)%nat ->
  component_of (<[i := c]> ids) x
  = if Nat.eq_dec (N.to_nat x) i then c else component_of ids x.
Proof.
  intros Hi. unfold component_of. apply at_int_insert. exact Hi.
Qed.

Lemma unlabelled_insert (ids : list Z) (i : nat) (c : Z) :
  (i < length ids)%nat -> at_int ids i = -1 -> c <> -1 ->
  S (unlabelled (<[i := c]> ids)) = unlabelled ids.
Proof.
  unfold unlabelled, at_int. revert i.
  induction ids as [ | a ids IH ]; intros i Hi Hat Hc; [ simpl in Hi; lia | ].
  destruct i as [ | i ]; simpl in Hat |- *.
  - subst a. destruct (Z.eq_dec c (-1)); [ contradiction | ].
    destruct (Z.eq_dec (-1) (-1)); [ reflexivity | contradiction ].
  - simpl in Hi. specialize (IH i ltac:(lia) Hat Hc).
    destruct (Z.eq_dec a (-1)); lia.
Qed.

Lemma unlabelled_le_length (ids : list Z) :
  (unlabelled ids <= length ids)%nat.
Proof.
  unfold unlabelled. induction ids as [ | a ids IH ]; simpl; [ lia | ].
  destruct (Z.eq_dec a (-1)); lia.
Qed.

Lemma label_pair (c : Z) (ids : list Z) (q : list N) (neighbor : N) :
  label n_nodes c (ids, q) neighbor =
  if (N.to_nat neighbor <? n_nodes)%nat
     && (at_int ids (N.to_nat neighbor) =? -1)
  then (<[N.to_nat neighbor := c]> ids, q ++ [neighbor])
  else (ids, q).
Proof. reflexivity. Qed.

(** What a run of [label] over a neighbour list does to the labels and to
    the queue. *)
Lemma label_fold (c : Z) (neighbors : list N) :
  c <> -1 ->
  forall (ids : list Z) (q : list N),
    length ids = n_nodes ->
    exists ids' added,
      fold_left (label n_nodes c) neighbors (ids, q) = (ids', q ++ added)
      /\ length ids' = n_nodes
      /\ (forall x, component_of ids x <> -1 ->
            component_of ids' x = component_of ids x)
      /\ (forall x, component_of ids' x = component_of ids x
                    \/ (component_of ids x = -1 /\ component_of ids' x = c
                        /\ x ∈ added))
      /\ (forall x, x ∈ added ->
            x ∈ neighbors /\ (N.to_nat x < n_nodes)%nat
            /\ component_of ids x = -1 /\ component_of ids' x = c)
      /\ (forall x, x ∈ neighbors -> (N.to_nat x < n_nodes)%nat ->
            component_of ids' x <> -1)
      /\ (length added + unlabelled ids' = unlabelled ids)%nat.
Proof.
  intros Hc.
  induction neighbors as [ | y neighbors IH ]; intros ids q Hlen.
  - exists ids, []. simpl. rewrite app_nil_r.
    split; [ reflexivity | ]. split; [ exact Hlen | ].
    split; [ auto | ]. split; [ auto | ].
    split; [ intros x H; apply elem_of_nil in H; destruct H | ].
    split; [ intros x H; apply elem_of_nil in H; destruct H | reflexivity ].
  - cbn [fold_left]. rewrite label_pair.
    destruct (Nat.ltb_spec (N.to_nat y) n_nodes) as [Hy | Hy]; simpl.
    1: destruct (Z.eqb_spec (at_int ids (N.to_nat y)) (-1)) as [Hun | Hlab].
    + (* the neighbour is labelled and queued *)
      assert (N.to_nat y < length ids)%nat as Hy' by lia.
      destruct (IH (<[N.to_nat y := c]> ids) (q ++ [y]))
        as (ids' & added & Hfold & Hlen' & Hframe & Hchanged & Hadded
            & Hcompl & Hcount).
      { rewrite length_insert. exact Hlen. }
      assert (forall x, component_of (<[N.to_nat y := c]> ids) x
                        = if decide (x = y) then c else component_of ids x)
        as Hins.
      { intros x. rewrite component_of_insert by exact Hy'.
        destruct (Nat.eq_dec (N.to_nat x) (N.to_nat y)) as [He | Hne];
          destruct (decide (x = y)) as [-> | Hne']; try reflexivity.
        - apply N2Nat.inj in He. contradiction.
        - contradiction. }
      assert (component_of ids' y = c) as Hy_c.
      { rewrite Hframe; rewrite Hins; rewrite decide_True by reflexivity;
          [ reflexivity | exact Hc ]. }
      exists ids', (y :: added). rewrite Hfold, <- app_assoc. simpl.
      split; [ reflexivity | ]. split; [ exact Hlen' | ].
      split; [ | split; [ | split; [ | split ] ] ].
      * intros x Hx. destruct (decide (x = y)) as [-> | Hne].
        { exfalso. apply Hx. exact Hun. }
        rewrite Hframe; rewrite Hins; rewrite decide_False by exact Hne;
          [ reflexivity | exact Hx ].
      * intros x. destruct (decide (x = y)) as [-> | Hne].
        { right. split; [ exact Hun | ]. split; [ exact Hy_c | ].
          apply elem_of_cons. left. reflexivity. }
        destruct (Hchanged x) as [Heq | (Hun' & Hc' & Hin)];
          rewrite Hins in *; rewrite decide_False in * by exact Hne.
        -- left. exact Heq.
        -- right. split; [ exact Hun' | ]. split; [ exact Hc' | ].
           apply elem_of_cons. right. exact Hin.
      * intros x Hx. apply elem_of_cons in Hx as [-> | Hx].
        { split; [ apply elem_of_cons; left; reflexivity | ]. auto. }
        destruct (Hadded x Hx) as (Hin & Hlt & Hun' & Hc').
        rewrite Hins in Hun'.
        destruct (decide (x = y)) as [-> | Hne]; [ contradiction | ].
        split; [ apply elem_of_cons; right; exact Hin | ]. auto.
      * intros x Hx Hlt. apply elem_of_cons in Hx as [-> | Hx].
        -- rewrite Hy_c. exact Hc.
        -- apply Hcompl; assumption.
      * rewrite <- (unlabelled_insert ids (N.to_nat y) c Hy' Hun Hc).
        simpl. lia.
    + (* already labelled *)
      destruct (IH ids q Hlen)
        as (ids' & added & Hfold & Hlen' & Hframe & Hchanged & Hadded
            & Hcompl & Hcount).
      exists ids', added. rewrite Hfold.
      split; [ reflexivity | ]. split; [ exact Hlen' | ].
      split; [ exact Hframe | ]. split; [ exact Hchanged | ].
      split; [ | split; [ | exact Hcount ] ].
      * intros x Hx. destruct (Hadded x Hx) as (Hin & H).
        split; [ apply elem_of_cons; right; exact Hin | exact H ].
      * intros x Hx Hlt. apply elem_of_cons in Hx as [-> | Hx].
        -- rewrite Hframe; exact Hlab.
        -- apply Hcompl; assumption.
    + (* out of range *)
      destruct (IH ids q Hlen)
        as (ids' & added & Hfold & Hlen' & Hframe & Hchanged & Hadded
            & Hcompl & Hcount).
      exists ids', added. rewrite Hfold.
      split; [ reflexivity | ]. split; [ exact Hlen' | ].
      split; [ exact Hframe | ]. split; [ exact Hchanged | ].
      split; [ | split; [ | exact Hcount ] ].
      * intros x Hx. destruct (Hadded x Hx) as (Hin & H).
        split; [ apply elem_of_cons; right; exact Hin | exact H ].
      * intros x Hx Hlt. apply elem_of_cons in Hx as [-> | Hx]; [ lia | ].
        apply Hcompl; assumption.
Qed.


(** The outer loop passes a node that has its label. *)
Lemma components_invariant_pass (node : nat) (bound : Z) (ids : list Z) :
  components_invariant node bound [] ids ->
  at_int ids node <> -1 ->
  components_invariant (S node) bound [] ids.
Proof.
  intros [Hlen Hbound Hprefix Hrange Hroots Hclosed Hqueue] Hlab.
  split; try assumption.
  - lia.
  - intros x Hx. destruct (Nat.eq_dec (N.to_nat x) node) as [He | Hne].
    + unfold component_of. rewrite He. exact Hlab.
    + apply Hprefix. lia.
  - intros c Hc. destruct (Hroots c Hc) as (r & Hr & H).
    exists r. split; [ lia | exact H ].
Qed.

(** The outer loop opens a component at an unlabelled node. *)
Lemma components_invariant_root (node : nat) (bound : Z) (ids : list Z) :
  (node < n_nodes)%nat ->
  components_invariant node bound [] ids ->
  at_int ids node = -1 ->
  components_invariant (S node) (bound + 1) [N.of_nat node]
    (<[node := bound]> ids).
Proof.
  intros Hnode [Hlen Hbound Hprefix Hrange Hroots Hclosed Hqueue] Hun.
  assert (node < length ids)%nat as Hnode' by lia.
  assert (forall x, component_of (<[node := bound]> ids) x
                    = if decide (x = N.of_nat node) then bound
                      else component_of ids x) as Hins.
  { intros x. rewrite component_of_insert by exact Hnode'.
    destruct (Nat.eq_dec (N.to_nat x) node) as [He | Hne];
      destruct (decide (x = N.of_nat node)) as [-> | Hne']; try reflexivity.
    - exfalso. apply Hne'. rewrite <- He, N2Nat.id. reflexivity.
    - rewrite Nat2N.id in Hne. contradiction. }
  assert (component_of ids (N.of_nat node) = -1) as Hun'.
  { unfold component_of. rewrite Nat2N.id. exact Hun. }
  split.
  - rewrite length_insert. exact Hlen.
  - lia.
  - intros x Hx. rewrite Hins.
    destruct (decide (x = N.of_nat node)) as [-> | Hne]; [ lia | ].
    apply Hprefix.
    assert (N.to_nat x <> node) by (intros <-; apply Hne; rewrite N2Nat.id; reflexivity).
    lia.
  - intros x Hx. rewrite Hins.
    destruct (decide (x = N.of_nat node)) as [-> | Hne]; [ right; lia | ].
    destruct (Hrange x Hx) as [ | ]; [ left; assumption | right; lia ].
  - intros c Hc. destruct (Z.eq_dec c bound) as [-> | Hne].
    + exists (N.of_nat node). rewrite Nat2N.id.
      split; [ lia | ]. split; [ exact Hnode | ]. split.
      * rewrite Hins, decide_True by reflexivity. reflexivity.
      * intros x Hx Hxc. rewrite Hins in Hxc.
        destruct (decide (x = N.of_nat node)) as [-> | Hne].
        -- split; [ lia | apply rtc_refl ].
        -- destruct (Hrange x Hx); lia.
    + destruct (Hroots c ltac:(lia)) as (r & Hr & Hrn & Hrc & Hall).
      exists r. split; [ lia | ]. split; [ exact Hrn | ]. split.
      * rewrite Hins. destruct (decide (r = N.of_nat node)) as [-> | _]; [ | exact Hrc ].
        rewrite Hun' in Hrc. lia.
      * intros x Hx Hxc. rewrite Hins in Hxc.
        destruct (decide (x = N.of_nat node)) as [-> | _]; [ lia | ].
        apply Hall; assumption.
  - intros u v Huv Hu. rewrite !Hins in *.
    destruct (decide (u = N.of_nat node)) as [-> | Hne].
    { left. apply elem_of_cons. left. reflexivity. }
    right. destruct (Hclosed u v Huv Hu) as [Hin | [Hv Hle]].
    { apply elem_of_nil in Hin. destruct Hin. }
    destruct (decide (v = N.of_nat node)) as [-> | _]; [ contradiction | ].
    split; assumption.
  - intros x Hx. apply list_elem_of_singleton in Hx as ->.
    rewrite Nat2N.id. split; [ exact Hnode | ].
    rewrite Hins, decide_True by reflexivity. lia.
Qed.

(** The inner loop takes a node without neighbours from the queue. *)
Lemma components_invariant_leaf (node : nat) (bound : Z) (ids : list Z)
    (current : N) (q : list N) :
  components_invariant node bound (current :: q) ids ->
  adjacency !! current = None ->
  components_invariant node bound q ids.
Proof.
  intros [Hlen Hbound Hprefix Hrange Hroots Hclosed Hqueue] Hnone.
  split; try assumption.
  - intros u v Huv Hu. destruct (Hclosed u v Huv Hu) as [Hin | H]; [ | right; exact H ].
    apply elem_of_cons in Hin as [-> | Hin]; [ | left; exact Hin ].
    destruct Huv as (_ & _ & neighbors & Hlook & _). congruence.
  - intros x Hx. apply Hqueue, elem_of_cons. right. exact Hx.
Qed.

(** The inner loop labels the neighbours of the head of the queue. *)
Lemma components_invariant_spread (node : nat) (bound : Z) (ids ids' : list Z)
    (current : N) (q added neighbors : list N) :
  components_invariant node bound (current :: q) ids ->
  1 <= bound ->
  adjacency !! current = Some neighbors ->
  length ids' = n_nodes ->
  (forall x, component_of ids x <> -1 ->
     component_of ids' x = component_of ids x) ->
  (forall x, component_of ids' x = component_of ids x
             \/ (component_of ids x = -1 /\ component_of ids' x = bound - 1
                 /\ x ∈ added)) ->
  (forall x, x ∈ added ->
     x ∈ neighbors /\ (N.to_nat x < n_nodes)%nat
     /\ component_of ids x = -1 /\ component_of ids' x = bound - 1) ->
  (forall x, x ∈ neighbors -> (N.to_nat x < n_nodes)%nat ->
     component_of ids' x <> -1) ->
  components_invariant node bound (q ++ added) ids'.
Proof.
  intros [Hlen Hbound Hprefix Hrange Hroots Hclosed Hqueue]
    Hone Hlook Hlen' Hframe Hchanged Hadded Hcompl.
  destruct (Hqueue current) as (Hcur & Hcur_c).
  { apply elem_of_cons. left. reflexivity. }
  assert (forall x, (N.to_nat x < n_nodes)%nat ->
            component_of ids' x = -1 \/ 0 <= component_of ids' x < bound)
    as Hrange'.
  { intros x Hx. destruct (Hchanged x) as [-> | (_ & -> & _)].
    - apply Hrange, Hx.
    - destruct (Hrange current Hcur); lia. }
  split; try assumption.
  - intros x Hx. rewrite Hframe; apply Hprefix, Hx.
  - intros c Hc. destruct (Hroots c Hc) as (r & Hr & Hrn & Hrc & Hall).
    exists r. split; [ exact Hr | ]. split; [ exact Hrn | ]. split.
    + rewrite Hframe; [ exact Hrc | lia ].
    + intros x Hx Hxc.
      destruct (Hchanged x) as [Heq | (Hun & Hnew & Hin)].
      * apply Hall; [ exact Hx | lia ].
      * destruct (Hadded x Hin) as (Hnb & _).
        assert (c = bound - 1) as -> by lia.
        destruct (Hall current Hcur Hcur_c) as (_ & Hpath).
        split.
        -- destruct (N.le_gt_cases r x) as [ | Hlt ]; [ assumption | ].
           exfalso. apply (Hprefix x); [ lia | exact Hun ].
        -- apply rtc_r with (y := current); [ exact Hpath | ].
           split; [ exact Hcur | ]. split; [ exact Hx | ].
           exists neighbors. split; assumption.
  - intros u v Huv Hu.
    destruct (Hchanged u) as [Heq | (Hun & Hnew & Hin)].
    + rewrite Heq in Hu |- *.
      destruct (Hclosed u v Huv Hu) as [Hin | [Hv Hle]].
      * apply elem_of_cons in Hin as [-> | Hin].
        -- right. destruct Huv as (_ & Hv & neighbors' & Hlook' & Hin).
           assert (neighbors' = neighbors) as -> by congruence.
           pose proof (Hcompl v Hin Hv) as Hlab.
           split; [ exact Hlab | ].
           destruct (Hrange' v Hv); lia.
        -- left. apply elem_of_app. left. exact Hin.
      * right. rewrite (Hframe v Hv). split; assumption.
    + left. apply elem_of_app. right. exact Hin.
  - intros x Hx. apply elem_of_app in Hx as [Hx | Hx].
    + destruct (Hqueue x) as (Hlt & Hxc).
      { apply elem_of_cons. right. exact Hx. }
      split; [ exact Hlt | ]. rewrite Hframe; [ exact Hxc | lia ].
    + destruct (Hadded x Hx) as (_ & Hlt & _ & Hxc). auto.
Qed.

(** The inner loop ends within the fuel that the queue and the unlabelled
    nodes add up to, and keeps the invariant. *)
Lemma component_loop_spec (node : nat) (c : Z) (fuel : nat) :
  0 <= c ->
  forall (ids : list Z) (q : list N),
    components_invariant node (c + 1) q ids ->
    (length q + unlabelled ids <= fuel)%nat ->
    exists ids',
      component_loop fuel adjacency n_nodes c ids q = Some ids'
      /\ components_invariant node (c + 1) [] ids'.
Proof.
  intros Hc0.
  induction fuel as [ | fuel IH ]; intros ids q Hinv Hfuel.
  - destruct q as [ | current q ]; [ | simpl in Hfuel; lia ].
    exists ids. split; [ reflexivity | exact Hinv ].
  - destruct q as [ | current q ].
    { exists ids. split; [ reflexivity | exact Hinv ]. }
    simpl in Hfuel. simpl.
    destruct (adjacency !! current) as [ neighbors | ] eqn:Hlook.
    2: { apply IH; [ | lia ].
         apply components_invariant_leaf with (current := current); assumption. }
    assert (c <> -1) as Hc by lia.
    destruct (label_fold c neighbors Hc ids q (ci_length _ _ _ _ _ _ Hinv))
      as (ids' & added & Hfold & Hlen' & Hframe & Hchanged & Hadded
          & Hcompl & Hcount).
    rewrite Hfold. apply IH.
    + apply components_invariant_spread
        with (ids := ids) (current := current) (neighbors := neighbors);
        try assumption; try lia;
        replace (c + 1 - 1) with c by lia; assumption.
    + rewrite length_app. lia.
Qed.

(** A result of the inner loop does not depend on the fuel left over. *)
Lemma component_loop_more_fuel (c : Z) (fuel : nat) :
  forall (ids : list Z) (q : list N) (result : list Z) (fuel' : nat),
    component_loop fuel adjacency n_nodes c ids q = Some result ->
    (fuel <= fuel')%nat ->
    component_loop fuel' adjacency n_nodes c ids q = Some result.
Proof.
  induction fuel as [ | fuel IH ]; intros ids q result fuel' Hrun Hle.
  - destruct q as [ | current q ]; [ | discriminate ].
    destruct fuel'; exact Hrun.
  - destruct q as [ | current q ].
    { destruct fuel'; exact Hrun. }
    destruct fuel' as [ | fuel' ]; [ lia | ].
    simpl in Hrun |- *.
    destruct (adjacency !! current) as [ neighbors | ].
    2: { apply IH; [ exact Hrun | lia ]. }
    destruct (fold_left (label n_nodes c) neighbors (ids, q)) as [ids' q'].
    apply IH; [ exact Hrun | lia ].
Qed.

(** The outer loop, up to [node]. *)
Lemma component_steps_spec (fuel : nat) (node : nat) :
  (Z.of_nat n_nodes <= INT_MAX) ->
  (n_nodes <= fuel)%nat ->
  (node <= n_nodes)%nat ->
  exists ids bound,
    for_range 0 node (component_step fuel adjacency n_nodes)
      (Some (repeat (-1) n_nodes, 0))
    = Some (ids, bound)
    /\ components_invariant node bound [] ids.
Proof.
  intros Hint Hfuel. induction node as [ | node IH ]; intros Hnode.
  - exists (repeat (-1) n_nodes), 0.
    rewrite for_range_empty by lia. split; [ reflexivity | ].
    split.
    + apply repeat_length.
    + lia.
    + intros x Hx. lia.
    + intros x Hx. left. unfold component_of, at_int.
      apply nth_repeat_lt. exact Hx.
    + intros c Hc. lia.
    + intros u v (Hlt & _) Hu. exfalso. apply Hu.
      unfold component_of, at_int. apply nth_repeat_lt. exact Hlt.
    + intros x Hx. apply elem_of_nil in Hx. destruct Hx.
  - destruct (IH ltac:(lia)) as (ids & bound & Hrun & Hinv).
    rewrite for_range_last by lia. rewrite Hrun. unfold component_step.
    destruct (Z.eqb_spec (at_int ids node) (-1)) as [Hun | Hlab]; simpl.
    + pose proof (components_invariant_root node bound ids ltac:(lia) Hinv Hun)
        as Hroot.
      destruct (component_loop_spec (S node) bound fuel
                  (proj1 (ci_bound _ _ _ _ _ _ Hinv))
                  (<[node := bound]> ids) [N.of_nat node] Hroot)
        as (ids' & Hloop & Hinv').
      { simpl.
        pose proof (unlabelled_insert ids node bound) as Hins.
        pose proof (unlabelled_le_length ids) as Hle.
        rewrite (ci_length _ _ _ _ _ _ Hinv) in Hins, Hle.
        pose proof (ci_bound _ _ _ _ _ _ Hinv).
        specialize (Hins ltac:(lia) Hun ltac:(lia)). lia. }
      rewrite Hloop. exists ids', (bound + 1). split; [ | exact Hinv' ].
      unfold int_add. rewrite to_int_small; [ reflexivity | ].
      pose proof (ci_bound _ _ _ _ _ _ Hinv). unfold INT_MAX in Hint. lia.
    + exists ids, bound. split; [ reflexivity | ].
      apply components_invariant_pass; assumption.
Qed.

(** A result of the outer loop does not depend on the fuel left over. *)
Lemma component_steps_more_fuel (fuel fuel' : nat) (node : nat)
    (init : option (list Z * Z)) (result : list Z * Z) :
  (fuel <= fuel')%nat ->
  for_range 0 node (component_step fuel adjacency n_nodes) init = Some result ->
  for_range 0 node (component_step fuel' adjacency n_nodes) init = Some result.
Proof.
  intros Hle. revert result.
  induction node as [ | node IH ]; intros result Hrun.
  - rewrite for_range_empty in Hrun |- * by lia. exact Hrun.
  - rewrite for_range_last in Hrun |- * by lia.
    destruct (for_range 0 node (component_step fuel adjacency n_nodes) init)
      as [ [ids c] | ] eqn:Hprev; [ | discriminate ].
    rewrite (IH (ids, c) eq_refl).
    unfold component_step in Hrun |- *.
    destruct (negb (at_int ids node =? -1)); [ exact Hrun | ].
    destruct (component_loop fuel adjacency n_nodes c (<[node := c]> ids)
                [N.of_nat node]) as [ ids' | ] eqn:Hloop; [ | discriminate ].
    rewrite (component_loop_more_fuel c fuel _ _ ids' fuel' Hloop Hle).
    exact Hrun.
Qed.

(** The function returns, for every fuel from [n_nodes] on, a labelling
    that satisfies the invariant of the finished loop. *)
Lemma find_connected_components_spec :
  Z.of_nat n_nodes <= INT_MAX ->
  exists ids count,
    (forall fuel, (n_nodes <= fuel)%nat ->
       find_connected_components fuel adjacency n_nodes = Some ids)
    /\ components_invariant n_nodes count [] ids.
Proof.
  intros Hint.
  destruct (component_steps_spec n_nodes n_nodes Hint (Nat.le_refl _) (Nat.le_refl _))
    as (ids & count & Hrun & Hinv).
  exists ids, count. split; [ | exact Hinv ].
  intros fuel Hfuel. unfold find_connected_components.
  rewrite (component_steps_more_fuel n_nodes fuel n_nodes _ _ Hfuel Hrun).
  reflexivity.
Qed.

Lemma rtc_edge_symmetric (u v : N) :
  undirected adjacency n_nodes -> rtc edge u v -> rtc edge v u.
Proof.
  intros Hsym Hpath. induction Hpath as [ x | x y z Hxy _ IH ].
  - apply rtc_refl.
  - apply rtc_r with (y := y); [ exact IH | apply Hsym, Hxy ].
Qed.

(** The labels of [find_connected_components] on any adjacency map: the
    function returns for every fuel from [n_nodes] on; every node has a
    label, the labels in use are [0 .. count-1]; each label has a first
    node, from which the edges lead to every node of that label; and
    no edge leads to a node of a greater label. *)
Theorem find_connected_components_labels :
  Z.of_nat n_nodes <= INT_MAX ->
  exists (component_ids : list Z) (count : Z),
    (forall fuel, (n_nodes <= fuel)%nat ->
       find_connected_components fuel adjacency n_nodes = Some component_ids)
    /\ length component_ids = n_nodes
    /\ 0 <= count <= Z.of_nat n_nodes
    /\ (forall x, (N.to_nat x < n_nodes)%nat ->
          0 <= component_of component_ids x < count)
    /\ (forall c, 0 <= c < count ->
          exists r, (N.to_nat r < n_nodes)%nat
            /\ component_of component_ids r = c
            /\ forall x, (N.to_nat x < n_nodes)%nat ->
                 component_of component_ids x = c ->
                 (r <= x)%N /\ rtc (linked adjacency n_nodes) r x)
    /\ (forall u v, linked adjacency n_nodes u v ->
          component_of component_ids v <= component_of component_ids u).
Proof.
  intros Hint.
  destruct (find_connected_components_spec Hint)
    as (ids & count & Hrun & [Hlen Hbound Hprefix Hrange Hroots Hclosed _]).
  exists ids, count.
  split; [ exact Hrun | ]. split; [ exact Hlen | ]. split; [ exact Hbound | ].
  split; [ | split ].
  - intros x Hx. destruct (Hrange x Hx) as [Hun | H]; [ | exact H ].
    exfalso. apply (Hprefix x Hx Hun).
  - intros c Hc. destruct (Hroots c Hc) as (r & _ & H). exists r. exact H.
  - intros u v Huv.
    destruct (Hclosed u v Huv) as [Hin | [_ Hle]]; [ | | exact Hle ].
    + apply Hprefix. destruct Huv as (Hu & _). exact Hu.
    + apply elem_of_nil in Hin. destruct Hin.
Qed.

(** On an adjacency map that lists every edge in both directions, two
    nodes below [n_nodes] get the same label exactly when a path of edges
    joins them. *)
Theorem find_connected_components_undirected :
  Z.of_nat n_nodes <= INT_MAX ->
  undirected adjacency n_nodes ->
  exists component_ids : list Z,
    (forall fuel, (n_nodes <= fuel)%nat ->
       find_connected_components fuel adjacency n_nodes = Some component_ids)
    /\ forall u v, (N.to_nat u < n_nodes)%nat -> (N.to_nat v < n_nodes)%nat ->
         (component_of component_ids u = component_of component_ids v
          <-> rtc (linked adjacency n_nodes) u v).
Proof.
  intros Hint Hsym.
  destruct (find_connected_components_spec Hint)
    as (ids & count & Hrun & [Hlen Hbound Hprefix Hrange Hroots Hclosed _]).
  exists ids. split; [ exact Hrun | ].
  assert (forall u v, edge u v -> component_of ids v <= component_of ids u)
    as Hedge.
  { intros u v Huv.
    destruct (Hclosed u v Huv) as [Hin | [_ Hle]]; [ | | exact Hle ].
    - apply Hprefix. destruct Huv as (Hu & _). exact Hu.
    - apply elem_of_nil in Hin. destruct Hin. }
  intros u v Hu Hv. split.
  - intros Heq.
    destruct (Hrange u Hu) as [Hun | Hc]; [ exfalso; apply (Hprefix u Hu Hun) | ].
    destruct (Hroots _ Hc) as (r & _ & _ & _ & Hall).
    destruct (Hall u Hu eq_refl) as (_ & Hru).
    destruct (Hall v Hv (eq_sym Heq)) as (_ & Hrv).
    apply rtc_trans with (y := r); [ | exact Hrv ].
    apply rtc_edge_symmetric; assumption.
  - intros Hpath. clear Hu Hv.
    induction Hpath as [ x | x y z Hxy _ IH ]; [ reflexivity | ].
    pose proof (Hedge x y Hxy). pose proof (Hedge y x (Hsym x y Hxy)). lia.
Qed.

End Components.

Section ComponentExamples.

Import graph_ops.


Example find_connected_components_runs :
  find_connected_components 3 two_components 3 = Some [0; 0; 1]%Z.
Proof. vm_compute. reflexivity. Qed.

Lemma two_components_undirected : undirected two_components 3.
Proof.
  assert (forall u v, linked two_components 3 u v ->
            (u = 0%N /\ v = 1%N) \/ (u = 1%N /\ v = 0%N)) as Hedges.
  { intros u v (Hu & Hv & neighbors & Hlook & Hin). unfold two_components in Hlook.
    apply lookup_insert_Some in Hlook as [ [<- <-] | [_ Hlook] ].
    { apply list_elem_of_singleton in Hin. auto. }
    apply lookup_insert_Some in Hlook as [ [<- <-] | [_ Hlook] ].
    { apply list_elem_of_singleton in Hin. auto. }
    apply lookup_insert_Some in Hlook as [ [<- <-] | [_ Hlook] ].
    { apply list_elem_of_singleton in Hin. subst v. simpl in Hv. lia. }
    rewrite lookup_empty in Hlook. discriminate. }
  assert (linked two_components 3 0 1) as H01.
  { split; [ simpl; lia | ]. split; [ simpl; lia | ].
    exists [1%N]. split; [ reflexivity | ].
    apply list_elem_of_singleton. reflexivity. }
  assert (linked two_components 3 1 0) as H10.
  { split; [ simpl; lia | ]. split; [ simpl; lia | ].
    exists [0%N]. split; [ reflexivity | ].
    apply list_elem_of_singleton. reflexivity. }
  intros u v Huv. destruct (Hedges u v Huv) as [ [-> ->] | [-> ->] ]; assumption.
Qed.

Lemma find_connected_components_labels_witness :
  exists (component_ids : list Z) (count : Z),
    (forall fuel, (3 <= fuel)%nat ->
       find_connected_components fuel two_components 3 = Some component_ids)
    /\ length component_ids = 3%nat
    /\ (0 <= count <= Z.of_nat 3)%Z
    /\ (forall x, (N.to_nat x < 3)%nat ->
          (0 <= component_of component_ids x < count)%Z)
    /\ (forall c, (0 <= c < count)%Z ->
          exists r, (N.to_nat r < 3)%nat
            /\ component_of component_ids r = c
            /\ forall x, (N.to_nat x < 3)%nat ->
                 component_of component_ids x = c ->
                 (r <= x)%N /\ rtc (linked two_components 3) r x)
    /\ (forall u v, linked two_components 3 u v ->
          (component_of component_ids v <= component_of component_ids u)%Z).
Proof.
  apply (find_connected_components_labels two_components 3).
  unfold INT_MAX. simpl. lia.
Defined.

Lemma find_connected_components_undirected_witness :
  exists component_ids : list Z,
    (forall fuel, (3 <= fuel)%nat ->
       find_connected_components fuel two_components 3 = Some component_ids)
    /\ forall u v, (N.to_nat u < 3)%nat -> (N.to_nat v < 3)%nat ->
         (component_of component_ids u = component_of component_ids v
          <-> rtc (linked two_components 3) u v).
Proof.
  apply (find_connected_components_undirected two_components 3).
  - unfold INT_MAX. simpl. lia.
  - exact two_components_undirected.
Defined.

End ComponentExamples.


(** ** The concrete scenarios of the specification *)

Section Scenarios.

Import decay vector_ops.

Lemma exp_minus_two_bounds : 1 / 9 <= exp (-2) < 1.
Proof.
  pose proof exp_le_3 as H3.
  pose proof (exp_pos 1) as H1.
  assert (exp 2 = exp 1 * exp 1) as H2 by (rewrite <- exp_plus; f_equal; lra).
  assert (1 < exp 1) as Hgt.
  { pose proof (exp_increasing 0 1) as Hinc. rewrite exp_0 in Hinc.
    apply Hinc. lra. }
  replace (-2) with (- (2)) by lra. rewrite exp_Ropp, H2. split.
  - apply Rmult_le_reg_r with (exp 1 * exp 1); [ nra | ].
    rewrite Rinv_l by nra. nra.
  - apply Rmult_lt_reg_r with (exp 1 * exp 1); [ nra | ].
    rewrite Rinv_l by nra. nra.
Qed.

(** Scenario 1: no elapsed time, no decay. *)
Example scenario_no_elapsed_time (channel_k : R) :
  calculate (mkDecayInput 1.0 0 0 0 (-1) 0 0) (default_config channel_k) = 1.0.
Proof.
  rewrite calculate_unfold_unguarded by (simpl; lra).
  rewrite calculate_unguarded_plain, std_max_Rmax.
  replace (- (0.002 / (1 + channel_k * 0) * 0)) with 0 by lra.
  rewrite exp_0. rewrite Rmax_left; lra.
Qed.

(** Scenario 2: after 1000 hours the score is strictly between the
    retention floor 0.1 and 1. *)
Example scenario_thousand_hours (channel_k : R) :
  0.1 < calculate (mkDecayInput 1.0 1000 0 0 (-1) 0 0) (default_config channel_k)
    < 1.0.
Proof.
  pose proof exp_minus_two_bounds as [Hlo Hhi].
  rewrite calculate_unfold_unguarded by (simpl; lra).
  rewrite calculate_unguarded_plain, std_max_Rmax.
  replace (1 + channel_k * 0) with 1 by lra.
  replace (- (0.002 / 1 * 1000)) with (-2) by lra.
  rewrite Rmax_left; lra.
Qed.

(** Scenario 3, first half: orthogonal vectors score 0. *)
Example scenario_orthogonal (HAS_AVX2 : bool) :
  cosine_similarity HAS_AVX2 [1; 0] [0; 1] = 0.0.
Proof.
  rewrite cosine_similarity_closed by (try reflexivity; discriminate).
  unfold euclidean_norm, dot_product, at_. cbn [length sum_upto nth].
  replace (0 + 1 * 1 + 0 * 0) with 1 by lra.
  replace (0 + 0 * 0 + 1 * 1) with 1 by lra.
  rewrite sqrt_1.
  destruct (Rlt_dec (1 * 1) 1e-10); lra.
Qed.

(** Scenario 4: of three rows, the two equal ones are the only pair
    reported. *)
Example scenario_duplicates (HAS_AVX2 : bool) :
  find_duplicates_by_embedding HAS_AVX2 [1; 0; 1; 0; 0; 1] 3 2 0.99
  = [(0%nat, 1%nat, 1.0)].
Proof.
  rewrite find_duplicates_flat_map.
  assert (forall i, (i < 3)%nat ->
            at_ (precompute_norms [1; 0; 1; 0; 0; 1] 3 2) i = 1) as Hnorm.
  { intros i Hi. rewrite precompute_norms_at by exact Hi.
    unfold row_norm, row_dot, at_.
    destruct i as [ | [ | [ | i ] ] ]; try lia;
      cbn [sum_upto nth Nat.mul Nat.add];
      (transitivity (sqrt 1); [ f_equal; lra | apply sqrt_1 ]). }
  cbn [seq flat_map]. unfold duplicates_of_row.
  rewrite !Hnorm by lia.
  destruct (Rlt_dec 1 1e-10) as [ H | _ ]; [ lra | ].
  cbn [seq flat_map Nat.add Nat.sub]. unfold duplicates_of_pair. cbv zeta.
  rewrite !Hnorm by lia. rewrite !pair_dot_row_dot.
  destruct (Rlt_dec 1 1e-10) as [ H | _ ]; [ lra | ].
  unfold row_dot, at_. cbn [sum_upto nth Nat.mul Nat.add].
  repeat match goal with
         | |- context [Rge_dec ?x ?y] => destruct (Rge_dec x y); try lra
         end.
  cbn [app]. repeat f_equal. lra.
Qed.

End Scenarios.
